(** * PLAMS [Settings]: a shallow embedding of [src/core/settings.py]

    [Settings] is a subclass of Python's [dict] whose instances are mutable
    objects that are passed around by reference.  The embedding therefore
    keeps an explicit object store: a heap of Python objects addressed by
    locations, and a state-and-exception monad in which every method of the
    class is written statement by statement.

    Conventions of the model:
    - a Python [dict] is an association list in insertion order;
    - keys are strings or integers (two key types are enough to exercise the
      heterogeneous-key paths of the class); a stored key is held by value,
      and the case-insensitive wrapper [ig] occurs as an argument of the
      item operations;
    - strings are byte strings, compared byte-wise as Python compares code
      points; [lower] maps the ASCII letters;
    - recursion is bounded by a [fuel] argument that plays the role of the
      interpreter's recursion limit: exhausting it raises [RecursionError]. *)

From Stdlib Require Import List ZArith Lia Bool String Ascii DecimalString.
From Stdlib Require Import Sorted Permutation.
Import ListNotations.

Local Open Scope Z_scope.

(** ** Keys and key order *)

Inductive key : Type :=
| KStr (s : string)
| KInt (z : Z).

(** A key as it is handed to an item operation: a plain key, or a string
    wrapped in the class [ig]. *)
Inductive name : Type :=
| NKey (k : key)
| NIg (s : string).

Definition key_eqb (a b : key) : bool :=
  match a, b with
  | KStr s, KStr t => String.eqb s t
  | KInt x, KInt y => Z.eqb x y
  | _, _ => false
  end.

Definition key_of_name (n : name) : key :=
  match n with
  | NKey k => k
  | NIg s => KStr s
  end.

(** [isinstance(name, ig)] *)
Definition is_ig (n : name) : bool :=
  match n with
  | NIg _ => true
  | NKey _ => false
  end.

(** Python's [str(k)] on a key. *)
Definition str (k : key) : string :=
  match k with
  | KStr s => s
  | KInt z => NilZero.string_of_int (Z.to_int z)
  end.

(** [c.lower()] on one ASCII character. *)
Definition lower_ascii (c : ascii) : ascii :=
  let n := nat_of_ascii c in
  if (Nat.leb 65 n && Nat.leb n 90)%bool then ascii_of_nat (n + 32) else c.

(** [s.lower()] *)
Fixpoint lower (s : string) : string :=
  match s with
  | EmptyString => EmptyString
  | String c r => String (lower_ascii c) (lower r)
  end.

(** [s.startswith(p)] and [s.endswith(p)] *)
Definition startswith (p s : string) : bool := String.prefix p s.

Definition endswith (p s : string) : bool :=
  (Nat.leb (String.length p) (String.length s)
   && String.eqb (substring (String.length s - String.length p)
                            (String.length p) s) p)%bool.

(** [name.startswith('__') and name.endswith('__')] *)
Definition is_dunder (s : string) : bool :=
  (startswith "__"%string s && endswith "__"%string s)%bool.

(** Python's [a < b] on two keys; [None] is the [TypeError] of comparing a
    string with an integer. *)
Definition key_lt (a b : key) : option bool :=
  match a, b with
  | KStr s, KStr t => Some (String.ltb s t)
  | KInt x, KInt y => Some (Z.ltb x y)
  | _, _ => None
  end.

(** [sorted(keys)]: a stable insertion sort that only uses [<], and fails as
    soon as one comparison fails. *)
Fixpoint insert_lt (x : key) (l : list key) : option (list key) :=
  match l with
  | [] => Some [x]
  | y :: r =>
      match key_lt y x with
      | None => None
      | Some true =>
          match insert_lt x r with
          | Some r' => Some (y :: r')
          | None => None
          end
      | Some false => Some (x :: y :: r)
      end
  end.

Fixpoint sorted_lt (l : list key) : option (list key) :=
  match l with
  | [] => Some []
  | x :: r =>
      match sorted_lt r with
      | Some r' => insert_lt x r'
      | None => None
      end
  end.

(** [sorted(keys, key=str)] *)
Fixpoint insert_str (x : key) (l : list key) : list key :=
  match l with
  | [] => [x]
  | y :: r =>
      if String.ltb (str y) (str x) then y :: insert_str x r
      else x :: y :: r
  end.

Fixpoint sorted_str (l : list key) : list key :=
  match l with
  | [] => []
  | x :: r => insert_str x (sorted_str r)
  end.

(** ** Values, objects and the heap *)

Definition loc : Type := nat.

Bind Scope nat_scope with loc.

Inductive value : Type :=
| VNone
| VInt (z : Z)
| VStr (s : string)
| VRef (l : loc).

Definition items_t : Type := list (key * value).

(** A [Settings] instance carries its mapping contents and, being an
    instance of a Python class, an attribute dictionary of its own. *)
Inductive obj : Type :=
| ONode (items : items_t) (attrs : list (string * value))
| ODict (items : items_t)
| OList (elems : list value).

Definition heap : Type := list obj.

Inductive exn : Type :=
| TypeError
| AttributeError
| KeyError
| IndexError
| RecursionError
| SystemError.

Inductive result (A : Type) : Type :=
| Ok (a : A) (h : heap)
| Raise (e : exn).

Arguments Ok {A} a h.
Arguments Raise {A} e.

(** ** Association lists: the built-in [dict] operations *)

Fixpoint lookup (k : key) (m : items_t) : option value :=
  match m with
  | [] => None
  | (k', v) :: r => if key_eqb k k' then Some v else lookup k r
  end.

(** [dict.__setitem__]: an existing key keeps its position. *)
Fixpoint assoc_set (k : key) (v : value) (m : items_t) : items_t :=
  match m with
  | [] => [(k, v)]
  | (k', v') :: r =>
      if key_eqb k k' then (k', v) :: r else (k', v') :: assoc_set k v r
  end.

Fixpoint assoc_del (k : key) (m : items_t) : items_t :=
  match m with
  | [] => []
  | (k', v') :: r =>
      if key_eqb k k' then r else (k', v') :: assoc_del k r
  end.

Definition mem (k : key) (m : items_t) : bool :=
  match lookup k m with
  | Some _ => true
  | None => false
  end.

Definition keys (m : items_t) : list key := map fst m.

Fixpoint attr_lookup (a : string) (m : list (string * value)) : option value :=
  match m with
  | [] => None
  | (a', v) :: r => if String.eqb a a' then Some v else attr_lookup a r
  end.

Fixpoint attr_set (a : string) (v : value) (m : list (string * value))
  : list (string * value) :=
  match m with
  | [] => [(a, v)]
  | (a', v') :: r =>
      if String.eqb a a' then (a', v) :: r else (a', v') :: attr_set a v r
  end.

Fixpoint attr_del (a : string) (m : list (string * value))
  : list (string * value) :=
  match m with
  | [] => []
  | (a', v') :: r =>
      if String.eqb a a' then r else (a', v') :: attr_del a r
  end.

(** ** The state-and-exception monad *)

Definition M (A : Type) : Type := heap -> result A.

Definition ret {A : Type} (a : A) : M A := fun h => Ok a h.

Definition raise {A : Type} (e : exn) : M A := fun _ => Raise e.

Definition bind {A B : Type} (m : M A) (f : A -> M B) : M B :=
  fun h =>
    match m h with
    | Ok a h' => f a h'
    | Raise e => Raise e
    end.

Declare Scope py_scope.
Delimit Scope py_scope with py.

Notation "x <- m ;; k" := (bind m (fun x => k))
  (at level 100, m at next level, right associativity) : py_scope.
Notation "m ;;; k" := (bind m (fun _ => k))
  (at level 100, right associativity) : py_scope.

Local Open Scope py_scope.

(** A [for] loop over a list that was computed before the loop starts. *)
Fixpoint forM {A : Type} (l : list A) (body : A -> M unit) : M unit :=
  match l with
  | [] => ret tt
  | a :: r => body a ;;; forM r body
  end.

(** A list comprehension. *)
Fixpoint mapM {A B : Type} (f : A -> M B) (l : list A) : M (list B) :=
  match l with
  | [] => ret []
  | a :: r => b <- f a ;; bs <- mapM f r ;; ret (b :: bs)
  end.

Fixpoint update_nth {A : Type} (n : nat) (x : A) (l : list A) : list A :=
  match l, n with
  | [], _ => []
  | _ :: r, O => x :: r
  | y :: r, S n' => y :: update_nth n' x r
  end.

Definition alloc (o : obj) : M loc :=
  fun h => Ok (Datatypes.length h) (h ++ [o]).

Definition read (l : loc) : M obj :=
  fun h =>
    match nth_error h l with
    | Some o => Ok o h
    | None => Raise SystemError
    end.

Definition write (l : loc) (o : obj) : M unit :=
  fun h => Ok tt (update_nth l o h).

(** [isinstance(v, Settings)], [isinstance(v, dict)] (true of a [Settings]
    too, a subclass) and [isinstance(v, list)]. *)
Definition is_node (v : value) : M bool :=
  match v with
  | VRef l => o <- read l ;;
              ret match o with ONode _ _ => true | _ => false end
  | _ => ret false
  end.

Definition is_dict (v : value) : M bool :=
  match v with
  | VRef l => o <- read l ;;
              ret match o with ONode _ _ | ODict _ => true | _ => false end
  | _ => ret false
  end.

Definition is_list (v : value) : M bool :=
  match v with
  | VRef l => o <- read l ;;
              ret match o with OList _ => true | _ => false end
  | _ => ret false
  end.

(** The receiver of a method call must be a [Settings] instance. *)
Definition node_items (self : loc) : M items_t :=
  o <- read self ;;
  match o with
  | ONode items _ => ret items
  | _ => raise AttributeError
  end.

(** [dict.__setitem__(self, k, v)] on a [Settings] instance. *)
Definition dict_set (self : loc) (k : key) (v : value) : M unit :=
  o <- read self ;;
  match o with
  | ONode items attrs => write self (ONode (assoc_set k v items) attrs)
  | _ => raise AttributeError
  end.

(** A method called on a value: the value must be an object. *)
Definition method {A : Type} (m : loc -> M A) (v : value) : M A :=
  match v with
  | VRef l => m l
  | _ => raise AttributeError
  end.

(** ** The methods of [Settings] *)

(** [Settings.__iter__]: [sorted(self.keys())], and on [TypeError]
    [sorted(self.keys(), key=str)]. *)
Definition __iter__ (self : loc) : M (list key) :=
  items <- node_items self ;;
  ret match sorted_lt (keys items) with
      | Some l => l
      | None => sorted_str (keys items)
      end.

(** [key.lower()] on the argument of [find_case]. *)
Definition name_lower (nm : name) : M string :=
  match nm with
  | NKey (KInt _) => raise AttributeError
  | NKey (KStr s) => ret (lower s)
  | NIg s => ret (lower s)
  end.

(** The loop of [Settings.find_case]: [k.lower()] is evaluated on every key
    that is visited. *)
Fixpoint find_case_loop (lowkey : string) (ks : list key) (nm : name)
  : M name :=
  match ks with
  | [] => ret nm
  | KInt _ :: _ => raise AttributeError
  | KStr s :: r =>
      if String.eqb (lower s) lowkey then ret (NKey (KStr s))
      else find_case_loop lowkey r nm
  end.

(** [Settings.find_case] *)
Definition find_case (self : loc) (nm : name) : M name :=
  lowkey <- name_lower nm ;;
  ks <- __iter__ self ;;
  find_case_loop lowkey ks nm.

(** The first two lines of every item method:
    [if isinstance(name, ig): name = self.find_case(name)]. *)
Definition resolve (self : loc) (nm : name) : M name :=
  if is_ig nm then find_case self nm else ret nm.

(** [Settings.__contains__] *)
Definition __contains__ (self : loc) (nm : name) : M bool :=
  nm' <- resolve self nm ;;
  items <- node_items self ;;
  ret (mem (key_of_name nm') items).

(** [dict.__init__(self, src)] reads the items of a mapping. *)
Definition mapping_items (v : value) : M items_t :=
  match v with
  | VRef l =>
      o <- read l ;;
      match o with
      | ONode items _ => ret items
      | ODict items => ret items
      | OList _ => raise TypeError
      end
  | _ => raise TypeError
  end.

(** [Settings.__setitem__], with the constructor call [Settings(value)] as a
    parameter. *)
Definition __setitem__with (ctor : value -> M loc)
    (self : loc) (nm : name) (v : value) : M unit :=
  nm' <- resolve self nm ;;
  d <- is_dict v ;;
  v' <- (if d then n <- ctor v ;; ret (VRef n) else ret v) ;;
  dict_set self (key_of_name nm') v'.

(** The call [Settings(src)] ([src = None] for [Settings()]): a new instance
    is created and [Settings.__init__] runs on it. *)
Fixpoint __init__ (fuel : nat) (src : option value) : M loc :=
  match fuel with
  | O => raise RecursionError
  | S f =>
      items <- match src with
               | None => ret []
               | Some v => mapping_items v
               end ;;
      self <- alloc (ONode items []) ;;
      forM items (fun kv =>
        let k := fst kv in
        let v := snd kv in
        d <- is_dict v ;;
        (if d then
           n <- __init__ f (Some v) ;;
           __setitem__with (fun w => __init__ f (Some w)) self (NKey k) (VRef n)
         else ret tt) ;;;
        l <- is_list v ;;
        (if l then
           elems <- method (fun l => o <- read l ;;
                              match o with
                              | OList es => ret es
                              | _ => raise TypeError
                              end) v ;;
           elems' <- mapM (fun i =>
                       di <- is_dict i ;;
                       if di then n <- __init__ f (Some i) ;; ret (VRef n)
                       else ret i) elems ;;
           nl <- alloc (OList elems') ;;
           __setitem__with (fun w => __init__ f (Some w)) self (NKey k) (VRef nl)
         else ret tt)) ;;;
      ret self
  end.

(** [Settings.__setitem__] *)
Definition __setitem__ (fuel : nat) : loc -> name -> value -> M unit :=
  __setitem__with (fun w => __init__ fuel (Some w)).

(** [Settings.__missing__], with the final [self[name]] as a parameter. *)
Definition __missing__with (getitem : loc -> name -> M value)
    (fuel : nat) (self : loc) (nm : name) : M value :=
  n <- __init__ fuel None ;;
  __setitem__ fuel self nm (VRef n) ;;;
  getitem self nm.

(** [Settings.__getitem__]; [dict.__getitem__] calls [__missing__] on an
    absent key. *)
Fixpoint __getitem__ (fuel : nat) (self : loc) (nm : name) : M value :=
  match fuel with
  | O => raise RecursionError
  | S f =>
      nm' <- resolve self nm ;;
      items <- node_items self ;;
      match lookup (key_of_name nm') items with
      | Some v => ret v
      | None => __missing__with (__getitem__ f) f self nm'
      end
  end.

(** [Settings.__missing__] *)
Definition __missing__ (fuel : nat) : loc -> name -> M value :=
  __missing__with (__getitem__ fuel) fuel.

(** [Settings.__delitem__] *)
Definition __delitem__ (self : loc) (nm : name) : M unit :=
  nm' <- resolve self nm ;;
  o <- read self ;;
  match o with
  | ONode items attrs =>
      if mem (key_of_name nm') items
      then write self (ONode (assoc_del (key_of_name nm') items) attrs)
      else raise KeyError
  | _ => raise AttributeError
  end.

(** ** Indexing and iteration as the interpreter dispatches them *)

(** Python's index normalisation: [-len <= z < len]. *)
Definition py_index (z : Z) (len : nat) : option nat :=
  if (0 <=? z) && (z <? Z.of_nat len) then Some (Z.to_nat z)
  else if (z <? 0) && (- Z.of_nat len <=? z) then Some (Z.to_nat (Z.of_nat len + z))
  else None.

(** The expression [s[i]] for an arbitrary value [s]. *)
Definition subscript (fuel : nat) (s : value) (i : name) : M value :=
  match s with
  | VRef l =>
      o <- read l ;;
      match o with
      | ONode _ _ => __getitem__ fuel l i
      | ODict items =>
          match lookup (key_of_name i) items with
          | Some v => ret v
          | None => raise KeyError
          end
      | OList elems =>
          match key_of_name i with
          | KInt z =>
              match py_index z (Datatypes.length elems) with
              | Some n =>
                  match nth_error elems n with
                  | Some v => ret v
                  | None => raise IndexError
                  end
              | None => raise IndexError
              end
          | KStr _ => raise TypeError
          end
      end
  | VStr t =>
      match key_of_name i with
      | KInt z =>
          match py_index z (String.length t) with
          | Some n =>
              match String.get n t with
              | Some c => ret (VStr (String c EmptyString))
              | None => raise IndexError
              end
          | None => raise IndexError
          end
      | KStr _ => raise TypeError
      end
  | VNone => raise TypeError
  | VInt _ => raise TypeError
  end.

(** The statement [s[i] = v] for an arbitrary value [s]. *)
Definition store_subscript (fuel : nat) (s : value) (i : name) (v : value)
  : M unit :=
  match s with
  | VRef l =>
      o <- read l ;;
      match o with
      | ONode _ _ => __setitem__ fuel l i v
      | ODict items => write l (ODict (assoc_set (key_of_name i) v items))
      | OList elems =>
          match key_of_name i with
          | KInt z =>
              match py_index z (Datatypes.length elems) with
              | Some n => write l (OList (update_nth n v elems))
              | None => raise IndexError
              end
          | KStr _ => raise TypeError
          end
      end
  | _ => raise TypeError
  end.

(** [for name in other], for [other] a [Settings] instance (its own
    [__iter__]) or a plain [dict] (insertion order). *)
Definition iterate (other : value) : M (list key) :=
  match other with
  | VRef l =>
      o <- read l ;;
      match o with
      | ONode _ _ => __iter__ l
      | ODict items => ret (keys items)
      | OList _ => raise TypeError
      end
  | _ => raise TypeError
  end.

(** The built-in [list.append]. *)
Definition list_append (lst : value) (v : value) : M unit :=
  method (fun l =>
    o <- read l ;;
    match o with
    | OList elems => write l (OList (elems ++ [v]))
    | _ => raise AttributeError
    end) lst.

(** ** Copying and merging *)

(** The body of the loop of [Settings.copy]; [rec] is the method [copy]
    itself, [r] the new instance [ret]. *)
Definition copy_step (rec : loc -> M loc) (f : nat) (self r : loc)
    (name : key) : M unit :=
  v <- __getitem__ f self (NKey name) ;;
  b <- is_node v ;;
  if b then
    v1 <- __getitem__ f self (NKey name) ;;
    c <- method rec v1 ;;
    __setitem__ f r (NKey name) (VRef c)
  else
    v1 <- __getitem__ f self (NKey name) ;;
    __setitem__ f r (NKey name) v1.

(** [Settings.copy] *)
Fixpoint copy (fuel : nat) (self : loc) : M loc :=
  match fuel with
  | O => raise RecursionError
  | S f =>
      r <- __init__ f None ;;
      names <- __iter__ self ;;
      forM names (copy_step (copy f) f self r) ;;;
      ret r
  end.

(** The body of the loop of [Settings.soft_update]; [rec] is the method
    [soft_update] itself. *)
Definition soft_update_step (rec : loc -> value -> M value) (f : nat)
    (self : loc) (other : value) (name : key) : M unit :=
  v <- subscript f other (NKey name) ;;
  b <- is_node v ;;
  if b then
    c <- __contains__ self (NKey name) ;;
    if negb c then
      v1 <- subscript f other (NKey name) ;;
      n <- method (copy f) v1 ;;
      __setitem__ f self (NKey name) (VRef n)
    else
      sv <- __getitem__ f self (NKey name) ;;
      bs <- is_node sv ;;
      if bs then
        sv1 <- __getitem__ f self (NKey name) ;;
        ov <- subscript f other (NKey name) ;;
        method (fun l => rec l ov) sv1 ;;;
        ret tt
      else ret tt
  else
    c <- __contains__ self (NKey name) ;;
    if negb c then
      v1 <- subscript f other (NKey name) ;;
      __setitem__ f self (NKey name) v1
    else ret tt.

(** [Settings.soft_update] *)
Fixpoint soft_update (fuel : nat) (self : loc) (other : value) : M value :=
  match fuel with
  | O => raise RecursionError
  | S f =>
      names <- iterate other ;;
      forM names (soft_update_step (soft_update f) f self other) ;;;
      ret (VRef self)
  end.

(** The body of the loop of [Settings.update]; [rec] is the method [update]
    itself. *)
Definition update_step (rec : loc -> value -> M unit) (f : nat)
    (self : loc) (other : value) (name : key) : M unit :=
  v <- subscript f other (NKey name) ;;
  b <- is_node v ;;
  if b then
    c <- __contains__ self (NKey name) ;;
    bs <- (if negb c then ret true
           else sv <- __getitem__ f self (NKey name) ;;
                b' <- is_node sv ;; ret (negb b')) ;;
    if bs then
      v1 <- subscript f other (NKey name) ;;
      n <- method (copy f) v1 ;;
      __setitem__ f self (NKey name) (VRef n)
    else
      sv1 <- __getitem__ f self (NKey name) ;;
      ov <- subscript f other (NKey name) ;;
      method (fun l => rec l ov) sv1
  else
    v1 <- subscript f other (NKey name) ;;
    __setitem__ f self (NKey name) v1.

(** [Settings.update] *)
Fixpoint update (fuel : nat) (self : loc) (other : value) : M unit :=
  match fuel with
  | O => raise RecursionError
  | S f =>
      names <- iterate other ;;
      forM names (update_step (update f) f self other)
  end.

(** [Settings.merge] *)
Definition merge (fuel : nat) (self : loc) (other : value) : M loc :=
  r <- copy fuel self ;;
  soft_update fuel r other ;;;
  ret r.

(** [Settings.get_nested] *)
Fixpoint get_nested_from (fuel : nat) (s : value) (key_tuple : list name)
  : M value :=
  match key_tuple with
  | [] => ret s
  | i :: r => s' <- subscript fuel s i ;; get_nested_from fuel s' r
  end.

Definition get_nested (fuel : nat) (self : loc) (key_tuple : list name)
  : M value :=
  get_nested_from fuel (VRef self) key_tuple.

(** [Settings.set_nested]; [key_tuple[-1]] of an empty tuple raises
    [IndexError], after the (empty) loop. *)
Definition set_nested (fuel : nat) (self : loc) (key_tuple : list name)
    (v : value) : M unit :=
  s <- get_nested_from fuel (VRef self) (removelast key_tuple) ;;
  match rev key_tuple with
  | [] => raise IndexError
  | k :: _ => store_subscript fuel s k v
  end.

(** ** Attribute access *)

(** [dict.__getattribute__], [dict.__setattr__] and [dict.__delattr__]: the
    ordinary attribute operations, on the instance's own attributes. *)
Definition dict_getattribute (self : loc) (a : string) : M value :=
  o <- read self ;;
  match o with
  | ONode _ attrs =>
      match attr_lookup a attrs with
      | Some v => ret v
      | None => raise AttributeError
      end
  | _ => raise AttributeError
  end.

Definition dict_setattr (self : loc) (a : string) (v : value) : M unit :=
  o <- read self ;;
  match o with
  | ONode items attrs => write self (ONode items (attr_set a v attrs))
  | _ => raise AttributeError
  end.

Definition dict_delattr (self : loc) (a : string) : M unit :=
  o <- read self ;;
  match o with
  | ONode items attrs =>
      match attr_lookup a attrs with
      | Some _ => write self (ONode items (attr_del a attrs))
      | None => raise AttributeError
      end
  | _ => raise AttributeError
  end.

(** [Settings.__getattr__] *)
Definition __getattr__ (fuel : nat) (self : loc) (a : string) : M value :=
  if is_dunder a then dict_getattribute self a
  else __getitem__ fuel self (NKey (KStr a)).

(** [Settings.__setattr__]: the first branch does not return. *)
Definition __setattr__ (fuel : nat) (self : loc) (a : string) (v : value)
  : M unit :=
  (if is_dunder a then dict_setattr self a v else ret tt) ;;;
  __setitem__ fuel self (NKey (KStr a)) v.

(** [Settings.__delattr__]: the first branch does not return. *)
Definition __delattr__ (self : loc) (a : string) : M unit :=
  (if is_dunder a then dict_delattr self a else ret tt) ;;;
  __delitem__ self (NKey (KStr a)).

(** ** Orders on keys used by the statements *)

(** The native order of keys of one type, and the order of string forms. *)
Definition key_le (a b : key) : Prop :=
  match a, b with
  | KStr s, KStr t => String.leb s t = true
  | KInt x, KInt y => x <= y
  | _, _ => False
  end.

Definition str_le (a b : key) : Prop := String.leb (str a) (str b) = true.

Definition is_str (k : key) : bool :=
  match k with KStr _ => true | KInt _ => false end.

Definition is_int (k : key) : bool :=
  match k with KInt _ => true | KStr _ => false end.

(** ** Relations between heaps used by the statements *)

(** [frame n h h']: going from [h] to [h'], objects were only added, and the
    objects at locations below [n] are exactly as they were. *)
Definition frame (n : nat) (h h' : heap) : Prop :=
  (Datatypes.length h <= Datatypes.length h')%nat /\
  forall l, (l < n)%nat -> nth_error h' l = nth_error h l.

(** [items_le m m']: every binding of [m] is a binding of [m']. *)
Definition items_le (m m' : items_t) : Prop :=
  forall k v, lookup k m = Some v -> lookup k m' = Some v.

(** [obj_le o o']: a node may have gained bindings for keys it did not have;
    any other object is unchanged. *)
Definition obj_le (o o' : obj) : Prop :=
  match o, o' with
  | ONode m a, ONode m' a' => a = a' /\ items_le m m'
  | _, _ => o = o'
  end.

(** [mono h h']: no existing binding of any node was rebound or removed. *)
Definition mono (h h' : heap) : Prop :=
  (Datatypes.length h <= Datatypes.length h')%nat /\
  forall l o, nth_error h l = Some o ->
              exists o', nth_error h' l = Some o' /\ obj_le o o'.

(** What the heap holds at a value. *)
Definition node_at (h : heap) (v : value) : Prop :=
  exists l items attrs, v = VRef l /\ nth_error h l = Some (ONode items attrs).

Definition dict_at (h : heap) (v : value) : Prop :=
  exists l items, v = VRef l /\ nth_error h l = Some (ODict items).

Definition list_at (h : heap) (v : value) : Prop :=
  exists l elems, v = VRef l /\ nth_error h l = Some (OList elems).

(** [isinstance(v, dict)] holds of [v] in the heap [h]. *)
Definition mapping_at (h : heap) (v : value) : Prop :=
  exists l o, v = VRef l /\ nth_error h l = Some o /\
              match o with OList _ => False | _ => True end.

(** The heap after the auto-vivification of key [k] of node [self]. *)
Definition vivified (h : heap) (self : loc) (items : items_t)
    (attrs : list (string * value)) (k : key) : heap :=
  update_nth self
    (ONode (assoc_set k (VRef (S (Datatypes.length h))) items) attrs)
    ((h ++ [ONode [] []]) ++ [ONode [] []]).

(** [leaf_at h v]: [v] is a scalar, or an object of [h] that is not a
    [Settings] instance. *)
Definition leaf_at (h : heap) (v : value) : Prop :=
  match v with
  | VRef l =>
      exists o, nth_error h l = Some o /\
                match o with ONode _ _ => False | _ => True end
  | _ => True
  end.

(** The bindings of the receiver while a plain mapping is soft-merged into
    it: the bindings it had, and for keys it did not have, the value of the
    mapping, wrapped in a new node when it is itself a mapping. *)
Definition soft_filled (h : heap) (sitems oitems : items_t) (g : heap)
    (gitems : items_t) : Prop :=
  forall k,
    match lookup k sitems with
    | Some w => lookup k gitems = Some w
    | None =>
        lookup k gitems = None \/
        exists v, lookup k oitems = Some v /\
          ((~ mapping_at h v /\ lookup k gitems = Some v) \/
           (mapping_at h v /\
            exists n nitems,
              lookup k gitems = Some (VRef n) /\
              (Datatypes.length h <= n)%nat /\
              nth_error g n = Some (ONode nitems [])))
    end.

(** [reach h a b]: the node [b] is reached from the node [a] by following
    entries whose values are nodes. *)
Inductive reach (h : heap) : loc -> loc -> Prop :=
| reach_refl (a : loc) : reach h a a
| reach_step (a c b : loc) (items : items_t) (attrs : list (string * value))
    (k : key) (citems : items_t) (cattrs : list (string * value)) :
    nth_error h a = Some (ONode items attrs) ->
    lookup k items = Some (VRef c) ->
    nth_error h c = Some (ONode citems cattrs) ->
    reach h c b ->
    reach h a b.

(** [object_at h v]: [v] is an object of [h] of any of the three kinds. *)
Definition object_at (h : heap) (v : value) : Prop :=
  mapping_at h v \/ list_at h v.

(** [fresh_obj bad h n o]: the object [o], created after the heap [h], holds
    no reference to an object of [h] below [n] that is [bad]: no entry of a
    node is [bad], no element of a list is a mapping, and [o] is not a plain
    [dict]. *)
Definition fresh_obj (bad : heap -> value -> Prop) (h : heap) (n : nat)
    (o : obj) : Prop :=
  match o with
  | ONode items _ =>
      forall k c, lookup k items = Some (VRef c) -> (c < n)%nat ->
                  ~ bad h (VRef c)
  | OList elems =>
      forall c, In (VRef c) elems -> (c < n)%nat -> ~ mapping_at h (VRef c)
  | ODict _ => False
  end.

(** [fresh_entries bad h n m g]: every object of [g] from location [m] on is
    [fresh_obj]. *)
Definition fresh_entries (bad : heap -> value -> Prop) (h : heap)
    (n m : nat) (g : heap) : Prop :=
  forall a o, (m <= a)%nat -> nth_error g a = Some o -> fresh_obj bad h n o.

(** The invariant kept while new objects are built on top of [h0]: nothing
    below [n] is written, and the objects from [m] on are fresh. *)
Definition building (bad : heap -> value -> Prop) (h0 : heap) (n m : nat)
    (g : heap) : Prop :=
  frame n h0 g /\ (n <= m)%nat /\ (m <= Datatypes.length g)%nat /\
  fresh_entries bad h0 n m g.

(** The entries of a node under construction that still hold a [bad] old
    object belong to the iterations that remain. *)
Definition pending (bad : heap -> value -> Prop) (h0 : heap) (n : nat)
    (gitems : items_t) (rest : items_t) : Prop :=
  forall k c, lookup k gitems = Some (VRef c) -> (c < n)%nat ->
              bad h0 (VRef c) -> In (k, VRef c) rest.

(** [allocated h v]: the value [v] does not point outside the heap [h]. *)
Definition allocated (h : heap) (v : value) : Prop :=
  match v with
  | VRef l => (l < Datatypes.length h)%nat
  | _ => True
  end.

(** [copied h g v w]: [w] is what [copy] (or [update]) leaves in the
    receiver for a value [v] of the source: [v] itself unless [v] is a
    mapping of [h], and then a node of [g] that did not exist in [h]. *)
Definition copied (h g : heap) (v w : value) : Prop :=
  (~ mapping_at h v /\ w = v) \/
  (mapping_at h v /\
   exists c nitems,
     w = VRef c /\ (Datatypes.length h <= c)%nat /\
     nth_error g c = Some (ONode nitems [])).

(** [converted h h' o]: the object [o] of [h'], created on top of [h], holds
    no plain mapping: a node holds references to new objects only, none of
    them a plain [dict]; no element of a list is a plain [dict], and an
    element that is a node is new; [o] itself is not a plain [dict]. *)
Definition converted (h h' : heap) (o : obj) : Prop :=
  match o with
  | ONode items _ =>
      forall k c, lookup k items = Some (VRef c) ->
                  (Datatypes.length h <= c)%nat /\ ~ dict_at h' (VRef c)
  | OList elems =>
      forall c, In (VRef c) elems ->
                ~ dict_at h' (VRef c) /\
                (node_at h' (VRef c) -> (Datatypes.length h <= c)%nat)
  | ODict _ => False
  end.

(** [obj_grow o o']: a node keeps its attributes and its keys (their values
    may change); any other object is unchanged. *)
Definition obj_grow (o o' : obj) : Prop :=
  match o, o' with
  | ONode m a, ONode m' a' =>
      a = a' /\ forall k, lookup k m <> None -> lookup k m' <> None
  | _, _ => o = o'
  end.

(** [grow h h']: objects were added, no key was removed from a node, and no
    object other than a node was changed. *)
Definition grow (h h' : heap) : Prop :=
  (Datatypes.length h <= Datatypes.length h')%nat /\
  forall l o, nth_error h l = Some o ->
              exists o', nth_error h' l = Some o' /\ obj_grow o o'.

(** [edges_kept g g']: an entry of a node of [g'] that refers to a node
    which existed in [g] is an entry that the same node had in [g]. *)
Definition edges_kept (g g' : heap) : Prop :=
  forall a items attrs k c,
    nth_error g' a = Some (ONode items attrs) ->
    lookup k items = Some (VRef c) ->
    node_at g (VRef c) ->
    exists items0 attrs0,
      nth_error g a = Some (ONode items0 attrs0) /\
      lookup k items0 = Some (VRef c).

(** [closed g X]: the set [X] of locations contains the nodes that the nodes
    of [X] refer to in [g]. *)
Definition closed (g : heap) (X : loc -> Prop) : Prop :=
  forall a items attrs k c,
    X a -> nth_error g a = Some (ONode items attrs) ->
    lookup k items = Some (VRef c) -> node_at g (VRef c) -> X c.

(** [present other name g]: when [other] is a node of [g], it has the key
    [name]. *)
Definition present (other : value) (name : key) (g : heap) : Prop :=
  match other with
  | VRef o =>
      forall items attrs, nth_error g o = Some (ONode items attrs) ->
                          lookup name items <> None
  | _ => True
  end.

(** [writes_within g g' l]: going from [g] to [g'], an object that existed in
    [g] was changed only if it belongs to every set of locations that
    contains [l] and is [closed] in [g]: only nodes reached from [l] are
    written. *)
Definition writes_within (g g' : heap) (l : loc) : Prop :=
  forall X : loc -> Prop,
    closed g X -> X l ->
    forall b, (b < Datatypes.length g)%nat -> ~ X b ->
              nth_error g' b = nth_error g b.

(** The items of a mapping object. *)
Definition items_of (o : obj) : option items_t :=
  match o with
  | ONode items _ => Some items
  | ODict items => Some items
  | OList _ => None
  end.

(** [new_node h g w]: [w] is a node of [g], without attributes, that did not
    exist in [h]. *)
Definition new_node (h g : heap) (w : value) : Prop :=
  exists c nitems,
    w = VRef c /\ (Datatypes.length h <= c)%nat /\
    nth_error g c = Some (ONode nitems []).

(** [node_child h sv]: the receiver holds a node of [h] under the key. *)
Definition node_child (h : heap) (sv : option value) : Prop :=
  exists l, sv = Some (VRef l) /\ node_at h (VRef l).

(** [updated h g sv v w]: [w] is what [update] leaves in the receiver under a
    key for which the receiver held [sv] and the other mapping holds [v]:
    the node the receiver had, when both are nodes (it is updated in place);
    a new node, when [v] is a node and the receiver had no node; and
    otherwise [v] itself, or a new node when [v] is a plain mapping. *)
Definition updated (h g : heap) (sv : option value) (v w : value) : Prop :=
  (node_at h v /\ node_child h sv /\ sv = Some w) \/
  (node_at h v /\ ~ node_child h sv /\ new_node h g w) \/
  (~ node_at h v /\ copied h g v w).

(** ** Conversion to plain dictionaries *)

(** [Settings.as_dict]; [self.items()] is read once, [d[k] = ...] is the
    item assignment of the plain [dict] [d]. *)
Fixpoint as_dict (fuel : nat) (self : loc) : M loc :=
  match fuel with
  | O => raise RecursionError
  | S f =>
      items <- node_items self ;;
      d <- alloc (ODict []) ;;
      forM items (fun kv =>
        let k := fst kv in
        let v := snd kv in
        b <- is_node v ;;
        if b then
          c <- method (as_dict f) v ;;
          store_subscript f (VRef d) (NKey k) (VRef c)
        else
          l <- is_list v ;;
          if l then
            elems <- method (fun l => o <- read l ;;
                               match o with
                               | OList es => ret es
                               | _ => raise TypeError
                               end) v ;;
            elems' <- mapM (fun i =>
                        bi <- is_node i ;;
                        if bi then c <- method (as_dict f) i ;; ret (VRef c)
                        else ret i) elems ;;
            nl <- alloc (OList elems') ;;
            store_subscript f (VRef d) (NKey k) (VRef nl)
          else store_subscript f (VRef d) (NKey k) v) ;;;
      ret d
  end.

(** ** The content of a value *)

(** The content of a value as a tree: what remains of it when the identity
    of the objects, and the difference between a [Settings] instance and a
    plain [dict], are forgotten.  Mappings keep the order of their items. *)
#[warnings="-register-all"] Inductive tree : Type :=
| TLeaf (v : value)
| TMap (items : list (key * tree))
| TList (elems : list tree).

Fixpoint all_some {A B : Type} (f : A -> option B) (l : list A)
  : option (list B) :=
  match l with
  | [] => Some []
  | a :: r =>
      match f a, all_some f r with
      | Some b, Some bs => Some (b :: bs)
      | _, _ => None
      end
  end.

Definition tree_entry (f : value -> option tree) (kv : key * value)
  : option (key * tree) :=
  match f (snd kv) with
  | Some t => Some (fst kv, t)
  | None => None
  end.

(** [tree_of n h v]: the content of [v] in the heap [h], when it is a tree of
    depth at most [n]; [None] for a deeper or cyclic structure, and for a
    reference that points outside the heap. *)
Fixpoint tree_of (n : nat) (h : heap) (v : value) : option tree :=
  match n with
  | O => None
  | S n' =>
      match v with
      | VRef l =>
          match nth_error h l with
          | Some (ONode items _) =>
              option_map TMap (all_some (tree_entry (tree_of n' h)) items)
          | Some (ODict items) =>
              option_map TMap (all_some (tree_entry (tree_of n' h)) items)
          | Some (OList elems) =>
              option_map TList (all_some (tree_of n' h) elems)
          | None => None
          end
      | _ => Some (TLeaf v)
      end
  end.

(** The values that an object holds. *)
Definition vals (o : obj) : list value :=
  match o with
  | ONode items _ => map snd items
  | ODict items => map snd items
  | OList elems => elems
  end.

(** [held h c]: some object of [h] holds a reference to the location [c]. *)
Definition held (h : heap) (c : loc) : Prop :=
  exists l o, nth_error h l = Some o /\ In (VRef c) (vals o).

(** [no_dangling h]: every reference held by an object of [h] points to an
    object of [h]. *)
Definition no_dangling (h : heap) : Prop :=
  Forall (fun o => Forall (allocated h) (vals o)) h.

(** [held_le h g]: the references held in [g] were held in [h] already, or
    point to objects created since. *)
Definition held_le (h g : heap) : Prop :=
  forall c, held g c ->
            held h c \/
            ((Datatypes.length h <= c)%nat /\ (c < Datatypes.length g)%nat).

(** [plain h o]: the object [o], created by [as_dict], is a plain [dict] or a
    list, and none of the values it holds is a [Settings] instance. *)
Definition plain (h : heap) (o : obj) : Prop :=
  match o with
  | ONode _ _ => False
  | _ => forall c, In (VRef c) (vals o) -> ~ node_at h (VRef c)
  end.

(** [known h g c]: the reference [c] was held in [h], or points to an object
    created between [h] and [g]. *)
Definition known (h g : heap) (c : loc) : Prop :=
  held h c \/ ((Datatypes.length h <= c)%nat /\ (c < Datatypes.length g)%nat).

(** [unique_keys h]: no mapping of [h] holds a key twice, as in every Python
    dictionary. *)
Definition unique_keys (h : heap) : Prop :=
  Forall (fun o => match o with
                   | ONode items _ => NoDup (keys items)
                   | ODict items => NoDup (keys items)
                   | OList _ => True
                   end) h.

(** The heaps of a running program. *)
Definition well_formed (h : heap) : Prop := no_dangling h /\ unique_keys h.

(** [plain_since h h']: going from [h] to [h'], no [Settings] instance was
    created, and every object that was created is [plain]. *)
Definition plain_since (h h' : heap) : Prop :=
  (forall c, node_at h' (VRef c) -> node_at h (VRef c)) /\
  (forall a o, (Datatypes.length h <= a)%nat -> nth_error h' a = Some o ->
               plain h' o).

(** * Basic facts *)

(** ** Keys and association lists *)

Lemma key_eqb_eq (a b : key) : key_eqb a b = true <-> a = b.
Proof.
  destruct a as [s|x], b as [t|y]; simpl; split; intros H;
    try discriminate; try congruence.
  - apply String.eqb_eq in H. now subst.
  - injection H as ->. apply String.eqb_refl.
  - apply Z.eqb_eq in H. now subst.
  - injection H as ->. apply Z.eqb_refl.
Qed.

Lemma key_eqb_refl (a : key) : key_eqb a a = true.
Proof. now apply key_eqb_eq. Qed.

Lemma key_eqb_neq (a b : key) : key_eqb a b = false <-> a <> b.
Proof.
  split; intros H.
  - intros ->. rewrite key_eqb_refl in H. discriminate.
  - destruct (key_eqb a b) eqn:E; [|reflexivity].
    apply key_eqb_eq in E. contradiction.
Qed.

Lemma key_eqb_sym (a b : key) : key_eqb a b = key_eqb b a.
Proof.
  destruct (key_eqb a b) eqn:E.
  - apply key_eqb_eq in E. subst. now rewrite key_eqb_refl.
  - apply key_eqb_neq in E. symmetry. apply key_eqb_neq. congruence.
Qed.

Lemma lookup_assoc_set_same (k : key) (v : value) (m : items_t) :
  lookup k (assoc_set k v m) = Some v.
Proof.
  induction m as [|[k' v'] r IH]; simpl.
  - now rewrite key_eqb_refl.
  - destruct (key_eqb k k') eqn:E; simpl; rewrite E; auto.
Qed.

Lemma lookup_assoc_set_other (k k0 : key) (v : value) (m : items_t) :
  k0 <> k -> lookup k0 (assoc_set k v m) = lookup k0 m.
Proof.
  intros Hne. induction m as [|[k' v'] r IH]; simpl.
  - apply key_eqb_neq in Hne. now rewrite Hne.
  - destruct (key_eqb k k') eqn:E; simpl.
    + apply key_eqb_eq in E. subst k'.
      apply key_eqb_neq in Hne. now rewrite Hne.
    + now rewrite IH.
Qed.

Lemma lookup_In_keys (k : key) (m : items_t) :
  In k (keys m) <-> lookup k m <> None.
Proof.
  induction m as [|[k' v'] r IH]; simpl.
  - split; [tauto | congruence].
  - destruct (key_eqb k k') eqn:E.
    + apply key_eqb_eq in E. subst. split; [congruence | auto].
    + apply key_eqb_neq in E. rewrite <- IH. split.
      * intros [H|H]; [congruence | exact H].
      * auto.
Qed.

Lemma mem_In_keys (k : key) (m : items_t) :
  mem k m = true <-> In k (keys m).
Proof.
  unfold mem. rewrite lookup_In_keys.
  destruct (lookup k m); split; congruence.
Qed.

(** ** The heap *)

Lemma length_update_nth {A : Type} (n : nat) (x : A) (l : list A) :
  Datatypes.length (update_nth n x l) = Datatypes.length l.
Proof.
  revert n. induction l as [|y r IH]; intros [|n]; simpl; auto.
Qed.

Lemma nth_error_update_nth_same {A : Type} (n : nat) (x : A) (l : list A) :
  (n < Datatypes.length l)%nat -> nth_error (update_nth n x l) n = Some x.
Proof.
  revert n. induction l as [|y r IH]; intros [|n] H; simpl in *;
    try lia; auto.
  apply IH. lia.
Qed.

Lemma nth_error_update_nth_other {A : Type} (n m : nat) (x : A) (l : list A) :
  m <> n -> nth_error (update_nth n x l) m = nth_error l m.
Proof.
  revert n m. induction l as [|y r IH]; intros [|n] [|m] H; simpl;
    try congruence; auto.
Qed.

Lemma nth_error_lt {A : Type} (l : list A) (n : nat) (x : A) :
  nth_error l n = Some x -> (n < Datatypes.length l)%nat.
Proof. intros H. apply nth_error_Some. congruence. Qed.

Lemma nth_error_snoc_old {A : Type} (l : list A) (x : A) (n : nat) :
  (n < Datatypes.length l)%nat -> nth_error (l ++ [x]) n = nth_error l n.
Proof. intros H. now apply nth_error_app1. Qed.

Lemma nth_error_snoc_new {A : Type} (l : list A) (x : A) :
  nth_error (l ++ [x]) (Datatypes.length l) = Some x.
Proof.
  rewrite nth_error_app2 by lia. now rewrite Nat.sub_diag.
Qed.

(** ** Inversion of monadic computations *)

Lemma bind_inv {A B : Type} (m : M A) (f : A -> M B) h b h' :
  bind m f h = Ok b h' ->
  exists a h1, m h = Ok a h1 /\ f a h1 = Ok b h'.
Proof.
  unfold bind. destruct (m h) as [a h1|e]; [|discriminate].
  intros H. now exists a, h1.
Qed.

Lemma ret_inv {A : Type} (a b : A) h h' :
  ret a h = Ok b h' -> a = b /\ h = h'.
Proof. unfold ret. intros H. now injection H. Qed.

Lemma read_inv l h o h' :
  read l h = Ok o h' -> h' = h /\ nth_error h l = Some o.
Proof.
  unfold read. destruct (nth_error h l); [|discriminate].
  intros H. injection H as -> ->. auto.
Qed.

Lemma alloc_inv o h l h' :
  alloc o h = Ok l h' -> l = Datatypes.length h /\ h' = (h ++ [o])%list.
Proof. unfold alloc. intros H. injection H as <- <-. auto. Qed.

Lemma write_inv l o h u h' :
  write l o h = Ok u h' -> h' = update_nth l o h.
Proof. unfold write. intros H. now injection H. Qed.

Lemma node_items_inv self h items h' :
  node_items self h = Ok items h' ->
  h' = h /\ exists attrs, nth_error h self = Some (ONode items attrs).
Proof.
  unfold node_items. intros H.
  apply bind_inv in H as (o & h1 & Hr & H).
  apply read_inv in Hr as [-> Hr].
  destruct o; try discriminate.
  apply ret_inv in H as [-> ->]. eauto.
Qed.

Lemma dict_set_inv self k v h u h' :
  dict_set self k v h = Ok u h' ->
  exists items attrs,
    nth_error h self = Some (ONode items attrs) /\
    h' = update_nth self (ONode (assoc_set k v items) attrs) h.
Proof.
  unfold dict_set. intros H.
  apply bind_inv in H as (o & h1 & Hr & H).
  apply read_inv in Hr as [-> Hr].
  destruct o; try discriminate.
  apply write_inv in H. eauto.
Qed.

Lemma is_node_inv v h b h' :
  is_node v h = Ok b h' ->
  h' = h /\
  (b = true <-> exists l items attrs,
      v = VRef l /\ nth_error h l = Some (ONode items attrs)).
Proof.
  destruct v; simpl; intros H;
    try (apply ret_inv in H as [<- <-]; split; auto; split;
         [discriminate | intros (? & ? & ? & ? & _); discriminate]).
  apply bind_inv in H as (o & h1 & Hr & H).
  apply read_inv in Hr as [-> Hr].
  apply ret_inv in H as [<- <-]. split; auto.
  destruct o; split; intros H; try discriminate; eauto;
    destruct H as (l' & it & at' & E & Hn); injection E as <-; congruence.
Qed.

Lemma is_dict_inv v h b h' :
  is_dict v h = Ok b h' ->
  h' = h /\
  (b = true <-> exists l o,
      v = VRef l /\ nth_error h l = Some o /\
      match o with OList _ => False | _ => True end).
Proof.
  destruct v; simpl; intros H;
    try (apply ret_inv in H as [<- <-]; split; auto; split;
         [discriminate | intros (? & ? & ? & _); discriminate]).
  apply bind_inv in H as (o & h1 & Hr & H).
  apply read_inv in Hr as [-> Hr].
  apply ret_inv in H as [<- <-]. split; auto.
  split.
  - intros Hb. exists l, o. repeat split; auto.
    destruct o; auto; discriminate.
  - intros (l' & o' & E & Hn & Ho). injection E as <-.
    rewrite Hr in Hn. injection Hn as <-.
    destruct o; auto; contradiction.
Qed.

Lemma is_list_inv v h b h' :
  is_list v h = Ok b h' ->
  h' = h /\
  (b = true <-> exists l es, v = VRef l /\ nth_error h l = Some (OList es)).
Proof.
  destruct v; simpl; intros H;
    try (apply ret_inv in H as [<- <-]; split; auto; split;
         [discriminate | intros (? & ? & ? & _); discriminate]).
  apply bind_inv in H as (o & h1 & Hr & H).
  apply read_inv in Hr as [-> Hr].
  apply ret_inv in H as [<- <-]. split; auto.
  destruct o; split; intros H; try discriminate; eauto;
    destruct H as (l' & es & E & Hn); injection E as <-; congruence.
Qed.

(** A loop preserves what each of its iterations preserves. *)
Lemma forM_invariant {A : Type} (I : heap -> Prop) (body : A -> M unit) :
  forall l : list A,
    (forall a h u h', In a l -> I h -> body a h = Ok u h' -> I h') ->
    forall h u h', I h -> forM l body h = Ok u h' -> I h'.
Proof.
  induction l as [|a r IH]; simpl; intros Hb h u h' Hi H.
  - apply ret_inv in H as [_ <-]. exact Hi.
  - apply bind_inv in H as (u1 & h1 & H1 & H2).
    apply (IH (fun a0 h0 u0 h0' Hin => Hb a0 h0 u0 h0' (or_intror Hin)))
      with (h := h1) (u := u); auto.
    apply (Hb a h u1 h1); auto.
Qed.

(** ** The order on strings and on keys *)

Lemma ascii_compare_refl (c : ascii) : Ascii.compare c c = Eq.
Proof. unfold Ascii.compare. apply N.compare_refl. Qed.

Lemma ascii_compare_lt_trans (a b c : ascii) :
  Ascii.compare a b = Lt -> Ascii.compare b c = Lt -> Ascii.compare a c = Lt.
Proof.
  unfold Ascii.compare. rewrite !N.compare_lt_iff. apply N.lt_trans.
Qed.

Lemma string_compare_lt_trans (s t u : string) :
  String.compare s t = Lt -> String.compare t u = Lt ->
  String.compare s u = Lt.
Proof.
  revert t u. induction s as [|a s IH]; intros [|b t] [|c u]; simpl;
    try discriminate; auto.
  destruct (Ascii.compare a b) eqn:Eab; try discriminate.
  - apply Ascii.compare_eq_iff in Eab. subst b.
    destruct (Ascii.compare a c) eqn:Eac; try discriminate; auto.
    intros. eapply IH; eauto.
  - intros _.
    destruct (Ascii.compare b c) eqn:Ebc; try discriminate.
    + apply Ascii.compare_eq_iff in Ebc. subst c. now rewrite Eab.
    + intros _. now rewrite (ascii_compare_lt_trans a b c).
Qed.

Lemma string_leb_ltb (s t : string) :
  String.leb s t = true <-> String.ltb t s = false.
Proof.
  unfold String.leb, String.ltb. rewrite (String.compare_antisym t s).
  destruct (String.compare s t); simpl; split; congruence.
Qed.

Lemma string_leb_trans (s t u : string) :
  String.leb s t = true -> String.leb t u = true -> String.leb s u = true.
Proof.
  unfold String.leb. intros Hst Htu.
  destruct (String.compare s t) eqn:Est; try discriminate.
  - apply String.compare_eq_iff in Est. now subst t.
  - destruct (String.compare t u) eqn:Etu; try discriminate.
    + apply String.compare_eq_iff in Etu. subst u. now rewrite Est.
    + now rewrite (string_compare_lt_trans s t u).
Qed.

Lemma string_ltb_irrefl (s : string) : String.ltb s s = false.
Proof.
  unfold String.ltb.
  assert (H : String.compare s s = Eq).
  { induction s as [|c s IH]; simpl; auto. now rewrite ascii_compare_refl. }
  now rewrite H.
Qed.

Lemma key_le_trans (a b c : key) : key_le a b -> key_le b c -> key_le a c.
Proof.
  destruct a, b, c; simpl; try tauto.
  - apply string_leb_trans.
  - lia.
Qed.

Lemma str_le_trans (a b c : key) : str_le a b -> str_le b c -> str_le a c.
Proof. unfold str_le. apply string_leb_trans. Qed.

Lemma key_lt_false_le (x y : key) : key_lt y x = Some false -> key_le x y.
Proof.
  destruct x, y; simpl; intros H; try discriminate; injection H as H.
  - now apply string_leb_ltb.
  - lia.
Qed.

Lemma key_lt_true_le (x y : key) : key_lt y x = Some true -> key_le y x.
Proof.
  destruct x, y; simpl; intros H; try discriminate; injection H as H.
  - unfold String.ltb in H. unfold String.leb.
    destruct (String.compare s0 s); congruence.
  - lia.
Qed.

(** ** Sorting *)

Lemma insert_lt_perm (x : key) (l l' : list key) :
  insert_lt x l = Some l' -> Permutation (x :: l) l'.
Proof.
  revert l'. induction l as [|y r IH]; simpl; intros l' H.
  - injection H as <-. apply Permutation_refl.
  - destruct (key_lt y x) as [[|]|]; try discriminate.
    + destruct (insert_lt x r) as [r'|]; try discriminate.
      injection H as <-.
      eapply perm_trans; [apply perm_swap|].
      apply perm_skip. now apply IH.
    + injection H as <-. apply Permutation_refl.
Qed.

Lemma sorted_lt_perm (l l' : list key) :
  sorted_lt l = Some l' -> Permutation l l'.
Proof.
  revert l'. induction l as [|x r IH]; simpl; intros l' H.
  - injection H as <-. constructor.
  - destruct (sorted_lt r) as [r'|]; try discriminate.
    eapply perm_trans; [apply perm_skip, IH; reflexivity|].
    now apply insert_lt_perm.
Qed.

Lemma insert_lt_sorted (x : key) (l l' : list key) :
  Sorted key_le l -> insert_lt x l = Some l' -> Sorted key_le l'.
Proof.
  revert l'. induction l as [|y r IH]; simpl; intros l' Hs H.
  - injection H as <-. repeat constructor.
  - destruct (key_lt y x) as [[|]|] eqn:E; try discriminate.
    + destruct (insert_lt x r) as [r'|] eqn:Er; try discriminate.
      injection H as <-.
      apply Sorted_inv in Hs as [Hs Hh].
      constructor; [now apply IH|].
      destruct r as [|z r]; simpl in Er.
      * injection Er as <-. constructor. now apply key_lt_true_le.
      * destruct (key_lt z x) as [[|]|]; try discriminate.
        -- destruct (insert_lt x r); try discriminate.
           injection Er as <-. constructor. now apply HdRel_inv in Hh.
        -- injection Er as <-. constructor. now apply key_lt_true_le.
    + injection H as <-.
      constructor; auto. constructor. now apply key_lt_false_le.
Qed.

Lemma sorted_lt_sorted (l l' : list key) :
  sorted_lt l = Some l' -> StronglySorted key_le l'.
Proof.
  intros H. apply Sorted_StronglySorted.
  - intros a b c. apply key_le_trans.
  - revert l' H. induction l as [|x r IH]; simpl; intros l' H.
    + injection H as <-. constructor.
    + destruct (sorted_lt r) as [r'|]; try discriminate.
      eapply insert_lt_sorted; [apply IH; reflexivity | exact H].
Qed.

Lemma insert_str_perm (x : key) (l : list key) :
  Permutation (x :: l) (insert_str x l).
Proof.
  induction l as [|y r IH]; simpl.
  - apply Permutation_refl.
  - destruct (String.ltb (str y) (str x)).
    + eapply perm_trans; [apply perm_swap|]. now apply perm_skip.
    + apply Permutation_refl.
Qed.

Lemma sorted_str_perm (l : list key) : Permutation l (sorted_str l).
Proof.
  induction l as [|x r IH]; simpl.
  - constructor.
  - eapply perm_trans; [apply perm_skip, IH|]. apply insert_str_perm.
Qed.

Lemma insert_str_sorted (x : key) (l : list key) :
  Sorted str_le l -> Sorted str_le (insert_str x l).
Proof.
  induction l as [|y r IH]; simpl; intros Hs.
  - repeat constructor.
  - destruct (String.ltb (str y) (str x)) eqn:E.
    + apply Sorted_inv in Hs as [Hs Hh].
      assert (Hyx : str_le y x).
      { unfold str_le, String.leb. unfold String.ltb in E.
        destruct (String.compare (str y) (str x)); congruence. }
      constructor; [now apply IH|].
      destruct r as [|z r]; simpl.
      * now constructor.
      * destruct (String.ltb (str z) (str x)).
        -- constructor. now apply HdRel_inv in Hh.
        -- now constructor.
    + constructor; auto. constructor. now apply string_leb_ltb.
Qed.

Lemma sorted_str_sorted (l : list key) : StronglySorted str_le (sorted_str l).
Proof.
  apply Sorted_StronglySorted.
  - intros a b c. apply str_le_trans.
  - induction l as [|x r IH]; simpl.
    + constructor.
    + now apply insert_str_sorted.
Qed.

(** The direct sort fails exactly when a string key meets an integer key. *)
Lemma insert_lt_None (x : key) (l : list key) :
  insert_lt x l = None -> exists y, In y l /\ is_str y <> is_str x.
Proof.
  induction l as [|y r IH]; simpl; intros H; try discriminate.
  destruct (key_lt y x) as [[|]|] eqn:E; try discriminate.
  - destruct (insert_lt x r); try discriminate.
    destruct (IH eq_refl) as (z & Hz & Hne). eauto.
  - exists y. split; auto. destruct x, y; simpl in *; congruence.
Qed.

Lemma sorted_lt_None (l : list key) :
  sorted_lt l = None ->
  exists a b, In a l /\ In b l /\ is_str a = true /\ is_int b = true.
Proof.
  induction l as [|x r IH]; simpl; intros H; try discriminate.
  destruct (sorted_lt r) as [r'|] eqn:E.
  - apply insert_lt_None in H as (y & Hy & Hne).
    assert (Hyr : In y r).
    { eapply Permutation_in; [apply Permutation_sym, sorted_lt_perm|];
        eauto. }
    destruct x, y; simpl in *; try congruence.
    + exists (KStr s), (KInt z). auto.
    + exists (KStr s), (KInt z). auto.
  - destruct (IH eq_refl) as (a & b & Ha & Hb & H1 & H2).
    exists a, b. auto.
Qed.

Lemma insert_lt_Some (x : key) (l : list key) :
  (forall y, In y l -> is_str y = is_str x) -> insert_lt x l <> None.
Proof.
  induction l as [|y r IH]; simpl; intros Hall; try discriminate.
  assert (Hy : is_str y = is_str x) by auto.
  destruct x, y; simpl in *; try discriminate.
  - destruct (String.ltb s0 s); try discriminate.
    destruct (insert_lt (KStr s) r) eqn:E; try discriminate.
    exfalso. apply IH; auto.
  - destruct (z0 <? z); try discriminate.
    destruct (insert_lt (KInt z) r) eqn:E; try discriminate.
    exfalso. apply IH; auto.
Qed.

Lemma sorted_lt_Some (l : list key) :
  (forall a b, In a l -> In b l -> is_str a = is_str b) ->
  sorted_lt l <> None.
Proof.
  induction l as [|x r IH]; simpl; intros Hall; try discriminate.
  destruct (sorted_lt r) as [r'|] eqn:E.
  - apply insert_lt_Some. intros y Hy. apply Hall; auto.
    right. eapply Permutation_in; [apply Permutation_sym, sorted_lt_perm|];
      eauto.
  - exfalso. apply IH; auto.
Qed.

Lemma key_le_str_le (l : list key) :
  (forall a, In a l -> is_str a = true) ->
  StronglySorted key_le l -> StronglySorted str_le l.
Proof.
  induction l as [|x r IH]; intros Hall Hs.
  - constructor.
  - apply StronglySorted_inv in Hs as [Hs Hx].
    constructor.
    + apply IH; auto. intros a Ha. apply Hall. now right.
    + rewrite Forall_forall in *. intros y Hy.
      specialize (Hx y Hy).
      assert (Hsx : is_str x = true) by (apply Hall; now left).
      assert (Hsy : is_str y = true) by (apply Hall; now right).
      destruct x, y; simpl in *; try discriminate. exact Hx.
Qed.

Lemma __iter___eq (h : heap) (self : loc) (items : items_t) attrs :
  nth_error h self = Some (ONode items attrs) ->
  __iter__ self h =
  Ok match sorted_lt (keys items) with
     | Some l => l
     | None => sorted_str (keys items)
     end h.
Proof.
  intros H. unfold __iter__, bind, node_items, bind, read. now rewrite H.
Qed.

Lemma key_le_same_type (a b : key) : key_le a b -> is_str a = is_str b.
Proof. destruct a, b; simpl; tauto. Qed.

Lemma sorted_same_type (l : list key) :
  StronglySorted key_le l ->
  forall a b, In a l -> In b l -> is_str a = is_str b.
Proof.
  induction 1 as [|x r Hs IH Hx]; intros a b Ha Hb.
  - destruct Ha.
  - rewrite Forall_forall in Hx.
    destruct Ha as [<-|Ha], Hb as [<-|Hb]; auto.
    + apply key_le_same_type. auto.
    + symmetry. apply key_le_same_type. auto.
Qed.

Lemma iteration_order_keys (h : heap) (self : loc) (items : items_t)
    (attrs : list (string * value)) :
  nth_error h self = Some (ONode items attrs) ->
  exists ks, __iter__ self h = Ok ks h /\ Permutation (keys items) ks.
Proof.
  intros Hn. rewrite (__iter___eq h self items attrs Hn).
  destruct (sorted_lt (keys items)) as [l|] eqn:E.
  - exists l. split; [reflexivity|]. now apply sorted_lt_perm.
  - exists (sorted_str (keys items)). split; [reflexivity|].
    apply sorted_str_perm.
Qed.

(** * Iteration order *)

(** C5, counterexample: a node whose keys are the integers 10 and 9 is
    iterated as 9, 10, the numeric order, while the string forms are in the
    order "10" < "9": the keys do not come in ascending order of their string
    form. *)
Lemma iteration_order_counterexample :
  __iter__ 0 [ONode [(KInt 10, VNone); (KInt 9, VNone)] []]
  = Ok [KInt 9; KInt 10] [ONode [(KInt 10, VNone); (KInt 9, VNone)] []]
  /\ ~ Sorted str_le [KInt 9; KInt 10].
Proof.
  split; [reflexivity|].
  intros H. apply Sorted_inv in H as [_ H]. apply HdRel_inv in H.
  vm_compute in H. discriminate.
Qed.

(** C5, amended: iterating a node never fails, leaves the store unchanged and
    yields every key exactly once.  Keys of one type come in their native
    ascending order (lexicographic for strings, numeric for integers); only
    when a string key meets an integer key are the keys ordered by string
    form.  In particular string keys come in lexicographic order of their
    string form, whatever the insertion order: keys inserted as "b", "A", "c"
    are iterated as "A", "b", "c". *)
Theorem iteration_order (h : heap) (self : loc) (items : items_t)
    (attrs : list (string * value)) :
  nth_error h self = Some (ONode items attrs) ->
  (exists ks,
    __iter__ self h = Ok ks h /\
    Permutation (keys items) ks /\
    ((forall a b, In a (keys items) -> In b (keys items) ->
                  is_str a = is_str b) ->
     StronglySorted key_le ks) /\
    ((forall a, In a (keys items) -> is_str a = true) ->
     StronglySorted str_le ks) /\
    ((exists a b, In a (keys items) /\ In b (keys items) /\
                  is_str a = true /\ is_int b = true) ->
     StronglySorted str_le ks))
  /\ __iter__ 0 [ONode [(KStr "b", VNone); (KStr "A", VNone);
                            (KStr "c", VNone)] []]
     = Ok [KStr "A"; KStr "b"; KStr "c"]
          [ONode [(KStr "b", VNone); (KStr "A", VNone); (KStr "c", VNone)] []].
Proof.
  intros Hn. split; [|reflexivity].
  rewrite (__iter___eq h self items attrs Hn).
  destruct (sorted_lt (keys items)) as [l|] eqn:E.
  - exists l. split; [reflexivity|]. split; [now apply sorted_lt_perm|].
    assert (Hs : StronglySorted key_le l) by (eapply sorted_lt_sorted; eauto).
    assert (Hp : forall a, In a (keys items) -> In a l).
    { intros a Ha. eapply Permutation_in; [apply sorted_lt_perm|]; eauto. }
    assert (Hq : forall a, In a l -> In a (keys items)).
    { intros a Ha.
      eapply Permutation_in; [apply Permutation_sym, sorted_lt_perm|];
        eauto. }
    split; [auto|]. split.
    + intros Hall. apply key_le_str_le; auto.
    + intros (a & b & Ha & Hb & Hsa & Hib). exfalso.
      assert (Hab : is_str a = is_str b).
      { apply (sorted_same_type l Hs); auto. }
      destruct a, b; simpl in *; discriminate.
  - exists (sorted_str (keys items)).
    split; [reflexivity|]. split; [apply sorted_str_perm|].
    split.
    + intros Hall. exfalso. now apply (sorted_lt_Some (keys items)).
    + split; intros _; apply sorted_str_sorted.
Qed.

(** C5, witness: the node with keys "b", "A", "c". *)
Lemma iteration_order_witness :
  exists ks,
    __iter__ 0 [ONode [(KStr "b", VNone); (KStr "A", VNone);
                          (KStr "c", VNone)] []]
    = Ok ks [ONode [(KStr "b", VNone); (KStr "A", VNone);
                    (KStr "c", VNone)] []]
    /\ StronglySorted str_le ks.
Proof.
  destruct (iteration_order
              [ONode [(KStr "b", VNone); (KStr "A", VNone);
                      (KStr "c", VNone)] []]
              0
              [(KStr "b", VNone); (KStr "A", VNone); (KStr "c", VNone)] []
              eq_refl) as [(ks & Hi & _ & _ & Hs & _) _].
  exists ks. split; [exact Hi|]. apply Hs.
  intros a [<-|[<-|[<-|[]]]]; reflexivity.
Defined.

(** * Case-insensitive key resolution *)

(** On string keys the loop of [find_case] is a search for the first key, in
    iteration order, with the requested lower-case form. *)
Lemma find_case_loop_strings (lowkey : string) (nm : name) (h : heap) :
  forall ks : list key,
    (forall k, In k ks -> is_str k = true) ->
    find_case_loop lowkey ks nm h =
    Ok match find (fun k => String.eqb (lower (str k)) lowkey) ks with
       | Some k => NKey k
       | None => nm
       end h.
Proof.
  induction ks as [|k r IH]; intros Hall; simpl.
  - reflexivity.
  - assert (Hk : is_str k = true) by (apply Hall; now left).
    destruct k as [s|z]; [|discriminate]. simpl.
    destruct (String.eqb (lower s) lowkey); [reflexivity|].
    apply IH. intros k Hin. apply Hall. now right.
Qed.

(** [find_case] on a store whose keys are all strings: it completes, leaves
    the store unchanged, and returns the first key of the iteration order
    whose lower-case form is that of the argument, or the argument itself. *)
Lemma find_case_strings (h : heap) (self : loc) (items : items_t)
    (attrs : list (string * value)) (nm : name) (s : string) :
  nth_error h self = Some (ONode items attrs) ->
  (forall k, In k (keys items) -> is_str k = true) ->
  nm = NKey (KStr s) \/ nm = NIg s ->
  exists ks,
    __iter__ self h = Ok ks h /\
    find_case self nm h =
    Ok match find (fun k => String.eqb (lower (str k)) (lower s)) ks with
       | Some k => NKey k
       | None => nm
       end h.
Proof.
  intros Hn Hall Hnm.
  destruct (iteration_order_keys h self items attrs Hn) as (ks & Hi & Hp).
  exists ks. split; [exact Hi|].
  unfold find_case, bind.
  assert (Hl : name_lower nm h = Ok (lower s) h)
    by (destruct Hnm as [-> | ->]; reflexivity).
  rewrite Hl, Hi.
  apply find_case_loop_strings.
  intros k Hk. apply Hall.
  eapply Permutation_in; [apply Permutation_sym|]; eauto.
Qed.

(** Looking up a case-insensitive key on a store whose keys are all strings
    returns the value stored under the key that [find_case] resolves to. *)
Lemma getitem_ig_strings (fuel : nat) (h : heap) (self : loc)
    (items : items_t) (attrs : list (string * value)) (s : string)
    (ks : list key) (k : key) (v : value) :
  nth_error h self = Some (ONode items attrs) ->
  (forall k', In k' (keys items) -> is_str k' = true) ->
  __iter__ self h = Ok ks h ->
  find (fun k' => String.eqb (lower (str k')) (lower s)) ks = Some k ->
  lookup k items = Some v ->
  find_case self (NKey (KStr s)) h = Ok (NKey k) h /\
  __getitem__ (S fuel) self (NIg s) h = Ok v h.
Proof.
  intros Hn Hall Hi Hf Hl.
  destruct (find_case_strings h self items attrs (NKey (KStr s)) s Hn Hall
              (or_introl eq_refl)) as (ks1 & Hi1 & Hfc1).
  destruct (find_case_strings h self items attrs (NIg s) s Hn Hall
              (or_intror eq_refl)) as (ks2 & Hi2 & Hfc2).
  rewrite Hi in Hi1, Hi2.
  injection Hi1 as <-. injection Hi2 as <-.
  rewrite Hf in Hfc1, Hfc2. split; [exact Hfc1|].
  cbn [__getitem__]. unfold bind at 1. unfold resolve. cbn [is_ig].
  rewrite Hfc2.
  unfold bind, node_items, bind, read. rewrite Hn. cbn [key_of_name].
  unfold ret at 1. now rewrite Hl.
Qed.

(** The scenario of the specification: the only key is "System". *)
Example find_case_System :
  let h := [ONode [(KStr "System", VInt 7)] []] in
  find_case 0 (NKey (KStr "system")) h = Ok (NKey (KStr "System")) h /\
  __getitem__ 1 0 (NIg "system") h = Ok (VInt 7) h.
Proof. split; reflexivity. Qed.

(** C9: [find_case] evaluates [k.lower()] on every key it visits, so on a
    store that also holds the integer key 1 the resolution of "system" does
    not return the existing key "System": it raises [AttributeError], and so
    does the lookup of the case-insensitive key. *)
Theorem find_case_non_string_key :
  let h := [ONode [(KStr "System", VInt 7); (KInt 1, VStr "one")] []] in
  __iter__ 0 h = Ok [KInt 1; KStr "System"] h /\
  find_case 0 (NKey (KStr "system")) h = Raise AttributeError /\
  __getitem__ 1 0 (NIg "system") h = Raise AttributeError.
Proof. repeat split; reflexivity. Qed.

(** C10: on the store [{1: 'a1'}] of the class's own documentation, every
    operation that resolves a case-insensitive key raises [AttributeError]
    instead of returning the key unchanged. *)
Theorem key_resolution_not_total :
  let h := [ONode [(KInt 1, VStr "a1")] []] in
  find_case 0 (NKey (KStr "x")) h = Raise AttributeError /\
  __contains__ 0 (NIg "x") h = Raise AttributeError /\
  __getitem__ 1 0 (NIg "x") h = Raise AttributeError /\
  __delitem__ 0 (NIg "x") h = Raise AttributeError /\
  __setitem__ 1 0 (NIg "x") VNone h = Raise AttributeError.
Proof. repeat split; reflexivity. Qed.

(** * Attribute access *)

(** For a name that is not of the double-underscore form, the attribute
    operations are the item operations on that key. *)
Lemma attribute_access_plain (fuel : nat) (self : loc) (a : string)
    (v : value) (h : heap) :
  is_dunder a = false ->
  __getattr__ fuel self a h = __getitem__ fuel self (NKey (KStr a)) h /\
  __setattr__ fuel self a v h = __setitem__ fuel self (NKey (KStr a)) v h /\
  __delattr__ self a h = __delitem__ self (NKey (KStr a)) h.
Proof.
  intros Hd. unfold __getattr__, __setattr__, __delattr__. rewrite Hd.
  repeat split; reflexivity.
Qed.

(** Reading a double-underscore attribute does not touch the store. *)
Lemma getattr_dunder (fuel : nat) (self : loc) (a : string) (h : heap)
    (v : value) (h' : heap) :
  is_dunder a = true ->
  __getattr__ fuel self a h = Ok v h' ->
  h' = h /\
  exists items attrs,
    nth_error h self = Some (ONode items attrs) /\
    attr_lookup a attrs = Some v.
Proof.
  intros Hd. unfold __getattr__. rewrite Hd. unfold dict_getattribute.
  intros H. apply bind_inv in H as (o & h1 & Hr & H).
  apply read_inv in Hr as [-> Hr].
  destruct o as [items attrs| |]; try discriminate.
  destruct (attr_lookup a attrs) eqn:E; try discriminate.
  apply ret_inv in H as [-> ->]. eauto.
Qed.

(** C7: [__setattr__] and [__delattr__] do not return after the ordinary
    attribute operation, so a double-underscore name reaches the store as
    well: setting the attribute [__foo__] on an empty node leaves the key
    "__foo__" in the mapping, and deleting it removes the key "__foo__" from
    the mapping (or raises [KeyError] when there is no such key). *)
Theorem dunder_set_delete_reach_store :
  is_dunder "__foo__" = true /\
  __setattr__ 1 0 "__foo__" (VInt 1) [ONode [] []]
  = Ok tt [ONode [(KStr "__foo__", VInt 1)] [("__foo__"%string, VInt 1)]] /\
  __delattr__ 0 "__foo__"
    [ONode [(KStr "__foo__", VInt 2)] [("__foo__"%string, VInt 1)]]
  = Ok tt [ONode [] []] /\
  __delattr__ 0 "__foo__" [ONode [] [("__foo__"%string, VInt 1)]]
  = Raise KeyError.
Proof. repeat split; reflexivity. Qed.

(** * Auto-vivification *)

Lemma bind_ok {A B : Type} (m : M A) (f : A -> M B) h a h1 :
  m h = Ok a h1 -> bind m f h = f a h1.
Proof. unfold bind. now intros ->. Qed.

Lemma read_ok (l : loc) (h : heap) (o : obj) :
  nth_error h l = Some o -> read l h = Ok o h.
Proof. unfold read. now intros ->. Qed.

Lemma node_items_ok (self : loc) (h : heap) items attrs :
  nth_error h self = Some (ONode items attrs) ->
  node_items self h = Ok items h.
Proof.
  intros H. unfold node_items. now rewrite (bind_ok _ _ _ _ _ (read_ok _ _ _ H)).
Qed.

Lemma dict_set_ok (self : loc) (k : key) (v : value) (h : heap) items attrs :
  nth_error h self = Some (ONode items attrs) ->
  dict_set self k v h
  = Ok tt (update_nth self (ONode (assoc_set k v items) attrs) h).
Proof.
  intros H. unfold dict_set. now rewrite (bind_ok _ _ _ _ _ (read_ok _ _ _ H)).
Qed.

Lemma init_empty (f : nat) (h : heap) :
  __init__ (S f) None h = Ok (Datatypes.length h) (h ++ [ONode [] []])%list.
Proof. reflexivity. Qed.

Lemma init_of_empty_node (f : nat) (h : heap) (n : loc) attrs :
  nth_error h n = Some (ONode [] attrs) ->
  __init__ (S f) (Some (VRef n)) h
  = Ok (Datatypes.length h) (h ++ [ONode [] []])%list.
Proof.
  intros H. simpl. unfold bind at 1. unfold bind at 1.
  rewrite (read_ok _ _ _ H). reflexivity.
Qed.

(** Reading an absent key: two empty nodes are created ([Settings()] and the
    copy that [__setitem__] makes of it), the second one is bound at the key
    and returned. *)
Lemma getitem_missing (f : nat) (h : heap) (self : loc) (items : items_t)
    (attrs : list (string * value)) (k : key) :
  nth_error h self = Some (ONode items attrs) ->
  lookup k items = None ->
  __getitem__ (S (S f)) self (NKey k) h
  = Ok (VRef (S (Datatypes.length h)))
       (update_nth self
          (ONode (assoc_set k (VRef (S (Datatypes.length h))) items) attrs)
          ((h ++ [ONode [] []]) ++ [ONode [] []]))%list.
Proof.
  intros Hn Hl.
  assert (Hlt : (self < Datatypes.length h)%nat) by (eapply nth_error_lt; eauto).
  cbn [__getitem__ resolve is_ig].
  rewrite (bind_ok _ _ _ (NKey k) h eq_refl).
  rewrite (bind_ok _ _ _ _ _ (node_items_ok _ _ _ _ Hn)).
  cbn [key_of_name]. rewrite Hl.
  unfold __missing__with.
  rewrite (bind_ok _ _ _ _ _ (init_empty f h)).
  set (h1 := (h ++ [ONode [] []])%list).
  assert (Hn1 : nth_error h1 self = Some (ONode items attrs)).
  { unfold h1. now rewrite nth_error_snoc_old. }
  assert (Hnew : nth_error h1 (Datatypes.length h) = Some (ONode [] [])).
  { unfold h1. apply nth_error_snoc_new. }
  assert (Hlen1 : Datatypes.length h1 = S (Datatypes.length h)).
  { unfold h1. rewrite length_app. simpl. lia. }
  set (h2 := (h1 ++ [ONode [] []])%list).
  assert (Hn2 : nth_error h2 self = Some (ONode items attrs)).
  { unfold h2. rewrite nth_error_snoc_old; auto. lia. }
  assert (Hset : __setitem__ (S f) self (NKey k)
                   (VRef (Datatypes.length h)) h1
                 = Ok tt (update_nth self
                            (ONode (assoc_set k (VRef (S (Datatypes.length h)))
                                      items) attrs) h2)).
  { unfold __setitem__, __setitem__with. cbn [resolve is_ig].
    rewrite (bind_ok _ _ _ (NKey k) h1 eq_refl).
    rewrite (bind_ok _ _ _ true h1).
    2:{ unfold is_dict. now rewrite (bind_ok _ _ _ _ _ (read_ok _ _ _ Hnew)). }
    rewrite (bind_ok _ _ _ (VRef (S (Datatypes.length h))) h2).
    2:{ rewrite (bind_ok _ _ _ _ _ (init_of_empty_node f h1 _ _ Hnew)).
        rewrite Hlen1. reflexivity. }
    cbn [key_of_name]. now apply dict_set_ok. }
  rewrite (bind_ok _ _ _ _ _ Hset).
  cbn [__getitem__ resolve is_ig].
  rewrite (bind_ok _ _ _ (NKey k) _ eq_refl).
  assert (Hn3 : nth_error
                  (update_nth self
                     (ONode (assoc_set k (VRef (S (Datatypes.length h)))
                               items) attrs) h2) self
                = Some (ONode (assoc_set k (VRef (S (Datatypes.length h)))
                                 items) attrs)).
  { apply nth_error_update_nth_same. unfold h2.
    rewrite length_app, Hlen1. simpl. lia. }
  rewrite (bind_ok _ _ _ _ _ (node_items_ok _ _ _ _ Hn3)).
  cbn [key_of_name]. rewrite lookup_assoc_set_same. reflexivity.
Qed.

(** C1: reading an absent key of a node creates a new empty node, binds it
    at that key (every other binding, the node's attributes and every other
    object stay as they are) and returns it.  On an empty store,
    [get('a')] returns an empty node bound at "a", [get('a').get('b')]
    returns an empty node bound at "b" inside it, and
    [set_nested(('a','b','c'), 5)] followed by
    [get_nested(('a','b','c'))] returns 5. *)
Theorem auto_vivification (f : nat) (h : heap) (self : loc)
    (items : items_t) (attrs : list (string * value)) (k : key) :
  nth_error h self = Some (ONode items attrs) ->
  lookup k items = None ->
  (exists r h' items',
      __getitem__ (S (S f)) self (NKey k) h = Ok (VRef r) h' /\
      nth_error h r = None /\
      nth_error h' r = Some (ONode [] []) /\
      nth_error h' self = Some (ONode items' attrs) /\
      lookup k items' = Some (VRef r) /\
      (forall k0, k0 <> k -> lookup k0 items' = lookup k0 items) /\
      (forall l, (l < Datatypes.length h)%nat -> l <> self ->
                 nth_error h' l = nth_error h l))
  /\ __getitem__ 2 0 (NKey (KStr "a")) [ONode [] []]
     = Ok (VRef 2)
          [ONode [(KStr "a", VRef 2)] []; ONode [] []; ONode [] []]
  /\ subscript 2 (VRef 2) (NKey (KStr "b"))
       [ONode [(KStr "a", VRef 2)] []; ONode [] []; ONode [] []]
     = Ok (VRef 4)
          [ONode [(KStr "a", VRef 2)] []; ONode [] [];
           ONode [(KStr "b", VRef 4)] []; ONode [] []; ONode [] []]
  /\ (set_nested 2 0
        [NKey (KStr "a"); NKey (KStr "b"); NKey (KStr "c")] (VInt 5) ;;;
      get_nested 2 0
        [NKey (KStr "a"); NKey (KStr "b"); NKey (KStr "c")])%py
       [ONode [] []]
     = Ok (VInt 5)
          [ONode [(KStr "a", VRef 2)] []; ONode [] [];
           ONode [(KStr "b", VRef 4)] []; ONode [] [];
           ONode [(KStr "c", VInt 5)] []].
Proof.
  intros Hn Hl. split; [|repeat split; reflexivity].
  assert (Hlt : (self < Datatypes.length h)%nat) by (eapply nth_error_lt; eauto).
  eexists _, _, _. split; [apply (getitem_missing f h self items attrs k Hn Hl)|].
  assert (Hlen : Datatypes.length ((h ++ [ONode [] []]) ++ [ONode [] []])%list
                 = S (S (Datatypes.length h))).
  { rewrite !length_app. simpl. lia. }
  split; [apply nth_error_None; lia|].
  split.
  { rewrite nth_error_update_nth_other by lia.
    replace (S (Datatypes.length h))
      with (Datatypes.length (h ++ [ONode [] []])%list)
      by (rewrite length_app; simpl; lia).
    apply nth_error_snoc_new. }
  split; [apply nth_error_update_nth_same; lia|].
  split; [apply lookup_assoc_set_same|].
  split; [intros k0 Hk0; now apply lookup_assoc_set_other|].
  intros l Hl1 Hl2.
  rewrite nth_error_update_nth_other by auto.
  rewrite nth_error_snoc_old by (rewrite length_app; simpl; lia).
  now rewrite nth_error_snoc_old.
Qed.

(** C1, witness: the empty store and the key "a". *)
Lemma auto_vivification_witness :
  exists r h' items',
    __getitem__ 2 0 (NKey (KStr "a")) [ONode [] []] = Ok (VRef r) h' /\
    nth_error [ONode [] []] r = None /\
    nth_error h' r = Some (ONode [] []) /\
    nth_error h' 0 = Some (ONode items' []) /\
    lookup (KStr "a") items' = Some (VRef r) /\
    (forall k0, k0 <> KStr "a" -> lookup k0 items' = lookup k0 []) /\
    (forall l, (l < 1)%nat -> l <> 0%nat ->
               nth_error h' l = nth_error [ONode [] []] l).
Proof.
  exact (proj1 (auto_vivification 0 [ONode [] []] 0 [] [] (KStr "a")
                  eq_refl eq_refl)).
Defined.

(** * Framing *)

Lemma frame_refl (n : nat) (h : heap) : frame n h h.
Proof. split; auto. Qed.

Lemma frame_trans (n : nat) (h1 h2 h3 : heap) :
  frame n h1 h2 -> frame n h2 h3 -> frame n h1 h3.
Proof.
  intros [L1 F1] [L2 F2]. split; [lia|].
  intros l Hl. rewrite F2, F1; auto.
Qed.

Lemma frame_weaken (n m : nat) (h h' : heap) :
  (m <= n)%nat -> frame n h h' -> frame m h h'.
Proof. intros Hmn [L F]. split; auto. intros l Hl. apply F. lia. Qed.

Lemma frame_alloc (h : heap) (o : obj) :
  frame (Datatypes.length h) h (h ++ [o]).
Proof.
  split; [rewrite length_app; lia|].
  intros l Hl. now apply nth_error_snoc_old.
Qed.

Lemma frame_write (n l : nat) (o : obj) (h : heap) :
  (n <= l)%nat -> frame n h (update_nth l o h).
Proof.
  intros Hnl. split; [rewrite length_update_nth; lia|].
  intros l' Hl'. apply nth_error_update_nth_other. lia.
Qed.

Lemma frame_nth (n : nat) (h h' : heap) (l : nat) (o : obj) :
  frame n h h' -> (l < n)%nat -> nth_error h l = Some o ->
  nth_error h' l = Some o.
Proof. intros [_ F] Hl Hn. now rewrite F. Qed.

Lemma items_le_refl (m : items_t) : items_le m m.
Proof. intros k v H. exact H. Qed.

Lemma obj_le_refl (o : obj) : obj_le o o.
Proof. destruct o; simpl; auto. split; auto. apply items_le_refl. Qed.

Lemma obj_le_trans (a b c : obj) : obj_le a b -> obj_le b c -> obj_le a c.
Proof.
  destruct a, b; simpl; intros Hab; try discriminate;
    try (injection Hab as <-; auto; fail).
  destruct c; simpl; intros Hbc; try discriminate.
  destruct Hab as [-> Hab], Hbc as [-> Hbc]. split; auto.
  intros k v H. auto.
Qed.

Lemma mono_refl (h : heap) : mono h h.
Proof.
  split; auto. intros l o H. exists o. split; auto. apply obj_le_refl.
Qed.

Lemma mono_trans (h1 h2 h3 : heap) : mono h1 h2 -> mono h2 h3 -> mono h1 h3.
Proof.
  intros [L1 M1] [L2 M2]. split; [lia|].
  intros l o H. destruct (M1 l o H) as (o1 & H1 & Ho1).
  destruct (M2 l o1 H1) as (o2 & H2 & Ho2).
  exists o2. split; auto. eapply obj_le_trans; eauto.
Qed.

Lemma frame_mono (h h' : heap) : frame (Datatypes.length h) h h' -> mono h h'.
Proof.
  intros [L F]. split; auto.
  intros l o H. exists o. split; [|apply obj_le_refl].
  rewrite F; auto. eapply nth_error_lt; eauto.
Qed.

Lemma items_le_assoc_set (k : key) (v : value) (m : items_t) :
  lookup k m = None -> items_le m (assoc_set k v m).
Proof.
  intros Hk k0 v0 H.
  rewrite lookup_assoc_set_other; auto. congruence.
Qed.

Lemma mono_bind_absent (h : heap) (self : loc) (items : items_t) attrs
    (k : key) (v : value) :
  nth_error h self = Some (ONode items attrs) ->
  lookup k items = None ->
  mono h (update_nth self (ONode (assoc_set k v items) attrs) h).
Proof.
  intros Hn Hk. split; [rewrite length_update_nth; lia|].
  intros l o H. destruct (Nat.eq_dec l self) as [->|Hne].
  - rewrite Hn in H. injection H as <-.
    exists (ONode (assoc_set k v items) attrs). split.
    + apply nth_error_update_nth_same. eapply nth_error_lt; eauto.
    + simpl. split; auto. now apply items_le_assoc_set.
  - exists o. split; [|apply obj_le_refl].
    now rewrite nth_error_update_nth_other.
Qed.

(** ** Key resolution only reads the receiver *)

Lemma find_case_loop_pure (lowkey : string) (nm : name) (ks : list key)
    (h : heap) (r : name) (h' : heap) :
  find_case_loop lowkey ks nm h = Ok r h' ->
  h' = h /\
  (r = nm \/ exists k, r = NKey k /\ In k ks) /\
  forall h2, find_case_loop lowkey ks nm h2 = Ok r h2.
Proof.
  induction ks as [|k ks IH]; simpl; intros H.
  - apply ret_inv in H as [<- <-]. auto.
  - destruct k as [s|z]; [|discriminate].
    destruct (String.eqb (lower s) lowkey).
    + apply ret_inv in H as [<- <-]. split; auto. split; eauto.
    + destruct (IH H) as (-> & Hr & Hext). split; auto. split; auto.
      destruct Hr as [->|(k & -> & Hin)]; eauto.
Qed.

Lemma name_lower_pure (nm : name) (h : heap) (s : string) (h' : heap) :
  name_lower nm h = Ok s h' ->
  h' = h /\ forall h2, name_lower nm h2 = Ok s h2.
Proof.
  destruct nm as [[t|z]|t]; simpl; intros H; try discriminate;
    apply ret_inv in H as [<- <-]; auto.
Qed.

Lemma __iter___pure (self : loc) (h : heap) (ks : list key) (h' : heap) :
  __iter__ self h = Ok ks h' ->
  h' = h /\
  (exists items attrs,
      nth_error h self = Some (ONode items attrs) /\
      Permutation (keys items) ks) /\
  forall h2, nth_error h2 self = nth_error h self ->
             __iter__ self h2 = Ok ks h2.
Proof.
  unfold __iter__. intros H.
  apply bind_inv in H as (items & h1 & Hi & H).
  apply node_items_inv in Hi as (-> & attrs & Hn).
  apply ret_inv in H as [<- <-]. split; auto. split.
  - exists items, attrs. split; auto.
    destruct (sorted_lt (keys items)) eqn:E.
    + now apply sorted_lt_perm.
    + apply sorted_str_perm.
  - intros h2 E. rewrite Hn in E.
    now rewrite (bind_ok _ _ _ _ _ (node_items_ok _ _ _ _ E)).
Qed.

Lemma find_case_pure (self : loc) (nm : name) (h : heap) (r : name)
    (h' : heap) :
  find_case self nm h = Ok r h' ->
  h' = h /\
  (r = nm \/
   exists k items attrs,
     r = NKey k /\ nth_error h self = Some (ONode items attrs) /\
     In k (keys items)) /\
  forall h2, nth_error h2 self = nth_error h self ->
             find_case self nm h2 = Ok r h2.
Proof.
  unfold find_case. intros H.
  apply bind_inv in H as (lowkey & h1 & Hl & H).
  apply name_lower_pure in Hl as (-> & Hl).
  apply bind_inv in H as (ks & h1 & Hi & H).
  apply __iter___pure in Hi as (-> & (items & attrs & Hn & Hp) & Hi).
  apply find_case_loop_pure in H as (-> & Hr & Hloop).
  split; auto. split.
  - destruct Hr as [->|(k & -> & Hin)]; auto.
    right. exists k, items, attrs. repeat split; auto.
    eapply Permutation_in; [apply Permutation_sym|]; eauto.
  - intros h2 E.
    rewrite (bind_ok _ _ _ _ _ (Hl h2)).
    rewrite (bind_ok _ _ _ _ _ (Hi h2 E)). apply Hloop.
Qed.

Lemma resolve_pure (self : loc) (nm : name) (h : heap) (r : name)
    (h' : heap) :
  resolve self nm h = Ok r h' ->
  h' = h /\
  (r = nm \/
   exists k items attrs,
     r = NKey k /\ nth_error h self = Some (ONode items attrs) /\
     In k (keys items)) /\
  forall h2, nth_error h2 self = nth_error h self ->
             resolve self nm h2 = Ok r h2.
Proof.
  unfold resolve. destruct (is_ig nm).
  - apply find_case_pure.
  - intros H. apply ret_inv in H as [<- <-]. auto.
Qed.

(** A name that resolution returned resolves to itself. *)
Lemma resolve_idem (self : loc) (nm r : name) (h : heap) (h' : heap) :
  resolve self nm h = Ok r h' ->
  resolve self r h = Ok r h.
Proof.
  intros H.
  destruct (resolve_pure _ _ _ _ _ H) as (-> & Hr & Hext).
  destruct Hr as [->|(k & items & attrs & -> & Hn & Hin)].
  - exact H.
  - reflexivity.
Qed.

Lemma mapM_invariant {A B : Type} (I : heap -> Prop) (f : A -> M B) :
  forall l : list A,
    (forall a h b h', In a l -> I h -> f a h = Ok b h' -> I h') ->
    forall h bs h', I h -> mapM f l h = Ok bs h' -> I h'.
Proof.
  induction l as [|a r IH]; simpl; intros Hb h bs h' Hi H.
  - apply ret_inv in H as [_ <-]. exact Hi.
  - apply bind_inv in H as (b & h1 & H1 & H).
    apply bind_inv in H as (bs1 & h2 & H2 & H).
    apply ret_inv in H as [_ <-].
    apply (IH (fun a0 h0 b0 h0' Hin => Hb a0 h0 b0 h0' (or_intror Hin)))
      with (h := h1) (bs := bs1); auto.
    apply (Hb a h b h1); auto.
Qed.

(** The steps of [__setitem__]. *)
Lemma setitem_with_inv (ctor : value -> M loc) (self : loc) (nm : name)
    (v : value) (h : heap) (u : unit) (h' : heap) :
  __setitem__with ctor self nm v h = Ok u h' ->
  exists nm' v' h1 items attrs,
    resolve self nm h = Ok nm' h /\
    ((~ mapping_at h v /\ v' = v /\ h1 = h) \/
     (mapping_at h v /\ exists n, ctor v h = Ok n h1 /\ v' = VRef n)) /\
    nth_error h1 self = Some (ONode items attrs) /\
    h' = update_nth self
           (ONode (assoc_set (key_of_name nm') v' items) attrs) h1.
Proof.
  unfold __setitem__with. intros H.
  apply bind_inv in H as (nm' & h0 & Hr & H).
  destruct (resolve_pure _ _ _ _ _ Hr) as (-> & _ & _).
  apply bind_inv in H as (d & h0 & Hd & H).
  apply is_dict_inv in Hd as (-> & Hd).
  apply bind_inv in H as (v' & h1 & Hv & H).
  apply dict_set_inv in H as (items & attrs & Hn & ->).
  exists nm', v', h1, items, attrs. split; auto. split; auto.
  destruct d.
  - right. split; [now apply Hd|].
    apply bind_inv in Hv as (n & h2 & Hc & Hv).
    apply ret_inv in Hv as [<- <-]. eauto.
  - left. apply ret_inv in Hv as [<- <-]. repeat split; auto.
    intros Hm. apply Hd in Hm. discriminate.
Qed.

Lemma setitem_with_frame (ctor : value -> M loc) (n : nat) (self : loc)
    (nm : name) (v : value) (h : heap) (u : unit) (h' : heap) :
  (forall w h0 r h1, ctor w h0 = Ok r h1 ->
                     frame (Datatypes.length h0) h0 h1) ->
  (n <= Datatypes.length h)%nat -> (n <= self)%nat ->
  __setitem__with ctor self nm v h = Ok u h' ->
  frame n h h'.
Proof.
  intros Hc Hn Hs H.
  apply setitem_with_inv in H
    as (nm' & v' & h1 & items & attrs & _ & Hv & _ & ->).
  apply frame_trans with h1.
  - destruct Hv as [(_ & _ & ->)|(_ & r & Hr & _)].
    + apply frame_refl.
    + eapply frame_weaken; [|eapply Hc; eauto]. exact Hn.
  - now apply frame_write.
Qed.

(** [Settings(src)] returns a new object and changes no existing one. *)
Lemma init_frame (f : nat) :
  forall (src : option value) (h : heap) (r : loc) (h' : heap),
    __init__ f src h = Ok r h' ->
    r = Datatypes.length h /\ frame (Datatypes.length h) h h'.
Proof.
  induction f as [|f IH]; intros src h r h' H; [discriminate|].
  cbn [__init__] in H.
  apply bind_inv in H as (items & h0 & Hsrc & H).
  assert (h0 = h) as ->.
  { destruct src as [v|].
    - unfold mapping_items in Hsrc. destruct v; try discriminate.
      apply bind_inv in Hsrc as (o & h2 & Hr & Hsrc).
      apply read_inv in Hr as [-> _].
      destruct o; try discriminate; now apply ret_inv in Hsrc as [_ <-].
    - now apply ret_inv in Hsrc as [_ <-]. }
  apply bind_inv in H as (self & h1 & Ha & H).
  apply alloc_inv in Ha as [-> ->].
  apply bind_inv in H as (u & h2 & Hloop & H).
  apply ret_inv in H as [<- <-]. split; auto.
  assert (Hctor : forall w h0 r0 h3,
             __init__ f (Some w) h0 = Ok r0 h3 ->
             frame (Datatypes.length h0) h0 h3).
  { intros w h0 r0 h3 Hw. now apply IH in Hw. }
  revert Hloop.
  apply (forM_invariant
           (fun h0 => frame (Datatypes.length h) h h0 /\
                      (Datatypes.length h < Datatypes.length h0)%nat)).
  - intros [k v] h0 u0 h3 _ [Hf Hlt] Hb. cbn [fst snd] in Hb.
    apply bind_inv in Hb as (d & h4 & Hd & Hb).
    apply is_dict_inv in Hd as (-> & _).
    apply bind_inv in Hb as (u1 & h4 & Hb1 & Hb).
    assert (H4 : frame (Datatypes.length h) h h4 /\
                 (Datatypes.length h < Datatypes.length h4)%nat).
    { destruct d.
      - apply bind_inv in Hb1 as (n & h5 & Hi & Hb1).
        apply IH in Hi as [-> Hi].
        apply (setitem_with_frame _ (Datatypes.length h)) in Hb1; auto.
        + split.
          * eapply frame_trans; [exact Hf|].
            eapply frame_trans; [|exact Hb1].
            eapply frame_weaken; [|exact Hi]. lia.
          * destruct Hi, Hb1. lia.
        + destruct Hi. lia.
      - apply ret_inv in Hb1 as [_ <-]. auto. }
    clear Hb1. destruct H4 as [Hf4 Hlt4].
    apply bind_inv in Hb as (l & h5 & Hl & Hb).
    apply is_list_inv in Hl as (-> & _).
    destruct l.
    + apply bind_inv in Hb as (elems & h5 & He & Hb).
      assert (h5 = h4) as ->.
      { destruct v; try discriminate. simpl in He.
        apply bind_inv in He as (o & h6 & Hr & He).
        apply read_inv in Hr as [-> _].
        destruct o; try discriminate. now apply ret_inv in He as [_ <-]. }
      apply bind_inv in Hb as (elems' & h5 & Hm & Hb).
      assert (H5 : frame (Datatypes.length h) h h5 /\
                   (Datatypes.length h < Datatypes.length h5)%nat).
      { revert Hm.
        apply (mapM_invariant
                 (fun h0 => frame (Datatypes.length h) h h0 /\
                            (Datatypes.length h < Datatypes.length h0)%nat));
          auto.
        intros i h6 b h7 _ [Hf6 Hlt6] Hi.
        apply bind_inv in Hi as (di & h8 & Hdi & Hi).
        apply is_dict_inv in Hdi as (-> & _).
        destruct di.
        - apply bind_inv in Hi as (n & h8 & Hi & Hr).
          apply ret_inv in Hr as [_ <-].
          apply IH in Hi as [_ Hi]. split.
          + eapply frame_trans; [exact Hf6|].
            eapply frame_weaken; [|exact Hi]. lia.
          + destruct Hi. lia.
        - apply ret_inv in Hi as [_ <-]. auto. }
      destruct H5 as [Hf5 Hlt5].
      apply bind_inv in Hb as (nl & h6 & Ha & Hb).
      apply alloc_inv in Ha as [-> ->].
      apply (setitem_with_frame _ (Datatypes.length h)) in Hb; auto.
      * split.
        -- eapply frame_trans; [exact Hf5|].
           eapply frame_trans; [|exact Hb].
           eapply frame_weaken; [|apply frame_alloc]. lia.
        -- destruct Hb. rewrite length_app in *. simpl in *. lia.
      * rewrite length_app. simpl. lia.
    + apply ret_inv in Hb as [_ <-]. auto.
  - split; [apply frame_alloc|]. rewrite length_app. simpl. lia.
Qed.

(** ** Reading an item *)

Lemma getitem_present (f : nat) (h : heap) (self : loc) (items : items_t)
    (attrs : list (string * value)) (k : key) (v : value) :
  nth_error h self = Some (ONode items attrs) ->
  lookup k items = Some v ->
  __getitem__ (S f) self (NKey k) h = Ok v h.
Proof.
  intros Hn Hl. cbn [__getitem__ resolve is_ig].
  rewrite (bind_ok _ _ _ (NKey k) h eq_refl).
  rewrite (bind_ok _ _ _ _ _ (node_items_ok _ _ _ _ Hn)).
  cbn [key_of_name]. now rewrite Hl.
Qed.

Lemma getitem_key_inv (f : nat) (self : loc) (k : key) (h : heap)
    (v : value) (h' : heap) :
  __getitem__ f self (NKey k) h = Ok v h' ->
  exists items attrs,
    nth_error h self = Some (ONode items attrs) /\
    ((lookup k items = Some v /\ h' = h) \/
     (lookup k items = None /\ v = VRef (S (Datatypes.length h)) /\
      h' = vivified h self items attrs k)).
Proof.
  intros H. destruct f as [|f]; [discriminate|].
  pose proof H as H0.
  cbn [__getitem__ resolve is_ig] in H.
  rewrite (bind_ok _ _ _ (NKey k) h eq_refl) in H.
  apply bind_inv in H as (items & h1 & Hi & H).
  apply node_items_inv in Hi as (-> & attrs & Hn).
  exists items, attrs. split; auto.
  cbn [key_of_name] in H.
  destruct (lookup k items) as [v0|] eqn:Hl.
  - apply ret_inv in H as [<- <-]. auto.
  - right. split; auto.
    destruct f as [|f]; [discriminate|].
    rewrite (getitem_missing f h self items attrs k Hn Hl) in H0.
    injection H0 as <- <-. auto.
Qed.

Lemma vivified_spec (h : heap) (self : loc) (items : items_t)
    (attrs : list (string * value)) (k : key) :
  nth_error h self = Some (ONode items attrs) ->
  lookup k items = None ->
  let h' := vivified h self items attrs k in
  Datatypes.length h' = S (S (Datatypes.length h)) /\
  nth_error h' self
  = Some (ONode (assoc_set k (VRef (S (Datatypes.length h))) items) attrs) /\
  nth_error h' (S (Datatypes.length h)) = Some (ONode [] []) /\
  nth_error h' (Datatypes.length h) = Some (ONode [] []) /\
  (forall l, (l < Datatypes.length h)%nat -> l <> self ->
             nth_error h' l = nth_error h l) /\
  mono h h'.
Proof.
  intros Hn Hl h'. unfold h', vivified.
  assert (Hlt : (self < Datatypes.length h)%nat) by (eapply nth_error_lt; eauto).
  assert (Hlen : Datatypes.length ((h ++ [ONode [] []]) ++ [ONode [] []])%list
                 = S (S (Datatypes.length h))).
  { rewrite !length_app. simpl. lia. }
  assert (Hold : forall l, (l < Datatypes.length h)%nat ->
             nth_error ((h ++ [ONode [] []]) ++ [ONode [] []])%list l
             = nth_error h l).
  { intros l Hl'.
    rewrite nth_error_snoc_old by (rewrite length_app; simpl; lia).
    now rewrite nth_error_snoc_old. }
  split; [now rewrite length_update_nth|].
  split; [apply nth_error_update_nth_same; lia|].
  split.
  { rewrite nth_error_update_nth_other by lia.
    replace (S (Datatypes.length h))
      with (Datatypes.length (h ++ [ONode [] []])%list)
      by (rewrite length_app; simpl; lia).
    apply nth_error_snoc_new. }
  split.
  { rewrite nth_error_update_nth_other by lia.
    rewrite nth_error_snoc_old by (rewrite length_app; simpl; lia).
    apply nth_error_snoc_new. }
  split.
  { intros l Hl1 Hl2. rewrite nth_error_update_nth_other by auto.
    now apply Hold. }
  apply mono_trans with ((h ++ [ONode [] []]) ++ [ONode [] []])%list.
  - apply frame_mono. split; [lia|]. intros l Hl'. now apply Hold.
  - apply mono_bind_absent; auto. now rewrite Hold.
Qed.

Lemma setitem_frame (f n : nat) (self : loc) (nm : name) (v : value)
    (h : heap) (u : unit) (h' : heap) :
  (n <= Datatypes.length h)%nat -> (n <= self)%nat ->
  __setitem__ f self nm v h = Ok u h' ->
  frame n h h'.
Proof.
  intros Hn Hs H. unfold __setitem__ in H.
  eapply setitem_with_frame; eauto.
  intros w h0 r h1 Hw. now apply init_frame in Hw.
Qed.

(** Reading a key that is present changes nothing. *)
Lemma getitem_key_present_inv (f : nat) (self : loc) (k : key) (h : heap)
    (v : value) (h' : heap) (items : items_t) attrs (v0 : value) :
  nth_error h self = Some (ONode items attrs) ->
  lookup k items = Some v0 ->
  __getitem__ f self (NKey k) h = Ok v h' ->
  v = v0 /\ h' = h.
Proof.
  intros Hn Hl H.
  apply getitem_key_inv in H as (items' & attrs' & Hn' & H).
  rewrite Hn in Hn'. injection Hn' as <- <-.
  destruct H as [[Hl' ->]|[Hl' _]]; [|congruence].
  split; congruence.
Qed.

Lemma init_empty_inv (f : nat) (h : heap) (r : loc) (h' : heap) :
  __init__ f None h = Ok r h' ->
  r = Datatypes.length h /\ h' = (h ++ [ONode [] []])%list.
Proof.
  destruct f as [|f]; [discriminate|].
  rewrite init_empty. intros H. injection H as <- <-. auto.
Qed.

(** ** [copy] changes no existing object *)

Lemma copy_frame (f : nat) :
  forall (self : loc) (h : heap) (r : loc) (h' : heap),
    copy f self h = Ok r h' ->
    r = Datatypes.length h /\ frame (Datatypes.length h) h h' /\
    (Datatypes.length h < Datatypes.length h')%nat.
Proof.
  induction f as [|f IH]; intros self h r h' H; [discriminate|].
  cbn [copy] in H.
  apply bind_inv in H as (r0 & h1 & Hi & H).
  apply init_empty_inv in Hi as [-> ->].
  apply bind_inv in H as (names & h2 & Hit & H).
  apply __iter___pure in Hit as (-> & (items & attrs & Hn1 & Hp) & _).
  apply bind_inv in H as (u & h2 & Hloop & H).
  apply ret_inv in H as [<- <-]. split; auto.
  assert (Hbase : frame (Datatypes.length h) h (h ++ [ONode [] []]) /\
                 (Datatypes.length h
                  < Datatypes.length (h ++ [ONode [] []])%list)%nat).
  { split; [apply frame_alloc|]. rewrite length_app. simpl. lia. }
  destruct (Nat.eq_dec self (Datatypes.length h)) as [->|Hne].
  { (* the receiver is the node just created: it has no key *)
    rewrite nth_error_snoc_new in Hn1. injection Hn1 as <- <-.
    apply Permutation_nil in Hp. subst names.
    simpl in Hloop. apply ret_inv in Hloop as [_ <-]. exact Hbase. }
  assert (Hself : (self < Datatypes.length h)%nat).
  { apply nth_error_lt in Hn1. rewrite length_app in Hn1. simpl in Hn1. lia. }
  rewrite nth_error_snoc_old in Hn1 by exact Hself.
  revert Hloop.
  apply (forM_invariant
           (fun h0 => frame (Datatypes.length h) h h0 /\
                      (Datatypes.length h < Datatypes.length h0)%nat));
    [|exact Hbase].
  intros name h0 u0 h3 Hin [Hf Hlt] Hb. unfold copy_step in Hb.
  assert (Hn0 : nth_error h0 self = Some (ONode items attrs))
    by (eapply frame_nth; eauto).
  assert (Hk : exists v0, lookup name items = Some v0).
  { assert (Hin' : In name (keys items))
      by (eapply Permutation_in; [apply Permutation_sym|]; eauto).
    apply lookup_In_keys in Hin'.
    destruct (lookup name items) as [v0|]; [eauto | congruence]. }
  destruct Hk as [v0 Hk].
  apply bind_inv in Hb as (v & h4 & Hg & Hb).
  destruct (getitem_key_present_inv _ _ _ _ _ _ _ _ _ Hn0 Hk Hg) as [-> ->]; clear Hg.
  apply bind_inv in Hb as (b & h4 & Hnode & Hb).
  apply is_node_inv in Hnode as (-> & _).
  destruct b.
  - apply bind_inv in Hb as (v1 & h4 & Hg & Hb).
    destruct (getitem_key_present_inv _ _ _ _ _ _ _ _ _ Hn0 Hk Hg) as [-> ->]; clear Hg.
    apply bind_inv in Hb as (c & h4 & Hc & Hb).
    destruct v0 as [| | |l]; try discriminate. cbn [method] in Hc.
    apply IH in Hc as (-> & Hfc & Hltc).
    apply (setitem_frame _ (Datatypes.length h)) in Hb; try lia.
    split.
    + eapply frame_trans; [exact Hf|].
      eapply frame_trans; [|exact Hb].
      eapply frame_weaken; [|exact Hfc]. lia.
    + destruct Hb. lia.
  - apply bind_inv in Hb as (v1 & h4 & Hg & Hb).
    destruct (getitem_key_present_inv _ _ _ _ _ _ _ _ _ Hn0 Hk Hg) as [-> ->]; clear Hg.
    apply (setitem_frame _ (Datatypes.length h)) in Hb; try lia.
    split.
    + eapply frame_trans; eauto.
    + destruct Hb. lia.
Qed.

(** * Operations that never rebind a key *)

(** [__setitem__] on a key that the node does not have. *)
Lemma setitem_absent_mono (f : nat) (self : loc) (nm : name) (v : value)
    (h : heap) (u : unit) (h' : heap) (items : items_t) attrs :
  nth_error h self = Some (ONode items attrs) ->
  resolve self nm h = Ok nm h ->
  lookup (key_of_name nm) items = None ->
  __setitem__ f self nm v h = Ok u h' ->
  mono h h'.
Proof.
  intros Hn Hres Hl H. unfold __setitem__ in H.
  apply setitem_with_inv in H
    as (nm' & v' & h1 & items1 & attrs1 & Hr & Hv & Hn1 & ->).
  rewrite Hres in Hr. injection Hr as <-.
  assert (Hf : frame (Datatypes.length h) h h1).
  { destruct Hv as [(_ & _ & ->)|(_ & r & Hr & _)].
    - apply frame_refl.
    - now apply init_frame in Hr. }
  assert (E : nth_error h1 self = Some (ONode items attrs)).
  { eapply frame_nth; eauto. eapply nth_error_lt; eauto. }
  rewrite E in Hn1. injection Hn1 as <- <-.
  apply mono_trans with h1; [now apply frame_mono|].
  now apply mono_bind_absent.
Qed.

Lemma getitem_mono (f : nat) :
  forall (self : loc) (nm : name) (h : heap) (v : value) (h' : heap),
    __getitem__ f self nm h = Ok v h' -> mono h h'.
Proof.
  induction f as [|f IH]; intros self nm h v h' H; [discriminate|].
  cbn [__getitem__] in H.
  apply bind_inv in H as (nm' & h0 & Hr & H).
  pose proof (resolve_idem _ _ _ _ _ Hr) as Hidem.
  destruct (resolve_pure _ _ _ _ _ Hr) as (-> & _ & _).
  pose proof (resolve_pure _ _ _ _ _ Hidem) as (_ & _ & Hext).
  apply bind_inv in H as (items & h0 & Hi & H).
  apply node_items_inv in Hi as (-> & attrs & Hn).
  destruct (lookup (key_of_name nm') items) as [v0|] eqn:Hl.
  - apply ret_inv in H as [_ <-]. apply mono_refl.
  - unfold __missing__with in H.
    apply bind_inv in H as (n & h1 & Hinit & H).
    apply init_empty_inv in Hinit as [-> ->].
    apply bind_inv in H as (u & h2 & Hset & H).
    assert (Hlt : (self < Datatypes.length h)%nat)
      by (eapply nth_error_lt; eauto).
    assert (Hn1 : nth_error (h ++ [ONode [] []]) self
                  = Some (ONode items attrs))
      by (now rewrite nth_error_snoc_old).
    apply mono_trans with (h ++ [ONode [] []])%list;
      [apply frame_mono, frame_alloc|].
    apply mono_trans with h2; [|eapply IH; eauto].
    eapply setitem_absent_mono; eauto.
    apply Hext. now rewrite Hn1.
Qed.

Lemma subscript_mono (f : nat) (s : value) (i : name) (h : heap)
    (v : value) (h' : heap) :
  subscript f s i h = Ok v h' -> mono h h'.
Proof.
  unfold subscript. intros H.
  destruct s as [| |t|l].
  - discriminate.
  - discriminate.
  - assert (h' = h) as ->; [|apply mono_refl].
    destruct (key_of_name i); try discriminate.
    destruct (py_index z (String.length t)); try discriminate.
    destruct (String.get n t); try discriminate.
    now apply ret_inv in H as [_ <-].
  - apply bind_inv in H as (o & h1 & Hr & H).
    apply read_inv in Hr as [-> Hr].
    destruct o as [items attrs|items|elems].
    + eapply getitem_mono; eauto.
    + destruct (lookup (key_of_name i) items); try discriminate.
      apply ret_inv in H as [_ <-]. apply mono_refl.
    + destruct (key_of_name i); try discriminate.
      destruct (py_index z (Datatypes.length elems)); try discriminate.
      destruct (nth_error elems n); try discriminate.
      apply ret_inv in H as [_ <-]. apply mono_refl.
Qed.

Lemma contains_inv (self : loc) (k : key) (h : heap) (b : bool) (h' : heap) :
  __contains__ self (NKey k) h = Ok b h' ->
  h' = h /\
  exists items attrs,
    nth_error h self = Some (ONode items attrs) /\ b = mem k items.
Proof.
  unfold __contains__. cbn [resolve is_ig]. intros H.
  rewrite (bind_ok _ _ _ (NKey k) h eq_refl) in H.
  apply bind_inv in H as (items & h1 & Hi & H).
  apply node_items_inv in Hi as (-> & attrs & Hn).
  apply ret_inv in H as [<- <-]. eauto.
Qed.

(** A successful read can be repeated: the second read changes nothing. *)
Lemma subscript_again (f : nat) (s : value) (k : key) (h : heap)
    (v : value) (h' : heap) :
  subscript f s (NKey k) h = Ok v h' ->
  subscript f s (NKey k) h' = Ok v h'.
Proof.
  unfold subscript. intros H.
  destruct s as [| |t|l]; try discriminate.
  - cbn [key_of_name] in *. destruct k; try discriminate.
    destruct (py_index z (String.length t)); try discriminate.
    destruct (String.get n t); try discriminate.
    now apply ret_inv in H as [<- <-].
  - apply bind_inv in H as (o & h1 & Hr & H).
    apply read_inv in Hr as [-> Hr].
    destruct o as [items attrs|items|elems].
    + destruct f as [|f]; [discriminate|].
      apply getitem_key_inv in H as (items' & attrs' & Hn & H).
      rewrite Hr in Hn. injection Hn as <- <-.
      destruct H as [[Hl ->]|(Hl & -> & ->)].
      * rewrite (bind_ok _ _ _ _ _ (read_ok _ _ _ Hr)).
        eapply getitem_present; eauto.
      * destruct (vivified_spec h l items attrs k Hr Hl)
          as (_ & Hn' & _).
        rewrite (bind_ok _ _ _ _ _ (read_ok _ _ _ Hn')).
        eapply getitem_present; eauto. apply lookup_assoc_set_same.
    + cbn [key_of_name] in *.
      destruct (lookup k items) eqn:E; try discriminate.
      apply ret_inv in H as [<- <-].
      rewrite (bind_ok _ _ _ _ _ (read_ok _ _ _ Hr)). now rewrite E.
    + cbn [key_of_name] in *. destruct k; try discriminate.
      destruct (py_index z (Datatypes.length elems)) eqn:E1; try discriminate.
      destruct (nth_error elems n) eqn:E2; try discriminate.
      apply ret_inv in H as [<- <-].
      rewrite (bind_ok _ _ _ _ _ (read_ok _ _ _ Hr)). now rewrite E1, E2.
Qed.

Lemma iterate_pure (other : value) (h : heap) (ks : list key) (h' : heap) :
  iterate other h = Ok ks h' -> h' = h.
Proof.
  unfold iterate. intros H. destruct other as [| | |l]; try discriminate.
  apply bind_inv in H as (o & h1 & Hr & H).
  apply read_inv in Hr as [-> Hr].
  destruct o; try discriminate.
  - now apply __iter___pure in H as (-> & _).
  - now apply ret_inv in H as [_ <-].
Qed.

Lemma mem_false_lookup (k : key) (m : items_t) :
  mem k m = false <-> lookup k m = None.
Proof. unfold mem. destruct (lookup k m); split; congruence. Qed.

Lemma setitem_key_post (f : nat) (self : loc) (k : key) (v : value)
    (h : heap) (u : unit) (h' : heap) :
  __setitem__ f self (NKey k) v h = Ok u h' ->
  exists items attrs v',
    nth_error h' self = Some (ONode items attrs) /\
    lookup k items = Some v' /\
    (~ mapping_at h v -> v' = v).
Proof.
  intros H. unfold __setitem__ in H.
  apply setitem_with_inv in H
    as (nm' & v' & h1 & items & attrs & Hr & Hv & Hn & ->).
  injection Hr as <-. cbn [key_of_name].
  exists (assoc_set k v' items), attrs, v'. split.
  - apply nth_error_update_nth_same. eapply nth_error_lt; eauto.
  - split; [apply lookup_assoc_set_same|].
    intros Hnm. destruct Hv as [(_ & -> & _)|(Hm & _)]; tauto.
Qed.

(** A key that is bound in a node stays bound, to the same value, along
    [mono]. *)
Lemma mono_lookup (h h' : heap) (l : loc) (items : items_t) attrs
    (k : key) (v : value) :
  mono h h' ->
  nth_error h l = Some (ONode items attrs) ->
  lookup k items = Some v ->
  exists items',
    nth_error h' l = Some (ONode items' attrs) /\ lookup k items' = Some v.
Proof.
  intros [_ Hm] Hn Hl. destruct (Hm l _ Hn) as (o' & Hn' & Hle).
  destruct o' as [items' attrs'| |]; simpl in Hle; try discriminate.
  destruct Hle as [<- Hle]. exists items'. split; auto.
Qed.

(** One iteration of [soft_update] never rebinds a key, and leaves the key
    it handles bound in the receiver. *)
Lemma soft_update_step_mono (rec : loc -> value -> M value) (f : nat)
    (self : loc) (other : value) (name : key) (g0 : heap) (u0 : unit)
    (g5 : heap) :
  (forall l ov h r h', rec l ov h = Ok r h' -> mono h h') ->
  soft_update_step rec f self other name g0 = Ok u0 g5 ->
  mono g0 g5 /\
  exists items attrs v,
    nth_error g5 self = Some (ONode items attrs) /\
    lookup name items = Some v.
Proof.
  intros IH Hb. unfold soft_update_step in Hb.
  apply bind_inv in Hb as (v & g1 & Hsub & Hb).
  pose proof (subscript_again _ _ _ _ _ _ Hsub) as Hagain.
  apply subscript_mono in Hsub.
  apply bind_inv in Hb as (b & g2 & Hnode & Hb).
  apply is_node_inv in Hnode as (-> & Hnode).
  assert (Hcases :
    forall c, __contains__ self (NKey name) g1 = Ok c g1 ->
      (c = true ->
       forall g, mono g1 g ->
         exists items attrs v0,
           nth_error g self = Some (ONode items attrs) /\
           lookup name items = Some v0) /\
      (c = false ->
       exists items attrs,
         nth_error g1 self = Some (ONode items attrs) /\
         lookup name items = None)).
  { intros c Hc.
    apply contains_inv in Hc as (_ & items & attrs & Hn & ->).
    split; intros Hmem.
    - intros g Hg. unfold mem in Hmem.
      destruct (lookup name items) as [v0|] eqn:Hl; [|discriminate].
      destruct (mono_lookup _ _ _ _ _ _ _ Hg Hn Hl) as (items' & Hn' & Hl').
      eauto.
    - apply mem_false_lookup in Hmem. eauto. }
  assert (Hgoal : mono g1 g5 /\
                  exists items attrs v0,
                    nth_error g5 self = Some (ONode items attrs) /\
                    lookup name items = Some v0);
    [|destruct Hgoal as [Hm Hq]; split; auto; eapply mono_trans; eauto].
  clear Hsub.
  destruct b.
  - apply bind_inv in Hb as (c & g2 & Hc & Hb).
    pose proof (contains_inv _ _ _ _ _ Hc) as (-> & _).
    destruct (Hcases c Hc) as [Ht Hfalse]. clear Hcases.
    destruct c; cbn [negb] in Hb.
    + assert (Hm : mono g1 g5); [|split; auto].
      apply bind_inv in Hb as (sv & g2 & Hg & Hb).
      apply getitem_mono in Hg.
      apply mono_trans with g2; auto.
      apply bind_inv in Hb as (bs & g3 & Hbs & Hb).
      apply is_node_inv in Hbs as (-> & _).
      destruct bs.
      * apply bind_inv in Hb as (sv1 & g3 & Hg1 & Hb).
        apply getitem_mono in Hg1.
        apply mono_trans with g3; auto.
        apply bind_inv in Hb as (ov & g4 & Ho & Hb).
        apply subscript_mono in Ho.
        apply mono_trans with g4; auto.
        apply bind_inv in Hb as (x & g6 & Hrec & Hb).
        apply ret_inv in Hb as [_ <-].
        destruct sv1 as [| | |l]; try discriminate. cbn [method] in Hrec.
        eapply IH; eauto.
      * apply ret_inv in Hb as [_ <-]. apply mono_refl.
    + destruct (Hfalse eq_refl) as (items & attrs & Hn & Hmem).
      apply bind_inv in Hb as (v1 & g2 & Hsub & Hb).
      rewrite Hagain in Hsub. injection Hsub as <- <-.
      apply bind_inv in Hb as (n & g2 & Hcopy & Hb).
      destruct v as [| | |l]; try discriminate. cbn [method] in Hcopy.
      apply copy_frame in Hcopy as (-> & Hf & _).
      assert (Hn2 : nth_error g2 self = Some (ONode items attrs)).
      { eapply frame_nth; eauto. eapply nth_error_lt; eauto. }
      split.
      * apply mono_trans with g2; [now apply frame_mono|].
        exact (setitem_absent_mono _ _ (NKey name) _ _ _ _ _ _
                 Hn2 eq_refl Hmem Hb).
      * apply setitem_key_post in Hb as (items' & attrs' & v' & H1 & H2 & _).
        eauto.
  - apply bind_inv in Hb as (c & g2 & Hc & Hb).
    pose proof (contains_inv _ _ _ _ _ Hc) as (-> & _).
    destruct (Hcases c Hc) as [Ht Hfalse]. clear Hcases.
    destruct c; cbn [negb] in Hb.
    + apply ret_inv in Hb as [_ <-]. split; [apply mono_refl|].
      apply Ht; auto. apply mono_refl.
    + destruct (Hfalse eq_refl) as (items & attrs & Hn & Hmem).
      apply bind_inv in Hb as (v1 & g2 & Hsub & Hb).
      rewrite Hagain in Hsub. injection Hsub as <- <-.
      split.
      * exact (setitem_absent_mono _ _ (NKey name) _ _ _ _ _ _
                 Hn eq_refl Hmem Hb).
      * apply setitem_key_post in Hb as (items' & attrs' & v' & H1 & H2 & _).
        eauto.
Qed.

(** [soft_update] returns its receiver and never rebinds a key of any node. *)
Lemma soft_update_mono (f : nat) :
  forall (self : loc) (other : value) (h : heap) (r : value) (h' : heap),
    soft_update f self other h = Ok r h' ->
    r = VRef self /\ mono h h'.
Proof.
  induction f as [|f IH]; intros self other h r h' H; [discriminate|].
  cbn [soft_update] in H.
  apply bind_inv in H as (names & h0 & Hit & H).
  apply iterate_pure in Hit as ->.
  apply bind_inv in H as (u & h1 & Hloop & H).
  apply ret_inv in H as [<- <-]. split; auto.
  revert Hloop.
  apply (forM_invariant (fun h0 => mono h h0)); [|apply mono_refl].
  intros name g0 u0 g5 _ Hm Hb.
  apply mono_trans with g0; auto.
  eapply soft_update_step_mono; [|exact Hb].
  intros l ov h2 r2 h3 Hrec. now apply IH in Hrec.
Qed.

(** What every iteration establishes, and later iterations preserve, holds
    of every element after the loop. *)
Lemma forM_all {A : Type} (R : heap -> heap -> Prop) (Q : A -> heap -> Prop)
    (body : A -> M unit) :
  (forall h, R h h) ->
  (forall h1 h2 h3, R h1 h2 -> R h2 h3 -> R h1 h3) ->
  (forall a h h', Q a h -> R h h' -> Q a h') ->
  forall l : list A,
    (forall a h u h', In a l -> body a h = Ok u h' -> R h h' /\ Q a h') ->
    forall h u h', forM l body h = Ok u h' ->
                   R h h' /\ forall a, In a l -> Q a h'.
Proof.
  intros Hrefl Htrans Hstable.
  induction l as [|a r IH]; simpl; intros Hb h u h' H.
  - apply ret_inv in H as [_ <-]. split; auto. intros a [].
  - apply bind_inv in H as (u1 & h1 & H1 & H2).
    destruct (Hb a h u1 h1 (or_introl eq_refl) H1) as [HR HQ].
    destruct (IH (fun a0 h0 u0 h0' Hin => Hb a0 h0 u0 h0' (or_intror Hin))
                 h1 u h' H2) as [HR' HQ'].
    split; [eapply Htrans; eauto|].
    intros b [<-|Hin]; [eapply Hstable; eauto | auto].
Qed.

(** * [soft_update] *)

(** After [soft_update], every key of [other] is a key of the receiver. *)
Lemma soft_update_binds (f : nat) (self : loc) (other : value)
    (h : heap) (r : value) (h' : heap) (names : list key) (k : key) :
  soft_update f self other h = Ok r h' ->
  iterate other h = Ok names h -> In k names ->
  exists items attrs v,
    nth_error h' self = Some (ONode items attrs) /\
    lookup k items = Some v.
Proof.
  intros H Hit Hin.
  destruct f as [|f]; [discriminate|].
  cbn [soft_update] in H.
  rewrite (bind_ok _ _ _ _ _ Hit) in H.
  apply bind_inv in H as (u & h1 & Hloop & H).
  apply ret_inv in H as [_ <-].
  eapply (forM_all mono
            (fun k g => exists items attrs v,
                 nth_error g self = Some (ONode items attrs) /\
                 lookup k items = Some v)) in Hloop.
  - destruct Hloop as [_ HQ]. now apply HQ.
  - apply mono_refl.
  - apply mono_trans.
  - intros a g g' (items & attrs & v & Hn & Hl) Hg.
    destruct (mono_lookup _ _ _ _ _ _ _ Hg Hn Hl) as (items' & Hn' & Hl').
    eauto.
  - intros a g u0 g' _ Hb.
    eapply soft_update_step_mono; [|exact Hb].
    intros l ov h2 r2 h3 Hrec. now apply soft_update_mono in Hrec.
Qed.



(** ** More on [__setitem__] and [__init__] *)

(** [__setitem__] on a receiver that exists. *)
Lemma setitem_with_node (ctor : value -> M loc) (self : loc) (nm : name)
    (v : value) (h : heap) (u : unit) (h' : heap) (items : items_t) attrs :
  (forall w h0 r h1, ctor w h0 = Ok r h1 ->
                     frame (Datatypes.length h0) h0 h1) ->
  nth_error h self = Some (ONode items attrs) ->
  __setitem__with ctor self nm v h = Ok u h' ->
  exists nm' v' h1,
    resolve self nm h = Ok nm' h /\
    frame (Datatypes.length h) h h1 /\
    ((~ mapping_at h v /\ v' = v /\ h1 = h) \/
     (mapping_at h v /\ exists n, ctor v h = Ok n h1 /\ v' = VRef n)) /\
    h' = update_nth self
           (ONode (assoc_set (key_of_name nm') v' items) attrs) h1 /\
    nth_error h' self
    = Some (ONode (assoc_set (key_of_name nm') v' items) attrs).
Proof.
  intros Hc Hn H.
  apply setitem_with_inv in H
    as (nm' & v' & h1 & items1 & attrs1 & Hr & Hv & Hn1 & ->).
  assert (Hf : frame (Datatypes.length h) h h1).
  { destruct Hv as [(_ & _ & ->)|(_ & r & Hr' & _)].
    - apply frame_refl.
    - eapply Hc; eauto. }
  assert (E : nth_error h1 self = Some (ONode items attrs)).
  { eapply frame_nth; eauto. eapply nth_error_lt; eauto. }
  rewrite E in Hn1. injection Hn1 as <- <-.
  exists nm', v', h1.
  split; [exact Hr|]. split; [exact Hf|]. split; [exact Hv|].
  split; [reflexivity|].
  apply nth_error_update_nth_same. eapply nth_error_lt; eauto.
Qed.

(** The object that [Settings(src)] returns is a node without attributes. *)
Lemma init_node (f : nat) (src : option value) (h : heap) (r : loc)
    (h' : heap) :
  __init__ f src h = Ok r h' ->
  exists items, nth_error h' (Datatypes.length h) = Some (ONode items []).
Proof.
  intros H. destruct f as [|f]; [discriminate|].
  cbn [__init__] in H.
  apply bind_inv in H as (items & h0 & Hsrc & H).
  assert (h0 = h) as ->.
  { destruct src as [v|].
    - unfold mapping_items in Hsrc. destruct v; try discriminate.
      apply bind_inv in Hsrc as (o & h2 & Hr & Hsrc).
      apply read_inv in Hr as [-> _].
      destruct o; try discriminate; now apply ret_inv in Hsrc as [_ <-].
    - now apply ret_inv in Hsrc as [_ <-]. }
  apply bind_inv in H as (self & h1 & Ha & H).
  apply alloc_inv in Ha as [-> ->].
  apply bind_inv in H as (u & h2 & Hloop & H).
  apply ret_inv in H as [_ <-].
  assert (Hctor : forall w h0 r0 h3,
             __init__ f (Some w) h0 = Ok r0 h3 ->
             frame (Datatypes.length h0) h0 h3).
  { intros w h0 r0 h3 Hw. now apply init_frame in Hw. }
  revert Hloop.
  apply (forM_invariant
           (fun g => exists its,
                nth_error g (Datatypes.length h) = Some (ONode its []))).
  - intros [k v] g u0 g3 _ [its Hself] Hb. cbn [fst snd] in Hb.
    apply bind_inv in Hb as (d & g4 & Hd & Hb).
    apply is_dict_inv in Hd as (-> & _).
    apply bind_inv in Hb as (u1 & g4 & Hb1 & Hb).
    assert (H4 : exists its4,
               nth_error g4 (Datatypes.length h) = Some (ONode its4 [])).
    { destruct d.
      - apply bind_inv in Hb1 as (n & g5 & Hi & Hb1).
        apply init_frame in Hi as [-> Hi].
        assert (Hs5 : nth_error g5 (Datatypes.length h) = Some (ONode its []))
          by (eapply frame_nth; eauto; eapply nth_error_lt; eauto).
        destruct (setitem_with_node _ _ _ _ _ _ _ _ _ Hctor Hs5 Hb1)
          as (nm' & v' & g6 & _ & _ & _ & _ & Hpost).
        eauto.
      - apply ret_inv in Hb1 as [_ <-]. eauto. }
    clear Hb1 Hself. destruct H4 as [its4 Hself].
    apply bind_inv in Hb as (l & g5 & Hl & Hb).
    apply is_list_inv in Hl as (-> & _).
    destruct l.
    + apply bind_inv in Hb as (elems & g5 & He & Hb).
      assert (g5 = g4) as ->.
      { destruct v; try discriminate. simpl in He.
        apply bind_inv in He as (o & g6 & Hr & He).
        apply read_inv in Hr as [-> _].
        destruct o; try discriminate. now apply ret_inv in He as [_ <-]. }
      apply bind_inv in Hb as (elems' & g5 & Hm & Hb).
      assert (H5 : nth_error g5 (Datatypes.length h) = Some (ONode its4 [])).
      { revert Hm.
        apply (mapM_invariant
                 (fun g => nth_error g (Datatypes.length h)
                           = Some (ONode its4 []))); auto.
        intros i g6 b g7 _ Hs6 Hi.
        apply bind_inv in Hi as (di & g8 & Hdi & Hi).
        apply is_dict_inv in Hdi as (-> & _).
        destruct di.
        - apply bind_inv in Hi as (n & g8 & Hi & Hr).
          apply ret_inv in Hr as [_ <-].
          apply init_frame in Hi as [_ Hi].
          eapply frame_nth; eauto. eapply nth_error_lt; eauto.
        - now apply ret_inv in Hi as [_ <-]. }
      apply bind_inv in Hb as (nl & g6 & Ha & Hb).
      apply alloc_inv in Ha as [-> ->].
      assert (H6 : nth_error (g5 ++ [OList elems']) (Datatypes.length h)
                   = Some (ONode its4 [])).
      { rewrite nth_error_snoc_old; auto. eapply nth_error_lt; eauto. }
      destruct (setitem_with_node _ _ _ _ _ _ _ _ _ Hctor H6 Hb)
        as (nm' & v' & g6 & _ & _ & _ & _ & Hpost).
      eauto.
    + apply ret_inv in Hb as [_ <-]. eauto.
  - exists items. apply nth_error_snoc_new.
Qed.

(** ** [soft_update] with a plain mapping *)

(** [__setitem__] with a plain key, on a receiver that exists: the value is
    stored as it is, unless it is a mapping, which is replaced by a new
    node. *)
Lemma setitem_key_inv (f : nat) (self : loc) (k : key) (v : value)
    (h : heap) (u : unit) (h' : heap) (items : items_t) attrs :
  nth_error h self = Some (ONode items attrs) ->
  __setitem__ f self (NKey k) v h = Ok u h' ->
  exists v' h1,
    frame (Datatypes.length h) h h1 /\
    h' = update_nth self (ONode (assoc_set k v' items) attrs) h1 /\
    nth_error h' self = Some (ONode (assoc_set k v' items) attrs) /\
    ((~ mapping_at h v /\ v' = v /\ h1 = h) \/
     (mapping_at h v /\ v' = VRef (Datatypes.length h) /\
      exists nitems,
        nth_error h1 (Datatypes.length h) = Some (ONode nitems []))).
Proof.
  intros Hn H. unfold __setitem__ in H.
  assert (Hctor : forall w h0 r0 h3,
             __init__ f (Some w) h0 = Ok r0 h3 ->
             frame (Datatypes.length h0) h0 h3).
  { intros w h0 r0 h3 Hw. now apply init_frame in Hw. }
  destruct (setitem_with_node _ _ _ _ _ _ _ _ _ Hctor Hn H)
    as (nm' & v' & h1 & Hr & Hf & Hv & -> & Hpost).
  injection Hr as <-. cbn [key_of_name] in *.
  exists v', h1. split; auto. split; auto. split; auto.
  destruct Hv as [Hv|(Hm & n & Hi & ->)]; [left; exact Hv|].
  right. split; auto.
  pose proof (init_node _ _ _ _ _ Hi) as Hnode.
  apply init_frame in Hi as [-> _]. auto.
Qed.

Lemma mapping_at_frame (n : nat) (h g : heap) (v : value) :
  frame n h g ->
  (forall l, v = VRef l -> (l < n)%nat) ->
  (mapping_at h v <-> mapping_at g v).
Proof.
  intros [_ Hf] Hv. unfold mapping_at. split.
  - intros (l & o & -> & Hn & Ho). exists l, o.
    rewrite Hf; auto.
  - intros (l & o & -> & Hn & Ho). exists l, o.
    rewrite <- Hf; auto.
Qed.

Lemma subscript_dict (f : nat) (o : loc) (k : key) (g : heap)
    (oitems : items_t) (v : value) :
  nth_error g o = Some (ODict oitems) ->
  lookup k oitems = Some v ->
  subscript f (VRef o) (NKey k) g = Ok v g.
Proof.
  intros Hn Hl. unfold subscript.
  rewrite (bind_ok _ _ _ _ _ (read_ok _ _ _ Hn)).
  cbn [key_of_name]. now rewrite Hl.
Qed.

Lemma is_node_false (v : value) (g : heap) :
  leaf_at g v -> is_node v g = Ok false g.
Proof.
  destruct v as [| | |l]; simpl; try reflexivity.
  intros (o & Hn & Ho).
  rewrite (bind_ok _ _ _ _ _ (read_ok _ _ _ Hn)).
  destruct o; [contradiction | reflexivity | reflexivity].
Qed.

Lemma contains_ok (self : loc) (k : key) (g : heap) (items : items_t) attrs :
  nth_error g self = Some (ONode items attrs) ->
  __contains__ self (NKey k) g = Ok (mem k items) g.
Proof.
  intros Hn. unfold __contains__. cbn [resolve is_ig].
  rewrite (bind_ok _ _ _ (NKey k) g eq_refl).
  now rewrite (bind_ok _ _ _ _ _ (node_items_ok _ _ _ _ Hn)).
Qed.


Lemma soft_update_step_plain (rec : loc -> value -> M value) (f : nat)
    (self o : loc) (h : heap) (sitems oitems : items_t) attrs
    (name : key) (g : heap) (u : unit) (g' : heap) :
  nth_error h self = Some (ONode sitems attrs) ->
  nth_error h o = Some (ODict oitems) ->
  (forall k v, lookup k oitems = Some v -> leaf_at h v) ->
  In name (keys oitems) ->
  ((Datatypes.length h <= Datatypes.length g)%nat /\
   (forall l, (l < Datatypes.length h)%nat -> l <> self ->
              nth_error g l = nth_error h l) /\
   exists gitems,
     nth_error g self = Some (ONode gitems attrs) /\
     soft_filled h sitems oitems g gitems) ->
  soft_update_step rec f self (VRef o) name g = Ok u g' ->
  (Datatypes.length h <= Datatypes.length g')%nat /\
  (forall l, (l < Datatypes.length h)%nat -> l <> self ->
             nth_error g' l = nth_error h l) /\
  exists gitems,
    nth_error g' self = Some (ONode gitems attrs) /\
    soft_filled h sitems oitems g' gitems.
Proof.
  intros Hs Ho Hleaf Hin (Hlen & Hfr & gitems & Hgs & Hfill) Hb.
  assert (Hself : (self < Datatypes.length h)%nat)
    by (eapply nth_error_lt; eauto).
  assert (Holt : (o < Datatypes.length h)%nat)
    by (eapply nth_error_lt; eauto).
  assert (Hos : o <> self) by (intros ->; congruence).
  assert (Hgo : nth_error g o = Some (ODict oitems))
    by (rewrite Hfr; auto).
  assert (Hv : exists v, lookup name oitems = Some v).
  { apply lookup_In_keys in Hin.
    destruct (lookup name oitems); [eauto | congruence]. }
  destruct Hv as [v Hv].
  assert (Hvh : forall l, v = VRef l ->
                  (l < Datatypes.length h)%nat /\ l <> self /\
                  nth_error g l = nth_error h l).
  { intros l ->. destruct (Hleaf _ _ Hv) as (ob & Hob & Hk).
    assert (l <> self).
    { intros ->. rewrite Hs in Hob. injection Hob as <-. contradiction. }
    pose proof (nth_error_lt _ _ _ Hob). auto. }
  assert (Hleafg : leaf_at g v).
  { pose proof (Hleaf _ _ Hv) as Hl. destruct v as [| | |l]; simpl; auto.
    destruct Hl as (ob & Hob & Hk). exists ob. split; auto.
    destruct (Hvh l eq_refl) as (_ & _ & E). now rewrite E. }
  assert (Hmap : mapping_at h v <-> mapping_at g v).
  { unfold mapping_at. split; intros (l & ob & -> & Hn & Hk);
      exists l, ob; destruct (Hvh l eq_refl) as (_ & _ & E);
      (split; [reflexivity|]); split; auto; congruence. }
  unfold soft_update_step in Hb.
  rewrite (bind_ok _ _ _ _ _ (subscript_dict f o name g oitems v Hgo Hv)) in Hb.
  rewrite (bind_ok _ _ _ _ _ (is_node_false v g Hleafg)) in Hb.
  rewrite (bind_ok _ _ _ _ _ (contains_ok self name g gitems attrs Hgs)) in Hb.
  destruct (mem name gitems) eqn:Hmem; cbn [negb] in Hb.
  - apply ret_inv in Hb as [_ <-]. eauto 10.
  - apply mem_false_lookup in Hmem.
    rewrite (bind_ok _ _ _ _ _ (subscript_dict f o name g oitems v Hgo Hv))
      in Hb.
    destruct (setitem_key_inv _ _ _ _ _ _ _ _ _ Hgs Hb)
      as (v' & g1 & Hf1 & -> & Hpost & Hcase).
    assert (Hlen1 : (Datatypes.length g <= Datatypes.length g1)%nat)
      by (destruct Hf1; auto).
    split; [rewrite length_update_nth; lia|].
    split.
    { intros l Hl Hne. rewrite nth_error_update_nth_other by auto.
      destruct Hf1 as [_ Hf1]. rewrite Hf1 by lia. auto. }
    eexists. split; [exact Hpost|].
    assert (Hnone : lookup name sitems = None).
    { specialize (Hfill name). destruct (lookup name sitems); congruence. }
    intros k. specialize (Hfill k).
    destruct (key_eqb k name) eqn:Ek.
    + apply key_eqb_eq in Ek. subst k. rewrite Hnone.
      right. exists v. split; auto.
      rewrite lookup_assoc_set_same.
      destruct Hcase as [(Hnm & -> & ->)|(Hm & -> & nitems & Hnn)].
      * left. split; [tauto | reflexivity].
      * right. split; [tauto|].
        exists (Datatypes.length g), nitems. split; auto. split; [lia|].
        rewrite nth_error_update_nth_other; [exact Hnn|].
        apply nth_error_lt in Hgs. lia.
    + apply key_eqb_neq in Ek.
      rewrite lookup_assoc_set_other by auto.
      destruct (lookup k sitems); auto.
      destruct Hfill as [Hnone'|(v0 & Hv0 & Hsp)]; [left; auto|].
      right. exists v0. split; auto.
      destruct Hsp as [Hsp|(Hm & n & nitems & H1 & H2 & H3)];
        [left; auto|].
      right. split; auto. exists n, nitems. split; auto. split; auto.
      assert (n <> self) by lia.
      rewrite nth_error_update_nth_other by auto.
      eapply frame_nth; eauto. eapply nth_error_lt; eauto.
Qed.




(** * New objects hold no old object *)

(** A loop whose invariant depends on the iterations that remain. *)
Lemma forM_suffix {A : Type} (J : list A -> heap -> Prop)
    (body : A -> M unit) :
  (forall a rest h u h', J (a :: rest) h -> body a h = Ok u h' -> J rest h') ->
  forall (l : list A) h u h', J l h -> forM l body h = Ok u h' -> J [] h'.
Proof.
  intros Hstep. induction l as [|a r IH]; simpl; intros h u h' Hj H.
  - apply ret_inv in H as [_ <-]. exact Hj.
  - apply bind_inv in H as (u1 & h1 & H1 & H2).
    eapply IH; [|exact H2]. eapply Hstep; eauto.
Qed.

(** A list comprehension: an invariant of the heap, and a property of every
    element that is produced. *)
Lemma mapM_forall {A B : Type} (I : heap -> Prop) (Q : B -> Prop)
    (f : A -> M B) :
  forall l : list A,
    (forall a h b h', In a l -> I h -> f a h = Ok b h' -> I h' /\ Q b) ->
    forall h bs h', I h -> mapM f l h = Ok bs h' -> I h' /\ Forall Q bs.
Proof.
  induction l as [|a r IH]; simpl; intros Hb h bs h' Hi H.
  - apply ret_inv in H as [<- <-]. auto.
  - apply bind_inv in H as (b & h1 & H1 & H).
    apply bind_inv in H as (bs1 & h2 & H2 & H).
    apply ret_inv in H as [<- <-].
    destruct (Hb a h b h1 (or_introl eq_refl) Hi H1) as [Hi1 Hq].
    destruct (IH (fun a0 h0 b0 h0' Hin => Hb a0 h0 b0 h0' (or_intror Hin))
                 h1 bs1 h2 Hi1 H2) as [Hi2 Hqs].
    auto.
Qed.

Lemma mapping_at_frame_below (n : nat) (h g : heap) (c : loc) :
  frame n h g -> (c < n)%nat ->
  (mapping_at h (VRef c) <-> mapping_at g (VRef c)).
Proof.
  intros Hf Hc. eapply mapping_at_frame; eauto.
  intros l E. injection E as <-. exact Hc.
Qed.

Lemma object_at_frame_below (n : nat) (h g : heap) (c : loc) :
  frame n h g -> (c < n)%nat ->
  object_at h (VRef c) -> object_at g (VRef c).
Proof.
  intros Hf Hc [Hm|(l & es & E & Hl)].
  - left. now apply (mapping_at_frame_below n h g c Hf Hc).
  - right. injection E as <-. exists c, es. split; auto.
    destruct Hf as [_ Hf]. now rewrite Hf.
Qed.

Lemma reach_fresh (h' : heap) (n : nat) :
  (forall a items attrs k c citems cattrs,
      (n <= a)%nat ->
      nth_error h' a = Some (ONode items attrs) ->
      lookup k items = Some (VRef c) ->
      nth_error h' c = Some (ONode citems cattrs) ->
      (n <= c)%nat) ->
  forall a b, reach h' a b -> (n <= a)%nat -> (n <= b)%nat.
Proof.
  intros Hcl a b Hr. induction Hr as [a|a c b items attrs k ci ca Hn Hl Hc _ IH];
    intros Ha; auto.
  apply IH. eapply Hcl; eauto.
Qed.

Lemma lookup_In (k : key) (v : value) (m : items_t) :
  lookup k m = Some v -> In (k, v) m.
Proof.
  induction m as [|[k' v'] r IH]; simpl; [discriminate|].
  destruct (key_eqb k k') eqn:E.
  - apply key_eqb_eq in E. subst. intros H. injection H as ->. now left.
  - intros H. right. auto.
Qed.

Section Fresh.

Variable bad : heap -> value -> Prop.

Lemma fresh_entries_extend (h : heap) (n m : nat) (g g1 : heap) :
  (m <= Datatypes.length g)%nat ->
  fresh_entries bad h n m g ->
  frame (Datatypes.length g) g g1 ->
  fresh_entries bad h n (Datatypes.length g) g1 ->
  fresh_entries bad h n m g1.
Proof.
  intros Hm Hg [_ Hf] Hnew a o Ha Hn.
  destruct (Nat.lt_ge_cases a (Datatypes.length g)) as [Hlt|Hge].
  - rewrite Hf in Hn by exact Hlt. eapply Hg; eauto.
  - eapply Hnew; eauto.
Qed.

Lemma fresh_entries_none (h : heap) (n : nat) (g : heap) :
  fresh_entries bad h n (Datatypes.length g) g.
Proof.
  intros a o Ha Hn. apply nth_error_lt in Hn. lia.
Qed.

(** Writing a node at a location between [n] and [m] keeps the invariant. *)
Lemma building_update (h0 : heap) (n m : nat) (g : heap) (self : loc)
    (o : obj) :
  (n <= self)%nat -> (self < m)%nat ->
  building bad h0 n m g -> building bad h0 n m (update_nth self o g).
Proof.
  intros Hn Hm (Hf & Hnm & Hlen & Hfe).
  split; [eapply frame_trans; [exact Hf | now apply frame_write]|].
  split; [exact Hnm|].
  split; [now rewrite length_update_nth|].
  intros a o' Ha Hna. apply (Hfe a o' Ha).
  rewrite nth_error_update_nth_other in Hna by lia. exact Hna.
Qed.

(** Allocating an object that is fresh keeps the invariant. *)
Lemma building_alloc (h0 : heap) (n m : nat) (g : heap) (o : obj) :
  fresh_obj bad h0 n o ->
  building bad h0 n m g -> building bad h0 n m (g ++ [o]).
Proof.
  intros Ho (Hf & Hnm & Hlen & Hfe).
  split.
  { eapply frame_trans; [exact Hf|].
    eapply frame_weaken; [|apply frame_alloc]. destruct Hf. lia. }
  split; [exact Hnm|].
  split; [rewrite length_app; simpl; lia|].
  intros a o' Ha Hna.
  destruct (Nat.lt_ge_cases a (Datatypes.length g)) as [Hlt|Hge].
  - rewrite nth_error_snoc_old in Hna by exact Hlt. eapply Hfe; eauto.
  - destruct (Nat.eq_dec a (Datatypes.length g)) as [->|Hne].
    + rewrite nth_error_snoc_new in Hna. injection Hna as <-. exact Ho.
    + assert (Hnone : nth_error (g ++ [o]) a = None).
      { apply nth_error_None. rewrite length_app. simpl. lia. }
      congruence.
Qed.

(** A computation that only adds objects, all of them fresh, keeps the
    invariant. *)
Lemma building_call (h0 : heap) (n m : nat) (g g1 : heap) :
  building bad h0 n m g ->
  frame (Datatypes.length g) g g1 ->
  fresh_entries bad h0 n (Datatypes.length g) g1 ->
  building bad h0 n m g1.
Proof.
  intros (Hf & Hnm & Hlen & Hfe) Hf1 Hfe1.
  split.
  { eapply frame_trans; [exact Hf|].
    eapply frame_weaken; [|exact Hf1]. destruct Hf. lia. }
  split; [exact Hnm|].
  split; [destruct Hf1; lia|].
  eapply fresh_entries_extend; eauto.
Qed.

(** Storing a value in a node that is being built: the value is stored as
    it is unless it is a mapping, which a new node replaces. *)
Lemma building_setitem_value (h0 : heap) (n : nat) (ctor : value -> M loc)
    (self : loc) (k : key) (v : value) (g : heap) (u : unit) (g' : heap)
    (gitems : items_t) attrs :
  (forall w g0 r g1, frame n h0 g0 -> ctor w g0 = Ok r g1 ->
     r = Datatypes.length g0 /\ frame (Datatypes.length g0) g0 g1 /\
     fresh_entries bad h0 n (Datatypes.length g0) g1) ->
  (n <= self)%nat ->
  building bad h0 n (S self) g ->
  nth_error g self = Some (ONode gitems attrs) ->
  __setitem__with ctor self (NKey k) v g = Ok u g' ->
  building bad h0 n (S self) g' /\
  frame self g g' /\
  exists v',
    nth_error g' self = Some (ONode (assoc_set k v' gitems) attrs) /\
    ((v' = v /\ ~ mapping_at g v) \/
     (exists c', v' = VRef c' /\ (Datatypes.length g <= c')%nat)).
Proof.
  intros Hctor Hns Hb Hself H.
  assert (Hfg : frame n h0 g) by (destruct Hb; auto).
  assert (Hlt : (self < Datatypes.length g)%nat)
    by (eapply nth_error_lt; eauto).
  apply setitem_with_inv in H
    as (nm' & v' & g1 & items1 & attrs1 & Hr & Hv & Hn1 & ->).
  injection Hr as <-. cbn [key_of_name].
  destruct Hv as [(Hnm & -> & ->)|(_ & r & Hc & ->)].
  - rewrite Hself in Hn1. injection Hn1 as <- <-.
    split; [apply building_update; auto|].
    split; [apply frame_write; lia|].
    exists v. split; auto.
    now apply nth_error_update_nth_same.
  - destruct (Hctor _ _ _ _ Hfg Hc) as (-> & Hf1 & Hfe1).
    assert (E : nth_error g1 self = Some (ONode gitems attrs))
      by (eapply frame_nth; eauto).
    rewrite E in Hn1. injection Hn1 as <- <-.
    split.
    { apply building_update; auto. eapply building_call; eauto. }
    split.
    { eapply frame_trans; [|apply frame_write; lia].
      eapply frame_weaken; [|exact Hf1]. lia. }
    exists (VRef (Datatypes.length g)). split.
    + apply nth_error_update_nth_same. destruct Hf1. lia.
    + right. eauto.
Qed.

Lemma pending_set_value (h0 : heap) (n : nat) (gitems : items_t)
    (rest : items_t) (k : key) (v' : value) :
  pending bad h0 n gitems rest ->
  (forall c, v' = VRef c -> (c < n)%nat -> ~ bad h0 (VRef c)) ->
  pending bad h0 n (assoc_set k v' gitems) rest.
Proof.
  intros Hp Hv k' c Hl Hlt Hm.
  destruct (key_eqb k' k) eqn:E.
  - apply key_eqb_eq in E. subst k'. rewrite lookup_assoc_set_same in Hl.
    injection Hl as ->. exfalso. eapply Hv; eauto.
  - apply key_eqb_neq in E. rewrite lookup_assoc_set_other in Hl by auto.
    eapply Hp; eauto.
Qed.

Lemma pending_skip (h0 : heap) (n : nat) (gitems : items_t) (rest : items_t)
    (k : key) (v : value) :
  pending bad h0 n gitems ((k, v) :: rest) ->
  (forall c, v = VRef c -> (c < n)%nat -> ~ bad h0 (VRef c)) ->
  pending bad h0 n gitems rest.
Proof.
  intros Hp Hv k' c Hl Hlt Hm.
  destruct (Hp k' c Hl Hlt Hm) as [E|Hin]; auto.
  injection E as _ ->. exfalso. eapply Hv; eauto.
Qed.

Lemma pending_drop (h0 : heap) (n : nat) (gitems : items_t) (rest : items_t)
    (k : key) (v : value) (v' : value) :
  pending bad h0 n gitems ((k, v) :: rest) ->
  (forall c, v' = VRef c -> (n <= c)%nat) ->
  pending bad h0 n (assoc_set k v' gitems) rest.
Proof.
  intros Hp Hc k' c Hl Hlt Hm.
  destruct (key_eqb k' k) eqn:E.
  - apply key_eqb_eq in E. subst k'. rewrite lookup_assoc_set_same in Hl.
    injection Hl as ->. specialize (Hc c eq_refl). lia.
  - apply key_eqb_neq in E. rewrite lookup_assoc_set_other in Hl by auto.
    destruct (Hp k' c Hl Hlt Hm) as [E'|Hin]; auto.
    injection E' as -> _. congruence.
Qed.

Lemma pending_more (h0 : heap) (n : nat) (gitems : items_t) (rest : items_t)
    (kv : key * value) :
  pending bad h0 n gitems rest -> pending bad h0 n gitems (kv :: rest).
Proof. intros Hp k c Hl Hlt Hm. right. eauto. Qed.

(** What [__init__] needs of [bad]: it holds of objects only, and does not
    depend on what is allocated later. *)
Hypothesis bad_object : forall g v, bad g v -> object_at g v.
Hypothesis bad_frame :
  forall n h g c, frame n h g -> (c < n)%nat ->
                  bad h (VRef c) -> bad g (VRef c).

(** The objects that [Settings(src)] creates are fresh. *)
Lemma init_fresh (f : nat) :
  forall (src : option value) (h0 : heap) (n : nat) (h : heap) (r : loc)
         (h' : heap),
    frame n h0 h -> (n <= Datatypes.length h0)%nat ->
    __init__ f src h = Ok r h' ->
    fresh_entries bad h0 n (Datatypes.length h) h'.
Proof.
  induction f as [|f IH]; intros src h0 n h r h' Hfh Hn0 H; [discriminate|].
  assert (Hctor : forall w g0 r0 g1, frame n h0 g0 ->
             __init__ f (Some w) g0 = Ok r0 g1 ->
             r0 = Datatypes.length g0 /\
             frame (Datatypes.length g0) g0 g1 /\
             fresh_entries bad h0 n (Datatypes.length g0) g1).
  { intros w g0 r0 g1 Hf0 Hw.
    pose proof (init_frame _ _ _ _ _ Hw) as [-> Hf1].
    split; auto. split; auto. eapply IH; eauto. }
  cbn [__init__] in H.
  apply bind_inv in H as (items & hx & Hsrc & H).
  assert (hx = h) as ->.
  { destruct src as [v|].
    - unfold mapping_items in Hsrc. destruct v; try discriminate.
      apply bind_inv in Hsrc as (o & h2 & Hr & Hsrc).
      apply read_inv in Hr as [-> _].
      destruct o; try discriminate; now apply ret_inv in Hsrc as [_ <-].
    - now apply ret_inv in Hsrc as [_ <-]. }
  clear Hsrc.
  apply bind_inv in H as (self & h1 & Ha & H).
  apply alloc_inv in Ha as [-> ->].
  apply bind_inv in H as (u & h2 & Hloop & H).
  apply ret_inv in H as [_ <-].
  assert (Hnh : (n <= Datatypes.length h)%nat) by (destruct Hfh; lia).
  set (self := Datatypes.length h) in *.
  assert (Hend :
    building bad h0 n (S self) h2 /\
    exists gitems,
      nth_error h2 self = Some (ONode gitems []) /\
      pending bad h0 n gitems []).
  { revert Hloop.
    apply (forM_suffix
             (fun rest g =>
                building bad h0 n (S self) g /\
                exists gitems,
                  nth_error g self = Some (ONode gitems []) /\
                  pending bad h0 n gitems rest)).
    - intros [k v] rest g u0 g' (Hb & gitems & Hself & Hpend) Hbody.
      cbn [fst snd] in Hbody.
      assert (Hfg : frame n h0 g) by (destruct Hb; auto).
      assert (Hlg : (n <= Datatypes.length g)%nat).
      { destruct Hb as (_ & _ & Hl & _). unfold self in Hl. lia. }
      apply bind_inv in Hbody as (d & gx & Hd & Hbody).
      apply is_dict_inv in Hd as (-> & Hd).
      apply bind_inv in Hbody as (u1 & g2 & Hpart1 & Hbody).
      assert (H1 : building bad h0 n (S self) g2 /\
                   (Datatypes.length g <= Datatypes.length g2)%nat /\
                   exists items2,
                     nth_error g2 self = Some (ONode items2 []) /\
                     ((d = true /\ pending bad h0 n items2 rest) \/
                      (d = false /\ g2 = g /\
                       pending bad h0 n items2 ((k, v) :: rest)))).
      { destruct d.
        - apply bind_inv in Hpart1 as (n1 & g1 & Hi & Hset).
          destruct (Hctor _ _ _ _ Hfg Hi) as (-> & Hf1 & Hfe1).
          assert (Hb1 : building bad h0 n (S self) g1)
            by (eapply building_call; eauto).
          assert (Hs1 : nth_error g1 self = Some (ONode gitems []))
            by (eapply frame_nth; eauto; eapply nth_error_lt; eauto).
          destruct (building_setitem_value _ _ _ _ _ _ _ _ _ _ _
                      Hctor Hnh Hb1 Hs1 Hset)
            as (Hb2 & Hf2 & v' & Hs2 & Hv').
          split; auto.
          split; [destruct Hf1, Hf2; lia|].
          eexists. split; [exact Hs2|].
          left. split; auto.
          eapply pending_drop; eauto.
          intros c ->.
          destruct Hv' as [[E _]|(c' & E & Hc')]; injection E as ->.
          + exact Hlg.
          + destruct Hf1. lia.
        - apply ret_inv in Hpart1 as [_ <-]. split; auto. split; auto.
          exists gitems. split; auto. }
      clear Hpart1 Hb Hself Hpend.
      destruct H1 as (Hb & Hlen2 & items2 & Hself & Hpend).
      assert (Hfg2 : frame n h0 g2) by (destruct Hb; auto).
      apply bind_inv in Hbody as (l & gx & Hl & Hbody).
      apply is_list_inv in Hl as (-> & Hl).
      destruct l.
      + apply bind_inv in Hbody as (elems & gx & He & Hbody).
        assert (gx = g2) as ->.
        { destruct v; try discriminate. simpl in He.
          apply bind_inv in He as (o & g6 & Hr & He).
          apply read_inv in Hr as [-> _].
          destruct o; try discriminate. now apply ret_inv in He as [_ <-]. }
        apply bind_inv in Hbody as (elems' & g5 & Hm & Hbody).
        assert (H5 : (building bad h0 n (S self) g5 /\
                      nth_error g5 self = Some (ONode items2 [])) /\
                     Forall (fun e => forall c, e = VRef c -> (c < n)%nat ->
                                      ~ mapping_at h0 (VRef c)) elems').
        { revert Hm.
          apply (mapM_forall
                   (fun g0 => building bad h0 n (S self) g0 /\
                              nth_error g0 self = Some (ONode items2 [])));
            auto.
          intros i g6 b g7 _ [Hb6 Hs6] Hi.
          assert (Hf6 : frame n h0 g6) by (destruct Hb6; auto).
          apply bind_inv in Hi as (di & g8 & Hdi & Hi).
          apply is_dict_inv in Hdi as (-> & Hdi).
          destruct di.
          - apply bind_inv in Hi as (n1 & g8 & Hi & Hr).
            apply ret_inv in Hr as [<- <-].
            destruct (Hctor _ _ _ _ Hf6 Hi) as (-> & Hf1 & Hfe1).
            split.
            + split; [eapply building_call; eauto|].
              eapply frame_nth; eauto. eapply nth_error_lt; eauto.
            + intros c E Hc. injection E as <-.
              destruct Hb6 as (_ & _ & Hl6 & _). unfold self in Hl6. lia.
          - apply ret_inv in Hi as [<- <-]. split; auto.
            intros c -> Hc Hm.
            apply (mapping_at_frame_below n h0 g6 c Hf6 Hc) in Hm.
            apply Hdi in Hm. discriminate. }
        destruct H5 as [[Hb5 Hs5] Hel].
        apply bind_inv in Hbody as (nl & g6 & Ha & Hbody).
        apply alloc_inv in Ha as [-> ->].
        assert (Hb6 : building bad h0 n (S self) (g5 ++ [OList elems'])).
        { apply building_alloc; auto. simpl. intros c Hin Hc.
          rewrite Forall_forall in Hel. exact (Hel _ Hin c eq_refl Hc). }
        assert (Hs6 : nth_error (g5 ++ [OList elems']) self
                      = Some (ONode items2 [])).
        { rewrite nth_error_snoc_old; auto. eapply nth_error_lt; eauto. }
        assert (Hge : (n <= Datatypes.length g5)%nat).
        { destruct Hb5 as (_ & _ & Hl5 & _). unfold self in Hl5. lia. }
        destruct (building_setitem_value _ _ _ _ _ _ _ _ _ _ _
                    Hctor Hnh Hb6 Hs6 Hbody)
          as (Hb7 & Hf7 & v' & Hs7 & Hv').
        split; auto. eexists. split; [exact Hs7|].
        apply (pending_drop h0 n items2 rest k v v').
        * destruct Hpend as [[_ Hp]|(_ & _ & Hp)]; auto.
          now apply pending_more.
        * intros c ->.
          destruct Hv' as [[E _]|(c' & E & Hc')]; injection E as ->.
          -- exact Hge.
          -- rewrite length_app in Hc'. simpl in Hc'. lia.
      + apply ret_inv in Hbody as [_ <-]. split; auto.
        exists items2. split; auto.
        destruct Hpend as [[_ Hp]|(-> & -> & Hp)]; auto.
        eapply pending_skip; eauto.
        intros c -> Hc Hbad.
        apply (bad_frame n h0 g c Hfg Hc) in Hbad.
        destruct (bad_object _ _ Hbad) as [Hm|Hli].
        * apply Hd in Hm. discriminate.
        * apply Hl in Hli. discriminate.
    - split.
      + split.
        { eapply frame_trans; [exact Hfh|].
          eapply frame_weaken; [|apply frame_alloc]. exact Hnh. }
        split; [unfold self; lia|].
        split; [rewrite length_app; simpl; unfold self; lia|].
        intros a o Ha Hna.
        assert (Hnone : nth_error (h ++ [ONode items []]) a = None).
        { apply nth_error_None. rewrite length_app. simpl.
          unfold self in Ha. lia. }
        congruence.
      + exists items. split; [apply nth_error_snoc_new|].
        intros k c Hl _ _. now apply lookup_In. }
  destruct Hend as ((_ & _ & _ & Hfe) & gitems & Hself & Hpend).
  intros a o Ha Hna.
  destruct (Nat.eq_dec a self) as [->|Hne].
  - rewrite Hself in Hna. injection Hna as <-. simpl.
    intros k c Hl Hc Hm. exact (Hpend k c Hl Hc Hm).
  - eapply (Hfe a o); eauto. lia.
Qed.

Lemma init_ctor_ok (f : nat) (h0 : heap) (n : nat) :
  (n <= Datatypes.length h0)%nat ->
  forall w g0 r g1, frame n h0 g0 ->
    __init__ f (Some w) g0 = Ok r g1 ->
    r = Datatypes.length g0 /\ frame (Datatypes.length g0) g0 g1 /\
    fresh_entries bad h0 n (Datatypes.length g0) g1.
Proof.
  intros Hn w g0 r g1 Hf Hw.
  pose proof (init_frame _ _ _ _ _ Hw) as [-> Hf1].
  split; auto. split; auto. eapply init_fresh; eauto.
Qed.

End Fresh.

Lemma mapping_is_object (g : heap) (v : value) :
  mapping_at g v -> object_at g v.
Proof. intros H. now left. Qed.

Lemma mapping_at_frame_mono (n : nat) (h g : heap) (c : loc) :
  frame n h g -> (c < n)%nat ->
  mapping_at h (VRef c) -> mapping_at g (VRef c).
Proof. intros Hf Hc. now apply (mapping_at_frame_below n h g c Hf Hc). Qed.

(** The objects that [copy] creates hold no mapping that existed before the
    call, and the object it returns is a node without attributes. *)
Lemma copy_fresh (f : nat) :
  forall (self : loc) (h0 : heap) (n : nat) (h : heap) (r : loc) (h' : heap),
    frame n h0 h -> (n <= Datatypes.length h0)%nat ->
    copy f self h = Ok r h' ->
    fresh_entries mapping_at h0 n (Datatypes.length h) h' /\
    exists ritems, nth_error h' (Datatypes.length h) = Some (ONode ritems []).
Proof.
  induction f as [|f IH]; intros self h0 n h res h' Hfh Hn0 H; [discriminate|].
  pose proof (init_ctor_ok mapping_at mapping_is_object mapping_at_frame_mono
                f h0 n Hn0) as Hctor.
  cbn [copy] in H.
  apply bind_inv in H as (r0 & h1 & Hi & H).
  apply init_empty_inv in Hi as [-> ->].
  apply bind_inv in H as (names & h2 & Hit & H).
  apply __iter___pure in Hit as (-> & (items & attrs & Hn1 & Hp) & _).
  apply bind_inv in H as (u & h2 & Hloop & H).
  apply ret_inv in H as [_ <-].
  assert (Hnh : (n <= Datatypes.length h)%nat) by (destruct Hfh; lia).
  set (r := Datatypes.length h) in *.
  assert (Hbase :
    frame r h (h ++ [ONode [] []]) /\
    building mapping_at h0 n (S r) (h ++ [ONode [] []]) /\
    exists ritems,
      nth_error (h ++ [ONode [] []]) r = Some (ONode ritems []) /\
      pending mapping_at h0 n ritems []).
  { split; [apply frame_alloc|]. split.
    - split.
      { eapply frame_trans; [exact Hfh|].
        eapply frame_weaken; [|apply frame_alloc]. exact Hnh. }
      split; [unfold r; lia|].
      split; [rewrite length_app; simpl; unfold r; lia|].
      intros a o Ha Hna.
      assert (Hnone : nth_error (h ++ [ONode [] []]) a = None).
      { apply nth_error_None. rewrite length_app. simpl.
        unfold r in Ha. lia. }
      congruence.
    - exists []. split; [apply nth_error_snoc_new|].
      intros k c Hl. discriminate. }
  assert (Hend :
    frame r h h2 /\
    building mapping_at h0 n (S r) h2 /\
    exists ritems,
      nth_error h2 r = Some (ONode ritems []) /\
      pending mapping_at h0 n ritems []).
  { destruct (Nat.eq_dec self r) as [->|Hne].
    { unfold r in Hn1. rewrite nth_error_snoc_new in Hn1.
      injection Hn1 as <- <-.
      apply Permutation_nil in Hp. subst names.
      simpl in Hloop. apply ret_inv in Hloop as [_ <-]. exact Hbase. }
    assert (Hself : (self < r)%nat).
    { apply nth_error_lt in Hn1. rewrite length_app in Hn1. simpl in Hn1.
      unfold r in *. lia. }
    rewrite nth_error_snoc_old in Hn1 by exact Hself.
    revert Hloop.
    apply (forM_invariant
             (fun g =>
                frame r h g /\
                building mapping_at h0 n (S r) g /\
                exists ritems,
                  nth_error g r = Some (ONode ritems []) /\
                  pending mapping_at h0 n ritems [])); [|exact Hbase].
    intros name g u0 g' Hin (Hf & Hb & ritems & Hr & Hpend) Hbody.
    unfold copy_step in Hbody.
    assert (Hfg : frame n h0 g) by (destruct Hb; auto).
    assert (Hrlt : (r < Datatypes.length g)%nat)
      by (eapply nth_error_lt; eauto).
    assert (Hn0' : nth_error g self = Some (ONode items attrs))
      by (exact (frame_nth _ _ _ _ _ Hf Hself Hn1)).
    assert (Hk : exists v0, lookup name items = Some v0).
    { assert (Hin' : In name (keys items))
        by (eapply Permutation_in; [apply Permutation_sym|]; eauto).
      apply lookup_In_keys in Hin'.
      destruct (lookup name items) as [v0|]; [eauto | congruence]. }
    destruct Hk as [v0 Hk].
    apply bind_inv in Hbody as (v & g4 & Hg & Hbody).
    destruct (getitem_key_present_inv _ _ _ _ _ _ _ _ _ Hn0' Hk Hg)
      as [-> ->]; clear Hg.
    apply bind_inv in Hbody as (b & g4 & Hnode & Hbody).
    apply is_node_inv in Hnode as (-> & Hnode).
    destruct b.
    - apply bind_inv in Hbody as (v1 & g4 & Hg & Hbody).
      destruct (getitem_key_present_inv _ _ _ _ _ _ _ _ _ Hn0' Hk Hg)
        as [-> ->]; clear Hg.
      apply bind_inv in Hbody as (c & g1 & Hc & Hbody).
      destruct v0 as [| | |l]; try discriminate. cbn [method] in Hc.
      pose proof (copy_frame _ _ _ _ _ Hc) as (-> & Hfc & _).
      destruct (IH _ _ _ _ _ _ Hfg Hn0 Hc) as [Hfe1 _].
      assert (Hb1 : building mapping_at h0 n (S r) g1)
        by (eapply building_call; eauto).
      assert (Hr1 : nth_error g1 r = Some (ONode ritems []))
        by (exact (frame_nth _ _ _ _ _ Hfc Hrlt Hr)).
      unfold __setitem__ in Hbody.
      destruct (building_setitem_value _ _ _ _ _ _ _ _ _ _ _ _
                  Hctor Hnh Hb1 Hr1 Hbody)
        as (Hb2 & Hf2 & v' & Hr2 & Hv').
      split.
      { eapply frame_trans; [exact Hf|].
        eapply frame_trans; [|exact Hf2].
        eapply frame_weaken; [|exact Hfc]. lia. }
      split; [exact Hb2|].
      eexists. split; [exact Hr2|].
      apply pending_set_value; auto.
      intros c0 -> Hc0 _.
      destruct Hv' as [[E _]|(c' & E & Hc')]; injection E as ->.
      + lia.
      + destruct Hfc. lia.
    - apply bind_inv in Hbody as (v1 & g4 & Hg & Hbody).
      destruct (getitem_key_present_inv _ _ _ _ _ _ _ _ _ Hn0' Hk Hg)
        as [-> ->]; clear Hg.
      unfold __setitem__ in Hbody.
      destruct (building_setitem_value _ _ _ _ _ _ _ _ _ _ _ _
                  Hctor Hnh Hb Hr Hbody)
        as (Hb2 & Hf2 & v' & Hr2 & Hv').
      split; [eapply frame_trans; eauto|].
      split; [exact Hb2|].
      eexists. split; [exact Hr2|].
      apply pending_set_value; auto.
      intros c0 -> Hc0 Hm.
      destruct Hv' as [[<- Hnm]|(c' & E & Hc')].
      + apply Hnm. now apply (mapping_at_frame_below n h0 g c0 Hfg Hc0).
      + injection E as ->. lia. }
  destruct Hend as (_ & (_ & _ & _ & Hfe) & ritems & Hr & Hpend).
  split; [|eauto].
  intros a o Ha Hna.
  destruct (Nat.eq_dec a r) as [->|Hne].
  - rewrite Hr in Hna. injection Hna as <-. simpl.
    intros k c Hl Hc Hm. exact (Hpend k c Hl Hc Hm).
  - eapply (Hfe a o); eauto. lia.
Qed.

(** * The entries of a copy *)

Lemma mapping_at_allocated (n : nat) (h g : heap) (v : value) :
  frame n h g -> (n <= Datatypes.length h)%nat ->
  (forall l, v = VRef l -> (l < n)%nat) ->
  (mapping_at h v <-> mapping_at g v).
Proof. intros Hf _ Hv. eapply mapping_at_frame; eauto. Qed.

Lemma node_is_mapping (g : heap) (c : loc) (items : items_t) attrs :
  nth_error g c = Some (ONode items attrs) -> mapping_at g (VRef c).
Proof. intros H. exists c, (ONode items attrs). auto. Qed.

(** [copied] survives operations that keep the old objects and only write
    the node [r]. *)
Lemma copied_stable (h g g' : heap) (r : loc) (v w : value) (ritems : items_t) :
  copied h g v w ->
  (forall l, l <> r -> (l < Datatypes.length g)%nat ->
             nth_error g' l = nth_error g l) ->
  nth_error g' r = Some (ONode ritems []) ->
  copied h g' v w.
Proof.
  intros [Hc|(Hm & c & nitems & -> & Hle & Hn)] Hsame Hr; [left; exact Hc|].
  right. split; auto.
  destruct (Nat.eq_dec c r) as [->|Hne].
  - exists r, ritems. auto.
  - exists c, nitems. split; auto. split; auto.
    rewrite Hsame; auto. eapply nth_error_lt; eauto.
Qed.

(** One iteration of [copy]: the entry of the source is copied into the new
    node, and nothing else is written. *)
Lemma copy_step_entries (f : nat) (self : loc) (h g : heap)
    (sitems : items_t) attrs (ritems : items_t) (name : key) (v0 : value)
    (u : unit) (g' : heap) :
  let r := Datatypes.length h in
  frame r h g ->
  nth_error h self = Some (ONode sitems attrs) ->
  lookup name sitems = Some v0 -> allocated h v0 ->
  nth_error g r = Some (ONode ritems []) ->
  copy_step (copy f) f self r name g = Ok u g' ->
  frame r h g' /\
  (forall l, l <> r -> (l < Datatypes.length g)%nat ->
             nth_error g' l = nth_error g l) /\
  exists w,
    nth_error g' r = Some (ONode (assoc_set name w ritems) []) /\
    copied h g' v0 w.
Proof.
  intros r Hf Hs Hk Hal Hr Hbody. unfold copy_step in Hbody.
  assert (Hself : (self < r)%nat) by (eapply nth_error_lt; eauto).
  assert (Hrlt : (r < Datatypes.length g)%nat) by (eapply nth_error_lt; eauto).
  assert (Hsg : nth_error g self = Some (ONode sitems attrs))
    by (exact (frame_nth _ _ _ _ _ Hf Hself Hs)).
  assert (Hmap : mapping_at h v0 <-> mapping_at g v0).
  { eapply mapping_at_frame; eauto. intros l ->. exact Hal. }
  apply bind_inv in Hbody as (v & g4 & Hg & Hbody).
  destruct (getitem_key_present_inv _ _ _ _ _ _ _ _ _ Hsg Hk Hg)
    as [-> ->]; clear Hg.
  apply bind_inv in Hbody as (b & g4 & Hnode & Hbody).
  apply is_node_inv in Hnode as (-> & Hnode).
  destruct b.
  - apply bind_inv in Hbody as (v1 & g4 & Hg & Hbody).
    destruct (getitem_key_present_inv _ _ _ _ _ _ _ _ _ Hsg Hk Hg)
      as [-> ->]; clear Hg.
    apply bind_inv in Hbody as (c & g1 & Hc & Hbody).
    destruct (proj1 Hnode eq_refl) as (l & its & ats & -> & Hl).
    cbn [method] in Hc.
    pose proof (copy_frame _ _ _ _ _ Hc) as (-> & Hfc & Hltc).
    destruct (copy_fresh _ _ _ _ _ _ _ (frame_refl (Datatypes.length g) g)
                (le_n _) Hc) as [_ [citems Hcn]].
    assert (Hr1 : nth_error g1 r = Some (ONode ritems []))
      by (exact (frame_nth _ _ _ _ _ Hfc Hrlt Hr)).
    destruct (setitem_key_inv _ _ _ _ _ _ _ _ _ Hr1 Hbody)
      as (v' & g2 & Hf2 & -> & Hpost & Hcase).
    assert (Hl12 : (Datatypes.length g1 <= Datatypes.length g2)%nat)
      by (destruct Hf2; auto).
    split.
    { eapply frame_trans; [exact Hf|].
      eapply frame_trans; [eapply frame_weaken; [|exact Hfc]; lia|].
      eapply frame_trans; [eapply frame_weaken; [|exact Hf2]; lia|].
      apply frame_write. lia. }
    split.
    { intros l0 Hne Hlt. rewrite nth_error_update_nth_other by auto.
      destruct Hf2 as [_ Hf2]. rewrite Hf2 by lia.
      destruct Hfc as [_ Hfc]. now rewrite Hfc. }
    exists v'. split; [exact Hpost|].
    right. split; [apply Hmap; eapply node_is_mapping; eauto|].
    destruct Hcase as [(Hnm & _ & _)|(_ & -> & nitems & Hnn)].
    + exfalso. apply Hnm. eapply node_is_mapping; eauto.
    + exists (Datatypes.length g1), nitems. split; auto.
      split; [unfold r in *; lia|].
      rewrite nth_error_update_nth_other by lia. exact Hnn.
  - apply bind_inv in Hbody as (v1 & g4 & Hg & Hbody).
    destruct (getitem_key_present_inv _ _ _ _ _ _ _ _ _ Hsg Hk Hg)
      as [-> ->]; clear Hg.
    destruct (setitem_key_inv _ _ _ _ _ _ _ _ _ Hr Hbody)
      as (v' & g2 & Hf2 & -> & Hpost & Hcase).
    assert (Hl12 : (Datatypes.length g <= Datatypes.length g2)%nat)
      by (destruct Hf2; auto).
    split.
    { eapply frame_trans; [exact Hf|].
      eapply frame_trans; [eapply frame_weaken; [|exact Hf2]; lia|].
      apply frame_write. lia. }
    split.
    { intros l0 Hne Hlt. rewrite nth_error_update_nth_other by auto.
      destruct Hf2 as [_ Hf2]. now rewrite Hf2. }
    exists v'. split; [exact Hpost|].
    destruct Hcase as [(Hnm & -> & ->)|(Hm & -> & nitems & Hnn)].
    + left. split; [tauto | reflexivity].
    + right. split; [tauto|].
      exists (Datatypes.length g), nitems. split; auto.
      split; [unfold r in *; lia|].
      rewrite nth_error_update_nth_other by lia. exact Hnn.
Qed.

(** The new node has the keys of the source; each value is [copied]. *)
Lemma copy_entries (f : nat) (self : loc) (h : heap) (sitems : items_t)
    attrs (r : loc) (h' : heap) :
  nth_error h self = Some (ONode sitems attrs) ->
  (forall k v, lookup k sitems = Some v -> allocated h v) ->
  copy f self h = Ok r h' ->
  exists ritems,
    nth_error h' r = Some (ONode ritems []) /\
    forall k,
      match lookup k sitems with
      | None => lookup k ritems = None
      | Some v => exists w, lookup k ritems = Some w /\ copied h h' v w
      end.
Proof.
  intros Hs Hal H.
  destruct f as [|f]; [discriminate|].
  cbn [copy] in H.
  apply bind_inv in H as (r0 & h1 & Hi & H).
  apply init_empty_inv in Hi as [-> ->].
  apply bind_inv in H as (names & h2 & Hit & H).
  apply __iter___pure in Hit as (-> & (items & attrs' & Hn1 & Hp) & _).
  apply bind_inv in H as (u & h2 & Hloop & H).
  apply ret_inv in H as [<- <-].
  assert (Hself : (self < Datatypes.length h)%nat)
    by (eapply nth_error_lt; eauto).
  rewrite nth_error_snoc_old in Hn1 by exact Hself.
  rewrite Hs in Hn1. injection Hn1 as <- <-.
  set (r := Datatypes.length h) in *.
  assert (Hend :
    frame r h h2 /\
    (forall x, In x (@nil key) -> In x (keys sitems)) /\
    exists ritems,
      nth_error h2 r = Some (ONode ritems []) /\
      forall k,
        match lookup k sitems with
        | None => lookup k ritems = None
        | Some v =>
            (lookup k ritems = None /\ In k []) \/
            exists w, lookup k ritems = Some w /\ copied h h2 v w
        end).
  { revert Hloop.
    apply (forM_suffix
             (fun rest g =>
                frame r h g /\
                (forall x, In x rest -> In x (keys sitems)) /\
                exists ritems,
                  nth_error g r = Some (ONode ritems []) /\
                  forall k,
                    match lookup k sitems with
                    | None => lookup k ritems = None
                    | Some v =>
                        (lookup k ritems = None /\ In k rest) \/
                        exists w, lookup k ritems = Some w /\ copied h g v w
                    end)).
    - intros name rest g u0 g' (Hf & Hrest & ritems & Hr & Hent) Hbody.
      assert (Hin : In name (keys sitems)) by (apply Hrest; now left).
      assert (Hk : exists v0, lookup name sitems = Some v0).
      { apply lookup_In_keys in Hin.
        destruct (lookup name sitems) as [v0|]; [eauto | congruence]. }
      destruct Hk as [v0 Hk].
      destruct (copy_step_entries f self h g sitems attrs ritems name v0
                  u0 g' Hf Hs Hk (Hal _ _ Hk) Hr Hbody)
        as (Hf' & Hsame & w & Hr' & Hcw).
      split; [exact Hf'|].
      split; [intros x Hx; apply Hrest; now right|].
      eexists. split; [exact Hr'|].
      intros k. specialize (Hent k).
      destruct (key_eqb k name) eqn:Ek.
      + apply key_eqb_eq in Ek. subst k. rewrite Hk.
        right. exists w. split; auto. apply lookup_assoc_set_same.
      + apply key_eqb_neq in Ek.
        rewrite lookup_assoc_set_other by auto.
        destruct (lookup k sitems) as [v|]; auto.
        destruct Hent as [[Hnone [Hhd|Hin']]|(w0 & Hl0 & Hc0)].
        * congruence.
        * left. auto.
        * right. exists w0. split; auto.
          eapply copied_stable; eauto.
    - split; [apply frame_alloc|].
      split.
      { intros x Hx.
        eapply Permutation_in; [apply Permutation_sym|]; eauto. }
      exists []. split; [apply nth_error_snoc_new|].
      intros k. destruct (lookup k sitems) as [v|] eqn:Hl; auto.
      left. split; auto.
      eapply Permutation_in; [exact Hp|].
      apply lookup_In_keys. congruence. }
  destruct Hend as (_ & _ & ritems & Hr & Hent).
  exists ritems. split; [exact Hr|].
  intros k. specialize (Hent k).
  destruct (lookup k sitems); auto.
  destruct Hent as [[_ []]|Hw]. exact Hw.
Qed.

(** * [copy] *)




(** * No plain mapping in what [Settings(...)] builds *)

Lemma object_at_frame_mono (n : nat) (h g : heap) (c : loc) :
  frame n h g -> (c < n)%nat ->
  object_at h (VRef c) -> object_at g (VRef c).
Proof. apply object_at_frame_below. Qed.

Lemma object_at_self (g : heap) (v : value) : object_at g v -> object_at g v.
Proof. auto. Qed.

Lemma allocated_object (h : heap) (c : loc) :
  (c < Datatypes.length h)%nat -> object_at h (VRef c).
Proof.
  intros Hc. destruct (nth_error h c) as [o|] eqn:E.
  - destruct o as [items attrs|items|elems].
    + left. exists c, (ONode items attrs). auto.
    + left. exists c, (ODict items). auto.
    + right. exists c, elems. auto.
  - apply nth_error_None in E. lia.
Qed.

(** Fresh objects, seen from the final heap. *)
Lemma fresh_converted (h h' : heap) :
  frame (Datatypes.length h) h h' ->
  fresh_entries object_at h (Datatypes.length h) (Datatypes.length h) h' ->
  forall a o, (Datatypes.length h <= a)%nat -> nth_error h' a = Some o ->
              converted h h' o.
Proof.
  intros Hf Hfe a o Ha Hn.
  assert (Hnd : forall c, (Datatypes.length h <= c)%nat ->
                          ~ dict_at h' (VRef c)).
  { intros c Hc (l & its & E & Hl). injection E as <-.
    exact (Hfe c (ODict its) Hc Hl). }
  assert (Hold : forall c, (c < Datatypes.length h)%nat ->
                   ~ mapping_at h (VRef c) ->
                   ~ dict_at h' (VRef c) /\ ~ node_at h' (VRef c)).
  { intros c Hc Hnm. destruct Hf as [_ Hf]. split.
    - intros (l & its & E & Hl). injection E as <-.
      apply Hnm. exists c, (ODict its). rewrite <- Hf; auto.
    - intros (l & its & ats & E & Hl). injection E as <-.
      apply Hnm. exists c, (ONode its ats). rewrite <- Hf; auto. }
  pose proof (Hfe a o Ha Hn) as Ho.
  destruct o as [items attrs|items|elems]; simpl in *; auto.
  - intros k c Hl.
    destruct (Nat.lt_ge_cases c (Datatypes.length h)) as [Hlt|Hge].
    + exfalso. apply (Ho k c Hl Hlt). now apply allocated_object.
    + split; auto.
  - intros c Hin.
    destruct (Nat.lt_ge_cases c (Datatypes.length h)) as [Hlt|Hge].
    + destruct (Hold c Hlt (Ho c Hin Hlt)) as [Hd Hnn].
      split; auto. intros Hnode. contradiction.
    + split; auto.
Qed.





(** * [update] *)

(** ** No key is ever removed *)

Lemma obj_grow_refl (o : obj) : obj_grow o o.
Proof. destruct o; simpl; auto. Qed.

Lemma obj_grow_trans (a b c : obj) :
  obj_grow a b -> obj_grow b c -> obj_grow a c.
Proof.
  destruct a, b; simpl; intros Hab; try discriminate;
    try (injection Hab as <-; auto; fail).
  destruct c; simpl; intros Hbc; try discriminate.
  destruct Hab as [-> Hab], Hbc as [-> Hbc]. split; auto.
Qed.

Lemma grow_refl (h : heap) : grow h h.
Proof.
  split; auto. intros l o H. exists o. split; auto. apply obj_grow_refl.
Qed.

Lemma grow_trans (h1 h2 h3 : heap) : grow h1 h2 -> grow h2 h3 -> grow h1 h3.
Proof.
  intros [L1 M1] [L2 M2]. split; [lia|].
  intros l o H. destruct (M1 l o H) as (o1 & H1 & Ho1).
  destruct (M2 l o1 H1) as (o2 & H2 & Ho2).
  exists o2. split; auto. eapply obj_grow_trans; eauto.
Qed.

Lemma mono_grow (h h' : heap) : mono h h' -> grow h h'.
Proof.
  intros [L Hm]. split; auto.
  intros l o H. destruct (Hm l o H) as (o' & H' & Hle).
  exists o'. split; auto.
  destruct o, o'; simpl in *; auto.
  destruct Hle as [-> Hle]. split; auto.
  intros k Hk. destruct (lookup k items) as [v|] eqn:E; [|congruence].
  rewrite (Hle k v E). discriminate.
Qed.

Lemma frame_grow (h h' : heap) : frame (Datatypes.length h) h h' -> grow h h'.
Proof. intros H. now apply mono_grow, frame_mono. Qed.

Lemma grow_node (h h' : heap) (l : loc) (items : items_t) attrs :
  grow h h' -> nth_error h l = Some (ONode items attrs) ->
  exists items', nth_error h' l = Some (ONode items' attrs) /\
                 forall k, lookup k items <> None -> lookup k items' <> None.
Proof.
  intros [_ Hg] Hn. destruct (Hg l _ Hn) as (o' & Hn' & Ho).
  destruct o'; simpl in Ho; try discriminate.
  destruct Ho as [<- Ho]. eauto.
Qed.

Lemma grow_other (h h' : heap) (l : loc) (o : obj) :
  grow h h' -> nth_error h l = Some o ->
  match o with ONode _ _ => True | _ => nth_error h' l = Some o end.
Proof.
  intros [_ Hg] Hn. destruct (Hg l _ Hn) as (o' & Hn' & Ho).
  destruct o; auto; simpl in Ho; now subst o'.
Qed.

Lemma grow_node_at (h h' : heap) (v : value) :
  grow h h' -> node_at h v -> node_at h' v.
Proof.
  intros Hg (l & items & attrs & -> & Hn).
  destruct (grow_node _ _ _ _ _ Hg Hn) as (items' & Hn' & _).
  exists l, items', attrs. auto.
Qed.

Lemma grow_node_at_back (h h' : heap) (c : loc) :
  grow h h' -> (c < Datatypes.length h)%nat ->
  node_at h' (VRef c) -> node_at h (VRef c).
Proof.
  intros [_ Hg] Hc (l & items & attrs & E & Hn). injection E as <-.
  destruct (nth_error h c) as [o|] eqn:Ho.
  - destruct (Hg c o Ho) as (o' & Hn' & Hgo).
    rewrite Hn in Hn'. injection Hn' as <-.
    destruct o; simpl in Hgo; try discriminate.
    exists c, items0, attrs0. auto.
  - apply nth_error_None in Ho. lia.
Qed.

Lemma assoc_set_keeps_keys (k : key) (v : value) (m : items_t) (k0 : key) :
  lookup k0 m <> None -> lookup k0 (assoc_set k v m) <> None.
Proof.
  intros H. destruct (key_eqb k0 k) eqn:E.
  - apply key_eqb_eq in E. subst. rewrite lookup_assoc_set_same. discriminate.
  - apply key_eqb_neq in E. now rewrite lookup_assoc_set_other.
Qed.

Lemma grow_update (h : heap) (self : loc) (items : items_t) attrs (k : key)
    (v : value) :
  nth_error h self = Some (ONode items attrs) ->
  grow h (update_nth self (ONode (assoc_set k v items) attrs) h).
Proof.
  intros Hn. split; [rewrite length_update_nth; lia|].
  intros l o H. destruct (Nat.eq_dec l self) as [->|Hne].
  - rewrite Hn in H. injection H as <-.
    eexists. split.
    + apply nth_error_update_nth_same. eapply nth_error_lt; eauto.
    + simpl. split; auto. intros k0. apply assoc_set_keeps_keys.
  - exists o. split; [|apply obj_grow_refl].
    now rewrite nth_error_update_nth_other.
Qed.

Lemma setitem_grow (f : nat) (self : loc) (nm : name) (v : value)
    (h : heap) (u : unit) (h' : heap) :
  __setitem__ f self nm v h = Ok u h' -> grow h h'.
Proof.
  intros H. unfold __setitem__ in H.
  apply setitem_with_inv in H
    as (nm' & v' & h1 & items & attrs & Hr & Hv & Hn & ->).
  apply grow_trans with h1.
  - destruct Hv as [(_ & _ & ->)|(_ & r & Hr' & _)].
    + apply grow_refl.
    + apply frame_grow. now apply init_frame in Hr'.
  - now apply grow_update.
Qed.

(** One iteration of [update] removes no key. *)
Lemma update_step_grow (rec : loc -> value -> M unit) (f : nat)
    (self : loc) (other : value) (name : key) (g : heap) (u : unit)
    (g' : heap) :
  (forall l ov h r h', rec l ov h = Ok r h' -> grow h h') ->
  update_step rec f self other name g = Ok u g' ->
  grow g g'.
Proof.
  intros IH Hb. unfold update_step in Hb.
  apply bind_inv in Hb as (v & g1 & Hsub & Hb).
  apply subscript_mono, mono_grow in Hsub.
  apply grow_trans with g1; auto. clear Hsub.
  apply bind_inv in Hb as (b & g2 & Hnode & Hb).
  apply is_node_inv in Hnode as (-> & _).
  destruct b.
  - apply bind_inv in Hb as (c & g2 & Hc & Hb).
    apply contains_inv in Hc as (-> & _).
    apply bind_inv in Hb as (bs & g2 & Hbs & Hb).
    assert (Hg2 : grow g1 g2).
    { destruct (negb c).
      - apply ret_inv in Hbs as [_ <-]. apply grow_refl.
      - apply bind_inv in Hbs as (sv & g3 & Hg & Hbs).
        apply getitem_mono, mono_grow in Hg.
        apply bind_inv in Hbs as (b' & g4 & Hn & Hbs).
        apply is_node_inv in Hn as (-> & _).
        now apply ret_inv in Hbs as [_ <-]. }
    apply grow_trans with g2; auto. clear Hg2 Hbs.
    destruct bs.
    + apply bind_inv in Hb as (v1 & g3 & Hsub & Hb).
      apply subscript_mono, mono_grow in Hsub.
      apply grow_trans with g3; auto.
      apply bind_inv in Hb as (n & g4 & Hcopy & Hb).
      destruct v1 as [| | |l]; try discriminate. cbn [method] in Hcopy.
      apply copy_frame in Hcopy as (_ & Hf & _).
      apply grow_trans with g4; [now apply frame_grow|].
      eapply setitem_grow; eauto.
    + apply bind_inv in Hb as (sv1 & g3 & Hg & Hb).
      apply getitem_mono, mono_grow in Hg.
      apply grow_trans with g3; auto.
      apply bind_inv in Hb as (ov & g4 & Hsub & Hb).
      apply subscript_mono, mono_grow in Hsub.
      apply grow_trans with g4; auto.
      destruct sv1 as [| | |l]; try discriminate. cbn [method] in Hb.
      eapply IH; eauto.
  - apply bind_inv in Hb as (v1 & g2 & Hsub & Hb).
    apply subscript_mono, mono_grow in Hsub.
    apply grow_trans with g2; auto.
    eapply setitem_grow; eauto.
Qed.

Lemma update_grow (f : nat) :
  forall (self : loc) (other : value) (h : heap) (u : unit) (h' : heap),
    update f self other h = Ok u h' -> grow h h'.
Proof.
  induction f as [|f IH]; intros self other h u h' H; [discriminate|].
  cbn [update] in H.
  apply bind_inv in H as (names & h0 & Hit & Hloop).
  apply iterate_pure in Hit as ->.
  revert Hloop.
  apply (forM_invariant (fun g => grow h g)); [|apply grow_refl].
  intros name g u0 g' _ Hg Hb.
  apply grow_trans with g; auto.
  eapply update_step_grow; [|exact Hb].
  intros l ov h2 r2 h3 Hrec. eapply IH; eauto.
Qed.

(** ** Entries that refer to old nodes are old entries *)

Lemma edges_kept_refl (g : heap) : edges_kept g g.
Proof. intros a items attrs k c Hn Hl _. eauto. Qed.

Lemma edges_kept_trans (g1 g2 g3 : heap) :
  grow g1 g2 -> edges_kept g1 g2 -> edges_kept g2 g3 -> edges_kept g1 g3.
Proof.
  intros Hg H12 H23 a items attrs k c Hn Hl Hc.
  destruct (H23 a items attrs k c Hn Hl (grow_node_at _ _ _ Hg Hc))
    as (items2 & attrs2 & Hn2 & Hl2).
  eapply H12; eauto.
Qed.

Lemma node_at_lt (g : heap) (c : loc) :
  node_at g (VRef c) -> (c < Datatypes.length g)%nat.
Proof.
  intros (l & items & attrs & E & Hn). injection E as <-.
  eapply nth_error_lt; eauto.
Qed.

Lemma node_at_mapping (g : heap) (v : value) :
  node_at g v -> mapping_at g v.
Proof.
  intros (l & items & attrs & -> & Hn). eapply node_is_mapping; eauto.
Qed.

Lemma edges_kept_fresh (g g1 : heap) :
  frame (Datatypes.length g) g g1 ->
  fresh_entries mapping_at g (Datatypes.length g) (Datatypes.length g) g1 ->
  edges_kept g g1.
Proof.
  intros [_ Hf] Hfe a items attrs k c Hn Hl Hc.
  pose proof (node_at_lt _ _ Hc) as Hlt.
  destruct (Nat.lt_ge_cases a (Datatypes.length g)) as [Ha|Ha].
  - rewrite Hf in Hn by exact Ha. eauto.
  - exfalso. apply (Hfe a _ Ha Hn k c Hl Hlt). now apply node_at_mapping.
Qed.

Lemma setitem_edges_kept (f : nat) (self : loc) (k : key) (v : value)
    (g : heap) (u : unit) (g' : heap) (items : items_t) attrs :
  nth_error g self = Some (ONode items attrs) ->
  __setitem__ f self (NKey k) v g = Ok u g' ->
  edges_kept g g' /\
  forall b, b <> self -> (b < Datatypes.length g)%nat ->
            nth_error g' b = nth_error g b.
Proof.
  intros Hs H. unfold __setitem__ in H.
  assert (Hctor : forall w h0 r0 h3,
             __init__ f (Some w) h0 = Ok r0 h3 ->
             frame (Datatypes.length h0) h0 h3).
  { intros w h0 r0 h3 Hw. now apply init_frame in Hw. }
  destruct (setitem_with_node _ _ _ _ _ _ _ _ _ Hctor Hs H)
    as (nm' & v' & g1 & Hr & Hf & Hv & -> & Hpost).
  injection Hr as <-. cbn [key_of_name] in *.
  assert (Hself : (self < Datatypes.length g)%nat)
    by (eapply nth_error_lt; eauto).
  split.
  - intros a its ats k0 c Hn Hl Hc.
    pose proof (node_at_lt _ _ Hc) as Hlt.
    destruct (Nat.eq_dec a self) as [->|Hne].
    + rewrite Hpost in Hn. injection Hn as <- <-.
      exists items, attrs. split; auto.
      destruct (key_eqb k0 k) eqn:E.
      * apply key_eqb_eq in E. subst k0.
        rewrite lookup_assoc_set_same in Hl. injection Hl as ->.
        exfalso.
        destruct Hv as [(Hnm & E & _)|(_ & n & Hi & E)].
        -- subst v. apply Hnm. now apply node_at_mapping.
        -- injection E as ->. apply init_frame in Hi as [-> _]. lia.
      * apply key_eqb_neq in E.
        now rewrite lookup_assoc_set_other in Hl.
    + rewrite nth_error_update_nth_other in Hn by auto.
      destruct (Nat.lt_ge_cases a (Datatypes.length g)) as [Ha|Ha].
      * destruct Hf as [_ Hf]. rewrite Hf in Hn by exact Ha. eauto.
      * exfalso.
        destruct Hv as [(_ & _ & ->)|(_ & n & Hi & _)].
        -- apply nth_error_lt in Hn. lia.
        -- pose proof (init_fresh mapping_at mapping_is_object
                         mapping_at_frame_mono _ _ g (Datatypes.length g)
                         g _ _ (frame_refl _ _) (le_n _) Hi) as Hfe.
           apply (Hfe a _ Ha Hn k0 c Hl Hlt). now apply node_at_mapping.
  - intros b Hne Hb. rewrite nth_error_update_nth_other by auto.
    destruct Hf as [_ Hf]. now apply Hf.
Qed.

(** Reading a key that is present changes nothing. *)
Lemma subscript_present_pure (f : nat) (other : value) (name : key)
    (g : heap) (v : value) (g' : heap) :
  present other name g ->
  subscript f other (NKey name) g = Ok v g' -> g' = g.
Proof.
  intros Hp H. unfold subscript in H.
  destruct other as [| |t|o]; try discriminate.
  - cbn [key_of_name] in H. destruct name; try discriminate.
    destruct (py_index z (String.length t)); try discriminate.
    destruct (String.get n t); try discriminate.
    now apply ret_inv in H as [_ <-].
  - apply bind_inv in H as (ob & g1 & Hr & H).
    apply read_inv in Hr as [-> Hr].
    destruct ob as [items attrs|items|elems].
    + apply getitem_key_inv in H as (items' & attrs' & Hn & H).
      destruct H as [[_ ->]|(Hl & _)]; auto.
      exfalso. exact (Hp _ _ Hn Hl).
    + cbn [key_of_name] in H.
      destruct (lookup name items); try discriminate.
      now apply ret_inv in H as [_ <-].
    + cbn [key_of_name] in H. destruct name; try discriminate.
      destruct (py_index z (Datatypes.length elems)); try discriminate.
      destruct (nth_error elems n); try discriminate.
      now apply ret_inv in H as [_ <-].
Qed.

Lemma present_grow (other : value) (name : key) (g g' : heap) :
  grow g g' -> allocated g other -> present other name g ->
  present other name g'.
Proof.
  intros Hg Hal Hp. destruct other as [| | |o]; simpl in *; auto.
  intros items' attrs' Hn'.
  destruct (nth_error g o) as [ob|] eqn:Ho.
  - destruct ob as [items attrs|items|elems].
    + destruct (grow_node _ _ _ _ _ Hg Ho) as (items2 & Hn2 & Hk).
      rewrite Hn' in Hn2. injection Hn2 as <- <-.
      apply Hk. eapply Hp; eauto.
    + pose proof (grow_other _ _ _ _ Hg Ho) as E. simpl in E. congruence.
    + pose proof (grow_other _ _ _ _ Hg Ho) as E. simpl in E. congruence.
  - apply nth_error_None in Ho. lia.
Qed.

Lemma iterate_present (other : value) (g : heap) (names : list key) :
  iterate other g = Ok names g ->
  allocated g other /\ forall name, In name names -> present other name g.
Proof.
  unfold iterate. intros H. destruct other as [| | |o]; try discriminate.
  apply bind_inv in H as (ob & g1 & Hr & H).
  apply read_inv in Hr as [-> Hr].
  split; [simpl; eapply nth_error_lt; eauto|].
  intros name Hin items attrs Hn. rewrite Hr in Hn. injection Hn as ->.
  apply __iter___pure in H as (_ & (items' & attrs' & Hn' & Hp) & _).
  rewrite Hr in Hn'. injection Hn' as <- <-.
  apply lookup_In_keys.
  eapply Permutation_in; [apply Permutation_sym|]; eauto.
Qed.

(** ** [update] writes only the nodes reached from its receiver *)

Lemma update_step_footprint (rec : loc -> value -> M unit) (f : nat)
    (s : loc) (other : value) (name : key) (g : heap) (u : unit) (g' : heap)
    (sitems : items_t) sattrs :
  (forall l ov h r h', node_at h (VRef l) -> rec l ov h = Ok r h' ->
     edges_kept h h' /\ writes_within h h' l) ->
  nth_error g s = Some (ONode sitems sattrs) ->
  present other name g ->
  update_step rec f s other name g = Ok u g' ->
  edges_kept g g' /\ writes_within g g' s.
Proof.
  intros IH Hs Hp Hb. unfold update_step in Hb.
  apply bind_inv in Hb as (v & g1 & Hsub & Hb).
  pose proof (subscript_present_pure _ _ _ _ _ _ Hp Hsub) as ->.
  apply bind_inv in Hb as (b & g2 & Hnode & Hb).
  apply is_node_inv in Hnode as (-> & Hnode).
  assert (Hset : forall w gx,
             __setitem__ f s (NKey name) w g = Ok u gx ->
             edges_kept g gx /\ writes_within g gx s).
  { intros w gx Hw.
    destruct (setitem_edges_kept _ _ _ _ _ _ _ _ _ Hs Hw) as [He Hfr].
    split; auto. intros X _ HXs b0 Hb0 HXb. apply Hfr; auto.
    intros ->. contradiction. }
  destruct b.
  - apply bind_inv in Hb as (c & g2 & Hc & Hb).
    apply contains_inv in Hc as (-> & items & attrs & Hn & ->).
    rewrite Hs in Hn. injection Hn as <- <-.
    apply bind_inv in Hb as (bs & g2 & Hbs & Hb).
    assert (Hbs' : g2 = g /\
              (bs = false ->
               exists l, lookup name sitems = Some (VRef l) /\
                         node_at g (VRef l))).
    { unfold mem in Hbs.
      destruct (lookup name sitems) as [sv0|] eqn:Hl; cbn [negb] in Hbs.
      - apply bind_inv in Hbs as (sv & g3 & Hg & Hbs).
        destruct (getitem_key_present_inv _ _ _ _ _ _ _ _ _ Hs Hl Hg)
          as [-> ->].
        apply bind_inv in Hbs as (b' & g4 & Hn & Hbs).
        apply is_node_inv in Hn as (-> & Hn).
        apply ret_inv in Hbs as [<- <-]. split; auto.
        intros Hb'. destruct b'; [|discriminate].
        destruct (proj1 Hn eq_refl) as (l & its & ats & -> & Hln).
        exists l. split; auto. exists l, its, ats. auto.
      - apply ret_inv in Hbs as [<- <-]. split; auto. discriminate. }
    destruct Hbs' as [-> Hbsf]. clear Hbs.
    destruct bs.
    + apply bind_inv in Hb as (v1 & g3 & Hsub1 & Hb).
      pose proof (subscript_present_pure _ _ _ _ _ _ Hp Hsub1) as ->.
      apply bind_inv in Hb as (n & g4 & Hcopy & Hb).
      destruct v1 as [| | |l]; try discriminate. cbn [method] in Hcopy.
      pose proof (copy_frame _ _ _ _ _ Hcopy) as (-> & Hfc & _).
      destruct (copy_fresh _ _ _ _ _ _ _ (frame_refl (Datatypes.length g) g)
                  (le_n _) Hcopy) as [Hfe _].
      assert (Hs4 : nth_error g4 s = Some (ONode sitems sattrs)).
      { eapply frame_nth; eauto. eapply nth_error_lt; eauto. }
      destruct (setitem_edges_kept _ _ _ _ _ _ _ _ _ Hs4 Hb) as [He Hfr].
      split.
      * eapply edges_kept_trans; [apply frame_grow; eauto| |exact He].
        now apply edges_kept_fresh.
      * intros X _ HXs b0 Hb0 HXb.
        rewrite Hfr; [|intros ->; contradiction|destruct Hfc; lia].
        destruct Hfc as [_ Hfc]. now apply Hfc.
    + destruct (Hbsf eq_refl) as (l & Hl & Hln).
      apply bind_inv in Hb as (sv1 & g3 & Hg & Hb).
      destruct (getitem_key_present_inv _ _ _ _ _ _ _ _ _ Hs Hl Hg)
        as [-> ->].
      apply bind_inv in Hb as (ov & g4 & Hsub1 & Hb).
      pose proof (subscript_present_pure _ _ _ _ _ _ Hp Hsub1) as ->.
      cbn [method] in Hb.
      destruct (IH _ _ _ _ _ Hln Hb) as [He Hw].
      split; auto.
      intros X Hcl HXs. apply Hw; auto.
      eapply Hcl; eauto.
  - apply bind_inv in Hb as (v1 & g2 & Hsub1 & Hb).
    pose proof (subscript_present_pure _ _ _ _ _ _ Hp Hsub1) as ->.
    eapply Hset; eauto.
Qed.

Lemma update_footprint (f : nat) :
  forall (s : loc) (other : value) (g : heap) (u : unit) (g' : heap),
    node_at g (VRef s) ->
    update f s other g = Ok u g' ->
    edges_kept g g' /\ writes_within g g' s.
Proof.
  induction f as [|f IH]; intros s other g u g' Hs H; [discriminate|].
  destruct Hs as (s' & sitems & sattrs & E & Hs). injection E as <-.
  cbn [update] in H.
  apply bind_inv in H as (names & g0 & Hit & Hloop).
  pose proof (iterate_pure _ _ _ _ Hit) as ->.
  destruct (iterate_present _ _ _ Hit) as [Hal Hpres].
  assert (Hend : grow g g' /\ edges_kept g g' /\ writes_within g g' s).
  { revert Hloop.
    apply (forM_invariant
             (fun gi => grow g gi /\ edges_kept g gi /\
                        writes_within g gi s)).
    - intros name gi u0 gi' Hin (Hg & He & Hw) Hb.
      destruct (grow_node _ _ _ _ _ Hg Hs) as (sitems' & Hsi & _).
      assert (Hp : present other name gi).
      { eapply present_grow; eauto. }
      assert (Hgi : grow gi gi').
      { eapply update_step_grow; [|exact Hb].
        intros l ov h2 r2 h3 Hrec. eapply update_grow; eauto. }
      destruct (update_step_footprint _ _ _ _ _ _ _ _ _ _
                  (fun l ov h r h' Hl Hrec => IH l ov h r h' Hl Hrec)
                  Hsi Hp Hb) as [Hei Hwi].
      split; [eapply grow_trans; eauto|].
      split; [eapply edges_kept_trans; eauto|].
      intros X Hcl HXs b Hb0 HXb.
      rewrite <- (Hw X Hcl HXs b Hb0 HXb).
      apply (Hwi (fun a => ((a < Datatypes.length g)%nat /\ X a) \/
                           (Datatypes.length g <= a)%nat)).
      + intros a items attrs k c Ha Hna Hl Hc.
        destruct (Nat.lt_ge_cases c (Datatypes.length g)) as [Hlt|Hge];
          [|now right].
        left. split; auto.
        pose proof (grow_node_at_back _ _ _ Hg Hlt Hc) as Hcg.
        destruct (He a items attrs k c Hna Hl Hcg)
          as (items0 & attrs0 & Hn0 & Hl0).
        destruct Ha as [[_ HXa]|Hge].
        * eapply Hcl; eauto.
        * apply nth_error_lt in Hn0. lia.
      + destruct (Nat.lt_ge_cases s (Datatypes.length g)); [left|right]; auto.
      + destruct Hg. lia.
      + intros [[_ HX]|Hge]; [contradiction | lia].
    - split; [apply grow_refl|]. split; [apply edges_kept_refl|].
      intros X _ _ b _ _. reflexivity. }
  destruct Hend as (_ & He & Hw). auto.
Qed.

(** ** The receiver after [update] *)

Lemma reach_snoc (g : heap) (l a c : loc) (items : items_t) attrs (k : key) :
  reach g l a ->
  nth_error g a = Some (ONode items attrs) ->
  lookup k items = Some (VRef c) ->
  node_at g (VRef c) ->
  reach g l c.
Proof.
  intros Hr. revert c items attrs k.
  induction Hr as [a|a c0 b its ats k0 cits cats Hn Hl Hc Hr IH];
    intros c items attrs k Hna Hlk (c' & ci & ca & E & Hnc).
  - injection E as <-. eapply reach_step; eauto. apply reach_refl.
  - eapply reach_step; eauto. eapply IH; eauto. exists c', ci, ca. auto.
Qed.

Lemma reach_closed (g : heap) (l : loc) : closed g (fun b => reach g l b).
Proof. intros a items attrs k c Ha Hn Hl Hc. eapply reach_snoc; eauto. Qed.

(** A path of the new heap that ends at an old node is a path of the old
    heap. *)
Lemma reach_old (h g : heap) (a b : loc) :
  grow h g -> edges_kept h g ->
  reach g a b -> (b < Datatypes.length h)%nat -> reach h a b.
Proof.
  intros Hg He Hr Hb.
  induction Hr as [a|a c b items attrs k cits cats Hn Hl Hc Hr IH].
  - apply reach_refl.
  - specialize (IH Hb).
    assert (Hclt : (c < Datatypes.length h)%nat).
    { inversion IH; subst; auto. eapply nth_error_lt; eauto. }
    assert (Hch : node_at h (VRef c)).
    { apply (grow_node_at_back h g c Hg Hclt). exists c, cits, cats. auto. }
    destruct (He a items attrs k c Hn Hl Hch) as (items0 & attrs0 & Hn0 & Hl0).
    destruct Hch as (c' & ci & ca & E & Hnc). injection E as <-.
    eapply reach_step; eauto.
Qed.

Lemma new_node_grow (h g g' : heap) (w : value) :
  grow g g' -> new_node h g w -> new_node h g' w.
Proof.
  intros Hg (c & nitems & -> & Hc & Hn).
  destruct (grow_node _ _ _ _ _ Hg Hn) as (nitems' & Hn' & _).
  exists c, nitems'. auto.
Qed.

Lemma copied_grow (h g g' : heap) (v w : value) :
  grow g g' -> copied h g v w -> copied h g' v w.
Proof.
  intros Hg [Hc|(Hm & c & nitems & -> & Hc & Hn)]; [left; exact Hc|].
  right. split; auto.
  destruct (grow_node _ _ _ _ _ Hg Hn) as (nitems' & Hn' & _).
  exists c, nitems'. auto.
Qed.

Lemma updated_grow (h g g' : heap) (sv : option value) (v w : value) :
  grow g g' -> updated h g sv v w -> updated h g' sv v w.
Proof.
  intros Hg [H|[(H1 & H2 & H3)|(H1 & H2)]].
  - left. exact H.
  - right. left. split; auto. split; auto. eapply new_node_grow; eauto.
  - right. right. split; auto. eapply copied_grow; eauto.
Qed.

Lemma node_at_grow_iff (h g : heap) (v : value) :
  grow h g -> allocated h v -> (node_at h v <-> node_at g v).
Proof.
  intros Hg Hal. split; [now apply grow_node_at|].
  intros Hn. pose proof Hn as (l & items & attrs & -> & _).
  now apply (grow_node_at_back h g l Hg Hal).
Qed.

Lemma mapping_at_grow_iff (h g : heap) (v : value) :
  grow h g -> allocated h v -> (mapping_at h v <-> mapping_at g v).
Proof.
  intros Hg Hal. split.
  - intros (l & o & -> & Hn & Ho).
    destruct o as [items attrs|items|elems]; try contradiction.
    + destruct (grow_node _ _ _ _ _ Hg Hn) as (items' & Hn' & _).
      exists l, (ONode items' attrs). auto.
    + pose proof (grow_other _ _ _ _ Hg Hn) as E. simpl in E.
      exists l, (ODict items). auto.
  - intros (l & o' & -> & Hn' & Ho'). simpl in Hal.
    destruct (nth_error h l) as [o|] eqn:Hn.
    + destruct Hg as [_ Hg]. destruct (Hg l o Hn) as (o2 & Hn2 & Hgo).
      rewrite Hn' in Hn2. injection Hn2 as <-.
      exists l, o. split; auto. split; auto.
      destruct o, o'; simpl in *; auto; try discriminate.
    + apply nth_error_None in Hn. lia.
Qed.

Lemma subscript_mapping_inv (f : nat) (o : loc) (name : key) (g : heap)
    (oobj : obj) (oitems : items_t) (v v' : value) (g1 : heap) :
  nth_error g o = Some oobj ->
  items_of oobj = Some oitems ->
  lookup name oitems = Some v ->
  subscript f (VRef o) (NKey name) g = Ok v' g1 ->
  v' = v /\ g1 = g.
Proof.
  intros Hn Hi Hl H. unfold subscript in H.
  rewrite (bind_ok _ _ _ _ _ (read_ok _ _ _ Hn)) in H.
  destruct oobj as [items attrs|items|elems]; simpl in Hi;
    try discriminate; injection Hi as ->.
  - eapply getitem_key_present_inv; eauto.
  - cbn [key_of_name] in H. rewrite Hl in H.
    apply ret_inv in H as [<- <-]. auto.
Qed.

Section UpdateFinal.

Variables (h : heap) (self o : loc) (sitems oitems : items_t)
          (attrs : list (string * value)) (oobj : obj).

Hypothesis Hs : nth_error h self = Some (ONode sitems attrs).
Hypothesis Ho : nth_error h o = Some oobj.
Hypothesis Hoi : items_of oobj = Some oitems.
Hypothesis Hne : self <> o.
Hypothesis Halo : forall k v, lookup k oitems = Some v -> allocated h v.
Hypothesis Hals : forall k v, lookup k sitems = Some v -> allocated h v.
Hypothesis Hsep :
  forall k l, lookup k sitems = Some (VRef l) -> node_at h (VRef l) ->
              ~ reach h l self /\ ~ reach h l o.

(** One iteration of [update], for a key that the receiver still holds as
    it did at the start. *)
Lemma update_step_final (f : nat) (name : key) (v : value) (g : heap)
    (gitems : items_t) (u : unit) (g' : heap) :
  grow h g -> edges_kept h g ->
  nth_error g o = Some oobj ->
  nth_error g self = Some (ONode gitems attrs) ->
  lookup name oitems = Some v ->
  lookup name gitems = lookup name sitems ->
  update_step (update f) f self (VRef o) name g = Ok u g' ->
  grow g g' /\ edges_kept g g' /\
  nth_error g' o = Some oobj /\
  exists gitems' w,
    nth_error g' self = Some (ONode gitems' attrs) /\
    lookup name gitems' = Some w /\
    (forall k, k <> name -> lookup k gitems' = lookup k gitems) /\
    updated h g' (lookup name sitems) v w.
Proof.
  intros Hg He Hog Hsg Hv Hsame Hb.
  assert (Hgg : grow g g').
  { eapply update_step_grow; [|exact Hb].
    intros l ov h2 r2 h3 Hrec. eapply update_grow; eauto. }
  split; [exact Hgg|].
  assert (Hself : (self < Datatypes.length h)%nat)
    by (eapply nth_error_lt; eauto).
  assert (Holt : (o < Datatypes.length h)%nat)
    by (eapply nth_error_lt; eauto).
  assert (Hlen : (Datatypes.length h <= Datatypes.length g)%nat)
    by (destruct Hg; auto).
  unfold update_step in Hb.
  apply bind_inv in Hb as (v0 & g1 & Hsub & Hb).
  destruct (subscript_mapping_inv _ _ _ _ _ _ _ _ _ Hog Hoi Hv Hsub)
    as [-> ->]; clear Hsub.
  apply bind_inv in Hb as (b & g2 & Hnode & Hb).
  apply is_node_inv in Hnode as (-> & Hnode).
  assert (Hnv : b = true <-> node_at h v).
  { rewrite (node_at_grow_iff h g v Hg (Halo _ _ Hv)). exact Hnode. }
  clear Hnode.
  (* what a plain assignment [self[name] = w0] does *)
  assert (Hassign : forall w0 gx gy,
             frame (Datatypes.length g) g gx ->
             __setitem__ f self (NKey name) w0 gx = Ok u gy ->
             nth_error gy o = Some oobj /\
             exists gitems' w,
               nth_error gy self = Some (ONode gitems' attrs) /\
               lookup name gitems' = Some w /\
               (forall k, k <> name -> lookup k gitems' = lookup k gitems) /\
               ((~ mapping_at gx w0 /\ w = w0) \/
                (mapping_at gx w0 /\
                 exists c nitems, w = VRef c /\
                   (Datatypes.length gx <= c)%nat /\
                   nth_error gy c = Some (ONode nitems [])))).
  { intros w0 gx gy Hfx Hset.
    assert (Hsx : nth_error gx self = Some (ONode gitems attrs)).
    { eapply frame_nth; eauto. lia. }
    destruct (setitem_key_inv _ _ _ _ _ _ _ _ _ Hsx Hset)
      as (w & gz & Hfz & -> & Hpost & Hcase).
    split.
    { rewrite nth_error_update_nth_other by auto.
      destruct Hfz as [Hlz Hfz]. rewrite Hfz by (destruct Hfx; lia).
      destruct Hfx as [_ Hfx]. rewrite Hfx by lia. exact Hog. }
    exists (assoc_set name w gitems), w. split; [exact Hpost|].
    split; [apply lookup_assoc_set_same|].
    split; [intros k Hk; now apply lookup_assoc_set_other|].
    destruct Hcase as [(Hc1 & Hc2 & _)|(Hm & -> & nitems & Hnn)];
      [left; split; assumption|].
    right. split; auto.
    exists (Datatypes.length gx), nitems. split; auto. split; auto.
    rewrite nth_error_update_nth_other; auto.
    destruct Hfx. lia. }
  destruct b.
  - assert (Hvn : node_at h v) by (now apply Hnv).
    apply bind_inv in Hb as (c & g2 & Hc & Hb).
    apply contains_inv in Hc as (-> & items & attrs' & Hn & ->).
    rewrite Hsg in Hn. injection Hn as <- <-.
    apply bind_inv in Hb as (bs & g2 & Hbs & Hb).
    assert (Hbs' : g2 = g /\ (bs = false <-> node_child h (lookup name sitems))).
    { unfold mem in Hbs. rewrite Hsame in Hbs.
      destruct (lookup name sitems) as [sv0|] eqn:Hl; cbn [negb] in Hbs.
      - apply bind_inv in Hbs as (sv & g3 & Hgt & Hbs).
        destruct (getitem_key_present_inv _ _ _ _ _ _ _ _ _ Hsg Hsame Hgt)
          as [-> ->].
        apply bind_inv in Hbs as (b' & g4 & Hn & Hbs).
        apply is_node_inv in Hn as (-> & Hn).
        apply ret_inv in Hbs as [<- <-]. split; auto.
        assert (Hal : allocated h sv0) by (eapply Hals; eauto).
        rewrite <- (node_at_grow_iff h g sv0 Hg Hal) in Hn.
        split.
        + intros Hb'. destruct b'; [|discriminate].
          pose proof (proj1 Hn eq_refl) as Hnn.
          pose proof Hnn as (l & its & ats & -> & _).
          exists l. auto.
        + intros (l & E & Hnl). injection E as ->.
          now rewrite (proj2 Hn Hnl).
      - apply ret_inv in Hbs as [<- <-]. split; auto.
        split; [discriminate|]. intros (l & E & _). discriminate. }
    destruct Hbs' as [-> Hbsf]. clear Hbs.
    destruct bs.
    + (* a copy of the node of [other] replaces what the receiver had *)
      apply bind_inv in Hb as (v1 & g3 & Hsub & Hb).
      destruct (subscript_mapping_inv _ _ _ _ _ _ _ _ _ Hog Hoi Hv Hsub)
        as [-> ->]; clear Hsub.
      apply bind_inv in Hb as (n & g4 & Hcopy & Hb).
      pose proof Hvn as (l & vits & vats & -> & _).
      cbn [method] in Hcopy.
      pose proof (copy_frame _ _ _ _ _ Hcopy) as (-> & Hfc & _).
      destruct (copy_fresh _ _ _ _ _ _ _ (frame_refl (Datatypes.length g) g)
                  (le_n _) Hcopy) as [Hfe [citems Hcn]].
      assert (Hs4 : nth_error g4 self = Some (ONode gitems attrs)).
      { eapply frame_nth; eauto. lia. }
      destruct (setitem_edges_kept _ _ _ _ _ _ _ _ _ Hs4 Hb) as [Hek _].
      split.
      { eapply edges_kept_trans; [apply frame_grow; eauto| |exact Hek].
        now apply edges_kept_fresh. }
      destruct (Hassign _ _ _ Hfc Hb) as (Hog' & gitems' & w & H1 & H2 & H3 & H4).
      split; [exact Hog'|].
      exists gitems', w. split; auto. split; auto. split; auto.
      right. left. split; auto. split.
      * intros Hch. apply Hbsf in Hch. discriminate.
      * destruct H4 as [(Hnm & _)|(_ & c & nitems & -> & Hc & Hnn)].
        -- exfalso. apply Hnm. eapply node_is_mapping; eauto.
        -- exists c, nitems. split; auto. split; auto.
           destruct Hfc. lia.
    + (* both are nodes: the node of the receiver is updated in place *)
      destruct (proj1 Hbsf eq_refl) as (l & Hl & Hln).
      assert (Hlg : lookup name gitems = Some (VRef l)) by congruence.
      apply bind_inv in Hb as (sv1 & g3 & Hgt & Hb).
      destruct (getitem_key_present_inv _ _ _ _ _ _ _ _ _ Hsg Hlg Hgt)
        as [-> ->].
      apply bind_inv in Hb as (ov & g4 & Hsub & Hb).
      destruct (subscript_mapping_inv _ _ _ _ _ _ _ _ _ Hog Hoi Hv Hsub)
        as [-> ->]; clear Hsub.
      cbn [method] in Hb.
      assert (Hlng : node_at g (VRef l)) by (eapply grow_node_at; eauto).
      destruct (update_footprint _ _ _ _ _ _ Hlng Hb) as [Hek Hw].
      split; [exact Hek|].
      destruct (Hsep _ _ Hl Hln) as [Hnself Hno].
      assert (Hun : forall b, (b < Datatypes.length h)%nat ->
                      ~ reach h l b -> nth_error g' b = nth_error g b).
      { intros b Hb0 Hnr.
        apply (Hw (fun a => reach g l a)).
        - apply reach_closed.
        - apply reach_refl.
        - lia.
        - intros Hr. apply Hnr. eapply reach_old; eauto. }
      split; [rewrite (Hun o Holt Hno); exact Hog|].
      exists gitems, (VRef l).
      split; [rewrite (Hun self Hself Hnself); exact Hsg|].
      split; auto. split; auto.
      left. split; auto. split; [exists l; auto|exact Hl].
  - (* the value of [other] is not a node: it is assigned *)
    assert (Hvn : ~ node_at h v).
    { intros Hn. apply Hnv in Hn. discriminate. }
    apply bind_inv in Hb as (v1 & g2 & Hsub & Hb).
    destruct (subscript_mapping_inv _ _ _ _ _ _ _ _ _ Hog Hoi Hv Hsub)
      as [-> ->]; clear Hsub.
    destruct (setitem_edges_kept _ _ _ _ _ _ _ _ _ Hsg Hb) as [Hek _].
    split; [exact Hek|].
    destruct (Hassign _ _ _ (frame_refl _ _) Hb)
      as (Hog' & gitems' & w & H1 & H2 & H3 & H4).
    split; [exact Hog'|].
    exists gitems', w. split; auto. split; auto. split; auto.
    right. right. split; auto.
    pose proof (mapping_at_grow_iff h g v Hg (Halo _ _ Hv)) as Hmi.
    destruct H4 as [(Hnm & ->)|(Hm & c & nitems & -> & Hc & Hnn)].
    + left. split; [tauto | reflexivity].
    + right. split; [tauto|].
      exists c, nitems. split; auto. split; [lia | auto].
Qed.

End UpdateFinal.

Lemma key_eq_dec (a b : key) : {a = b} + {a <> b}.
Proof.
  destruct (key_eqb a b) eqn:E.
  - left. now apply key_eqb_eq.
  - right. now apply key_eqb_neq.
Qed.

Lemma iterate_items (o : loc) (h : heap) (oobj : obj) (oitems : items_t)
    (names : list key) (h' : heap) :
  nth_error h o = Some oobj ->
  items_of oobj = Some oitems ->
  iterate (VRef o) h = Ok names h' ->
  h' = h /\ Permutation (keys oitems) names.
Proof.
  intros Hn Hi H. unfold iterate in H.
  rewrite (bind_ok _ _ _ _ _ (read_ok _ _ _ Hn)) in H.
  destruct oobj as [items attrs|items|elems]; simpl in Hi;
    try discriminate; injection Hi as ->.
  - apply __iter___pure in H as (-> & (items' & attrs' & Hn' & Hp) & _).
    rewrite Hn in Hn'. injection Hn' as <- <-. auto.
  - apply ret_inv in H as [<- <-]. auto.
Qed.

(** The receiver after [update], for a receiver and another mapping that are
    distinct objects, the nodes under the receiver reaching neither. *)
Lemma update_final (f : nat) (h : heap) (self o : loc)
    (sitems oitems : items_t) (attrs : list (string * value)) (oobj : obj)
    (u : unit) (h' : heap) :
  nth_error h self = Some (ONode sitems attrs) ->
  nth_error h o = Some oobj ->
  items_of oobj = Some oitems ->
  self <> o ->
  NoDup (keys oitems) ->
  (forall k v, lookup k oitems = Some v -> allocated h v) ->
  (forall k v, lookup k sitems = Some v -> allocated h v) ->
  (forall k l, lookup k sitems = Some (VRef l) -> node_at h (VRef l) ->
               ~ reach h l self /\ ~ reach h l o) ->
  update f self (VRef o) h = Ok u h' ->
  grow h h' /\
  nth_error h' o = Some oobj /\
  exists sitems',
    nth_error h' self = Some (ONode sitems' attrs) /\
    forall k,
      match lookup k oitems with
      | None => lookup k sitems' = lookup k sitems
      | Some v =>
          exists w, lookup k sitems' = Some w /\
                    updated h h' (lookup k sitems) v w
      end.
Proof.
  intros Hs Ho Hoi Hne Hnd Halo Hals Hsep H.
  destruct f as [|f]; [discriminate|].
  cbn [update] in H.
  apply bind_inv in H as (names & h0 & Hit & Hloop).
  destruct (iterate_items _ _ _ _ _ _ Ho Hoi Hit) as [-> Hp].
  assert (Hend :
    NoDup (@nil key) /\
    (forall x, In x (@nil key) -> In x (keys oitems)) /\
    grow h h' /\ edges_kept h h' /\
    nth_error h' o = Some oobj /\
    exists gitems,
      nth_error h' self = Some (ONode gitems attrs) /\
      forall k,
        match lookup k oitems with
        | None => lookup k gitems = lookup k sitems
        | Some v =>
            (In k [] -> lookup k gitems = lookup k sitems) /\
            (~ In k [] ->
             exists w, lookup k gitems = Some w /\
                       updated h h' (lookup k sitems) v w)
        end).
  { revert Hloop.
    apply (forM_suffix
             (fun rest g =>
                NoDup rest /\
                (forall x, In x rest -> In x (keys oitems)) /\
                grow h g /\ edges_kept h g /\
                nth_error g o = Some oobj /\
                exists gitems,
                  nth_error g self = Some (ONode gitems attrs) /\
                  forall k,
                    match lookup k oitems with
                    | None => lookup k gitems = lookup k sitems
                    | Some v =>
                        (In k rest -> lookup k gitems = lookup k sitems) /\
                        (~ In k rest ->
                         exists w, lookup k gitems = Some w /\
                                   updated h g (lookup k sitems) v w)
                    end)).
    - intros name rest g u0 g'
        (Hnd' & Hin & Hg & He & Hog & gitems & Hsg & Hent) Hb.
      apply NoDup_cons_iff in Hnd' as [Hnotin Hnd'].
      assert (Hv : exists v, lookup name oitems = Some v).
      { assert (Hk : In name (keys oitems)) by (apply Hin; now left).
        apply lookup_In_keys in Hk.
        destruct (lookup name oitems) as [v|]; [eauto | congruence]. }
      destruct Hv as [v Hv].
      assert (Hsame : lookup name gitems = lookup name sitems).
      { specialize (Hent name). rewrite Hv in Hent.
        apply Hent. now left. }
      destruct (update_step_final h self o sitems oitems attrs oobj
                  Hs Ho Hoi Hne Halo Hals Hsep
                  f name v g gitems u0 g' Hg He Hog Hsg Hv Hsame Hb)
        as (Hgg & Hek & Hog' & gitems' & w & Hsg' & Hlw & Hoth & Hupd).
      split; [exact Hnd'|].
      split; [intros x Hx; apply Hin; now right|].
      split; [eapply grow_trans; eauto|].
      split; [eapply edges_kept_trans; eauto|].
      split; [exact Hog'|].
      exists gitems'. split; [exact Hsg'|].
      intros k. specialize (Hent k).
      destruct (key_eq_dec k name) as [->|Hkn].
      + rewrite Hv. split; [intros Hr; contradiction|].
        intros _. exists w. auto.
      + rewrite (Hoth k Hkn).
        destruct (lookup k oitems) as [v0|]; auto.
        destruct Hent as [Hin1 Hout1]. split.
        * intros Hr. apply Hin1. now right.
        * intros Hr.
          destruct Hout1 as (w0 & Hl0 & Hu0).
          { intros [E|Hr']; [congruence | contradiction]. }
          exists w0. split; auto. eapply updated_grow; eauto.
    - split; [eapply Permutation_NoDup; eauto|].
      split.
      { intros x Hx.
        eapply Permutation_in; [apply Permutation_sym|]; eauto. }
      split; [apply grow_refl|]. split; [apply edges_kept_refl|].
      split; [exact Ho|].
      exists sitems. split; [exact Hs|].
      intros k. destruct (lookup k oitems) as [v|] eqn:Hl; auto.
      split; auto. intros Hnot. exfalso. apply Hnot.
      eapply Permutation_in; [exact Hp|].
      apply lookup_In_keys. congruence. }
  destruct Hend as (_ & _ & Hg & _ & Hog & gitems & Hsg & Hent).
  split; [exact Hg|]. split; [exact Hog|].
  exists gitems. split; [exact Hsg|].
  intros k. specialize (Hent k).
  destruct (lookup k oitems); auto.
  destruct Hent as [_ Hout]. apply Hout. intros [].
Qed.




(** * Further properties of the methods *)

(** ** Iteration does not depend on the insertion order *)

Lemma key_le_antisym (a b : key) : key_le a b -> key_le b a -> a = b.
Proof.
  destruct a as [s|x], b as [t|y]; simpl; try contradiction.
  - intros H1 H2. f_equal. now apply String.leb_antisym.
  - intros H1 H2. f_equal. lia.
Qed.

Lemma sorted_perm_eq (l1 : list key) :
  forall l2,
    StronglySorted key_le l1 -> StronglySorted key_le l2 ->
    NoDup l1 -> Permutation l1 l2 -> l1 = l2.
Proof.
  induction l1 as [|a r1 IH]; intros l2 S1 S2 N1 P.
  - apply Permutation_nil in P. now subst.
  - destruct l2 as [|b r2].
    { apply Permutation_sym, Permutation_nil in P. discriminate. }
    assert (a = b) as <-.
    { destruct (key_eq_dec a b) as [E|NE]; [exact E|].
      assert (Ha : In a (b :: r2))
        by (eapply Permutation_in; [exact P|now left]).
      assert (Hb : In b (a :: r1))
        by (eapply Permutation_in; [apply Permutation_sym; exact P|now left]).
      destruct Ha as [Ha|Ha]; [now symmetry in Ha|].
      destruct Hb as [Hb|Hb]; [contradiction|].
      apply StronglySorted_inv in S1 as [_ S1].
      apply StronglySorted_inv in S2 as [_ S2].
      rewrite Forall_forall in S1, S2.
      apply key_le_antisym; auto. }
    f_equal. apply IH.
    + now apply StronglySorted_inv in S1.
    + now apply StronglySorted_inv in S2.
    + now inversion N1.
    + eapply Permutation_cons_inv; exact P.
Qed.

(** X1.  Two nodes that hold the same keys, all strings or all integers, are
    iterated in the same order, whatever the order in which the keys were
    inserted.  Keys of both types do not have this property: the keys
    [1] and ['1'] have the same string form and are iterated in insertion
    order. *)
Theorem iter_insertion_order (h1 h2 : heap) (s1 s2 : loc)
    (items1 items2 : items_t) (attrs1 attrs2 : list (string * value)) :
  nth_error h1 s1 = Some (ONode items1 attrs1) ->
  nth_error h2 s2 = Some (ONode items2 attrs2) ->
  NoDup (keys items1) ->
  Permutation (keys items1) (keys items2) ->
  (forall a b, In a (keys items1) -> In b (keys items1) ->
               is_str a = is_str b) ->
  (exists ks, __iter__ s1 h1 = Ok ks h1 /\ __iter__ s2 h2 = Ok ks h2) /\
  __iter__ 0 [ONode [(KInt 1, VNone); (KStr "1", VNone)] []]
  = Ok [KInt 1; KStr "1"] [ONode [(KInt 1, VNone); (KStr "1", VNone)] []] /\
  __iter__ 0 [ONode [(KStr "1", VNone); (KInt 1, VNone)] []]
  = Ok [KStr "1"; KInt 1] [ONode [(KStr "1", VNone); (KInt 1, VNone)] []].
Proof.
  intros H1 H2 N P T. split; [|split; reflexivity].
  rewrite (__iter___eq _ _ _ _ H1), (__iter___eq _ _ _ _ H2).
  assert (T2 : forall a b, In a (keys items2) -> In b (keys items2) ->
                           is_str a = is_str b).
  { intros a b Ha Hb. apply T; eapply Permutation_in;
      try (apply Permutation_sym; exact P); assumption. }
  destruct (sorted_lt (keys items1)) as [l1|] eqn:E1;
    [|exfalso; now apply (sorted_lt_Some _ T)].
  destruct (sorted_lt (keys items2)) as [l2|] eqn:E2;
    [|exfalso; now apply (sorted_lt_Some _ T2)].
  assert (l1 = l2) as <-.
  { apply sorted_perm_eq.
    - eapply sorted_lt_sorted; eauto.
    - eapply sorted_lt_sorted; eauto.
    - eapply Permutation_NoDup; [|exact N]. eapply sorted_lt_perm; eauto.
    - eapply Permutation_trans;
        [apply Permutation_sym; eapply sorted_lt_perm; eauto|].
      eapply Permutation_trans; [exact P|]. eapply sorted_lt_perm; eauto. }
  exists l1. split; reflexivity.
Qed.

(** X1, witness. *)
Lemma iter_insertion_order_witness :
  exists ks,
    __iter__ 0 [ONode [(KStr "b", VNone); (KStr "A", VNone)] []]
    = Ok ks [ONode [(KStr "b", VNone); (KStr "A", VNone)] []] /\
    __iter__ 0 [ONode [(KStr "A", VInt 1); (KStr "b", VNone)] []]
    = Ok ks [ONode [(KStr "A", VInt 1); (KStr "b", VNone)] []].
Proof.
  refine (proj1 (iter_insertion_order
            [ONode [(KStr "b", VNone); (KStr "A", VNone)] []]
            [ONode [(KStr "A", VInt 1); (KStr "b", VNone)] []]
            0 0 _ _ _ _ eq_refl eq_refl _ _ _)).
  - simpl. repeat constructor; simpl; intuition discriminate.
  - simpl. apply perm_swap.
  - simpl. intros a b [<-|[<-|[]]] [<-|[<-|[]]]; reflexivity.
Defined.

(** ** Storing, reading and deleting an item *)

Lemma is_dict_leaf (v : value) (h : heap) :
  allocated h v -> ~ mapping_at h v -> is_dict v h = Ok false h.
Proof.
  intros Ha Hm. destruct v as [| |s|l]; try reflexivity.
  simpl in Ha. apply nth_error_Some in Ha.
  destruct (nth_error h l) as [o|] eqn:E; [|congruence].
  unfold is_dict. rewrite (bind_ok _ _ _ _ _ (read_ok _ _ _ E)).
  destruct o; try reflexivity; exfalso; apply Hm;
    eexists _, _; (split; [reflexivity|split; [exact E|exact I]]).
Qed.

(** [__setitem__] with a plain key and a value that is not a mapping. *)
Lemma setitem_leaf_ok (f : nat) (self : loc) (k : key) (v : value)
    (h : heap) (items : items_t) (attrs : list (string * value)) :
  nth_error h self = Some (ONode items attrs) ->
  allocated h v -> ~ mapping_at h v ->
  __setitem__ f self (NKey k) v h
  = Ok tt (update_nth self (ONode (assoc_set k v items) attrs) h).
Proof.
  intros Hs Ha Hm. unfold __setitem__, __setitem__with.
  unfold bind at 1. unfold resolve. cbn [is_ig]. unfold ret at 1.
  rewrite (bind_ok _ _ _ _ _ (is_dict_leaf _ _ Ha Hm)).
  unfold bind at 1, ret at 1. cbn [key_of_name].
  now apply dict_set_ok.
Qed.

Lemma lookup_assoc_del_other (k k0 : key) (m : items_t) :
  k0 <> k -> lookup k0 (assoc_del k m) = lookup k0 m.
Proof.
  intros Hne. induction m as [|[k' v'] r IH]; simpl; auto.
  destruct (key_eqb k k') eqn:E.
  - apply key_eqb_eq in E. subst k'.
    apply key_eqb_neq in Hne. now rewrite Hne.
  - simpl. now rewrite IH.
Qed.

Lemma lookup_assoc_del_same (k : key) (m : items_t) :
  NoDup (keys m) -> lookup k (assoc_del k m) = None.
Proof.
  induction m as [|[k' v'] r IH]; simpl; intros N; auto.
  inversion N as [|? ? Hin N']; subst.
  destruct (key_eqb k k') eqn:E.
  - apply key_eqb_eq in E. subst k'.
    destruct (lookup k r) eqn:El; auto.
    exfalso. apply Hin. apply lookup_In_keys. congruence.
  - simpl. rewrite E. auto.
Qed.

(** X2.  After [s[k] = v], for a value [v] that is not a mapping, [s[k]] reads
    [v] back and leaves the store as it is, [k in s] holds, every other key
    of [s] has the value it had, and no other object has changed. *)
Theorem setitem_then_getitem (f f' : nat) (h : heap) (self : loc)
    (items : items_t) (attrs : list (string * value)) (k : key) (v : value) :
  nth_error h self = Some (ONode items attrs) ->
  allocated h v -> ~ mapping_at h v ->
  exists items',
    let h' := update_nth self (ONode items' attrs) h in
    __setitem__ f self (NKey k) v h = Ok tt h' /\
    __getitem__ (S f') self (NKey k) h' = Ok v h' /\
    __contains__ self (NKey k) h' = Ok true h' /\
    (forall k', k' <> k -> lookup k' items' = lookup k' items) /\
    (forall l, l <> self -> nth_error h' l = nth_error h l).
Proof.
  intros Hs Ha Hm. exists (assoc_set k v items). cbn zeta.
  assert (Hs' : nth_error
                  (update_nth self (ONode (assoc_set k v items) attrs) h) self
                = Some (ONode (assoc_set k v items) attrs)).
  { apply nth_error_update_nth_same. eapply nth_error_lt; eauto. }
  split; [now apply setitem_leaf_ok|].
  split; [eapply getitem_present; [exact Hs'|apply lookup_assoc_set_same]|].
  split.
  - rewrite (contains_ok _ _ _ _ _ Hs'). unfold mem.
    now rewrite lookup_assoc_set_same.
  - split.
    + intros k' Hk. now apply lookup_assoc_set_other.
    + intros l Hl. now apply nth_error_update_nth_other.
Qed.

(** X2, witness. *)
Lemma setitem_then_getitem_witness :
  exists items',
    let h' := update_nth 0 (ONode items' []) [ONode [(KStr "a", VInt 1)] []] in
    __setitem__ 0 0 (NKey (KStr "b")) (VInt 2) [ONode [(KStr "a", VInt 1)] []]
    = Ok tt h' /\
    __getitem__ 1 0 (NKey (KStr "b")) h' = Ok (VInt 2) h' /\
    __contains__ 0 (NKey (KStr "b")) h' = Ok true h' /\
    (forall k', k' <> KStr "b" ->
                lookup k' items' = lookup k' [(KStr "a", VInt 1)]) /\
    (forall l, l <> 0%nat ->
               nth_error h' l = nth_error [ONode [(KStr "a", VInt 1)] []] l).
Proof.
  apply (setitem_then_getitem 0 0 [ONode [(KStr "a", VInt 1)] []] 0
           [(KStr "a", VInt 1)] [] (KStr "b") (VInt 2) eq_refl I).
  intros (l & o & E & _). discriminate.
Defined.

(** X3.  [del s[k]] on a key that is present removes that key and no other:
    afterwards [k in s] is false and every other key has the value it had;
    on a key that is absent it raises [KeyError]. *)
Theorem delitem_removes (h : heap) (self : loc) (items : items_t)
    (attrs : list (string * value)) (k : key) :
  nth_error h self = Some (ONode items attrs) ->
  NoDup (keys items) ->
  (lookup k items = None -> __delitem__ self (NKey k) h = Raise KeyError) /\
  (lookup k items <> None ->
   exists items',
     let h' := update_nth self (ONode items' attrs) h in
     __delitem__ self (NKey k) h = Ok tt h' /\
     __contains__ self (NKey k) h' = Ok false h' /\
     (forall k', k' <> k -> lookup k' items' = lookup k' items) /\
     (forall l, l <> self -> nth_error h' l = nth_error h l)).
Proof.
  intros Hs N.
  assert (Hd : __delitem__ self (NKey k) h
               = if mem k items
                 then Ok tt (update_nth self
                               (ONode (assoc_del k items) attrs) h)
                 else Raise KeyError).
  { unfold __delitem__. unfold bind at 1. unfold resolve. cbn [is_ig].
    unfold ret at 1. rewrite (bind_ok _ _ _ _ _ (read_ok _ _ _ Hs)).
    cbn [key_of_name]. destruct (mem k items); reflexivity. }
  split.
  - intros Hl. rewrite Hd. apply mem_false_lookup in Hl. now rewrite Hl.
  - intros Hl. exists (assoc_del k items). cbn zeta.
    assert (Hm : mem k items = true).
    { unfold mem. destruct (lookup k items); congruence. }
    rewrite Hd, Hm.
    assert (Hs' : nth_error
                    (update_nth self (ONode (assoc_del k items) attrs) h) self
                  = Some (ONode (assoc_del k items) attrs)).
    { apply nth_error_update_nth_same. eapply nth_error_lt; eauto. }
    split; [reflexivity|]. split.
    + rewrite (contains_ok _ _ _ _ _ Hs'). unfold mem.
      now rewrite lookup_assoc_del_same.
    + split.
      * intros k' Hk. now apply lookup_assoc_del_other.
      * intros l Hne. now apply nth_error_update_nth_other.
Qed.

(** X3, witness. *)
Lemma delitem_removes_witness :
  exists items',
    let h' := update_nth 0 (ONode items' [])
                [ONode [(KStr "a", VInt 1); (KStr "b", VInt 2)] []] in
    __delitem__ 0 (NKey (KStr "a"))
      [ONode [(KStr "a", VInt 1); (KStr "b", VInt 2)] []] = Ok tt h' /\
    __contains__ 0 (NKey (KStr "a")) h' = Ok false h' /\
    (forall k', k' <> KStr "a" ->
       lookup k' items'
       = lookup k' [(KStr "a", VInt 1); (KStr "b", VInt 2)]) /\
    (forall l, l <> 0%nat ->
       nth_error h' l
       = nth_error [ONode [(KStr "a", VInt 1); (KStr "b", VInt 2)] []] l).
Proof.
  apply (proj2 (delitem_removes
                  [ONode [(KStr "a", VInt 1); (KStr "b", VInt 2)] []] 0
                  [(KStr "a", VInt 1); (KStr "b", VInt 2)] [] (KStr "a")
                  eq_refl
                  ltac:(simpl; repeat constructor; simpl;
                        intuition discriminate))).
  simpl. discriminate.
Defined.

(** ** Case-insensitive keys on a store whose keys are strings *)

Lemma find_first_sorted (p : key -> bool) (ks : list key) (k : key) :
  StronglySorted key_le ks ->
  (forall x, In x ks -> key_le x x) ->
  find p ks = Some k ->
  In k ks /\ p k = true /\
  forall k', In k' ks -> p k' = true -> key_le k k'.
Proof.
  induction ks as [|a r IH]; intros S R F; [discriminate|].
  simpl in F. destruct (p a) eqn:Ea.
  - injection F as <-. split; [now left|]. split; [exact Ea|].
    intros k' [<-|Hin] _; [apply R; now left|].
    apply StronglySorted_inv in S as [_ S].
    rewrite Forall_forall in S. now apply S.
  - destruct IH as (Hin & Hp & Hleast); auto.
    + now apply StronglySorted_inv in S.
    + intros x Hx. apply R. now right.
    + split; [now right|]. split; [exact Hp|].
      intros k' [<-|Hk'] Hpk; [congruence|now apply Hleast].
Qed.

Lemma iter_strings_sorted (h : heap) (self : loc) (items : items_t)
    (attrs : list (string * value)) (ks : list key) :
  nth_error h self = Some (ONode items attrs) ->
  (forall k, In k (keys items) -> is_str k = true) ->
  __iter__ self h = Ok ks h ->
  StronglySorted key_le ks /\ Permutation (keys items) ks.
Proof.
  intros Hn Hall Hi. rewrite (__iter___eq _ _ _ _ Hn) in Hi.
  destruct (sorted_lt (keys items)) as [l|] eqn:E.
  - injection Hi as <-. split.
    + eapply sorted_lt_sorted; eauto.
    + eapply sorted_lt_perm; eauto.
  - exfalso. apply (sorted_lt_Some (keys items)); auto.
    intros a b Ha Hb. now rewrite (Hall a Ha), (Hall b Hb).
Qed.

(** What [find_case] returns on a store whose keys are all strings. *)
Lemma find_case_resolved (h : heap) (self : loc) (items : items_t)
    (attrs : list (string * value)) (nm : name) (s : string) :
  nth_error h self = Some (ONode items attrs) ->
  (forall k, In k (keys items) -> is_str k = true) ->
  nm = NKey (KStr s) \/ nm = NIg s ->
  exists r,
    find_case self nm h = Ok r h /\
    (((forall t, In (KStr t) (keys items) -> lower t <> lower s) /\ r = nm) \/
     (exists t,
        r = NKey (KStr t) /\ In (KStr t) (keys items) /\
        lower t = lower s /\
        forall t', In (KStr t') (keys items) -> lower t' = lower s ->
                   String.leb t t' = true)).
Proof.
  intros Hn Hall Hnm.
  destruct (find_case_strings h self items attrs nm s Hn Hall Hnm)
    as (ks & Hi & Hfc).
  destruct (iter_strings_sorted _ _ _ _ _ Hn Hall Hi) as [Hs Hp].
  eexists. split; [exact Hfc|].
  destruct (find _ ks) as [k|] eqn:F.
  - right.
    assert (HR : forall x, In x ks -> key_le x x).
    { intros x Hx.
      assert (Hx' : is_str x = true).
      { apply Hall. eapply Permutation_in;
          [apply Permutation_sym; exact Hp|exact Hx]. }
      destruct x as [t|z]; [|discriminate]. simpl.
      apply string_leb_ltb. apply string_ltb_irrefl. }
    destruct (find_first_sorted _ _ _ Hs HR F) as (Hin & Hpk & Hl).
    assert (Hk : In k (keys items)).
    { eapply Permutation_in; [apply Permutation_sym; exact Hp|exact Hin]. }
    pose proof (Hall k Hk) as Hstr.
    destruct k as [t|z]; [|discriminate]. simpl in Hpk.
    apply String.eqb_eq in Hpk.
    exists t. split; [reflexivity|]. split; [exact Hk|].
    split; [exact Hpk|].
    intros t' Ht' Hlow.
    apply (Hl (KStr t')).
    + eapply Permutation_in; [exact Hp|exact Ht'].
    + simpl. now apply String.eqb_eq.
  - left. split; [|reflexivity].
    intros t Ht Hlow.
    assert (Hin : In (KStr t) ks)
      by (eapply Permutation_in; [exact Hp|exact Ht]).
    pose proof (find_none _ _ F (KStr t) Hin) as Hnone.
    simpl in Hnone. rewrite Hlow, String.eqb_refl in Hnone. discriminate.
Qed.

Lemma contains_resolved (self : loc) (nm r : name) (h : heap)
    (items : items_t) (attrs : list (string * value)) :
  resolve self nm h = Ok r h ->
  nth_error h self = Some (ONode items attrs) ->
  __contains__ self nm h = Ok (mem (key_of_name r) items) h.
Proof.
  intros Hr Hn. unfold __contains__.
  rewrite (bind_ok _ _ _ _ _ Hr).
  now rewrite (bind_ok _ _ _ _ _ (node_items_ok _ _ _ _ Hn)).
Qed.

Lemma getitem_resolved (f : nat) (self : loc) (nm r : name) (h : heap)
    (items : items_t) (attrs : list (string * value)) (w : value) :
  resolve self nm h = Ok r h ->
  nth_error h self = Some (ONode items attrs) ->
  lookup (key_of_name r) items = Some w ->
  __getitem__ (S f) self nm h = Ok w h.
Proof.
  intros Hr Hn Hl. cbn [__getitem__].
  rewrite (bind_ok _ _ _ _ _ Hr).
  rewrite (bind_ok _ _ _ _ _ (node_items_ok _ _ _ _ Hn)).
  now rewrite Hl.
Qed.

Lemma setitem_resolved (f : nat) (self : loc) (nm r : name) (v : value)
    (h : heap) (items : items_t) (attrs : list (string * value)) :
  resolve self nm h = Ok r h ->
  nth_error h self = Some (ONode items attrs) ->
  allocated h v -> ~ mapping_at h v ->
  __setitem__ f self nm v h
  = Ok tt (update_nth self
             (ONode (assoc_set (key_of_name r) v items) attrs) h).
Proof.
  intros Hr Hn Ha Hm. unfold __setitem__, __setitem__with.
  rewrite (bind_ok _ _ _ _ _ Hr).
  rewrite (bind_ok _ _ _ _ _ (is_dict_leaf _ _ Ha Hm)).
  unfold bind at 1, ret at 1.
  now apply dict_set_ok.
Qed.

Lemma delitem_resolved (self : loc) (nm r : name) (h : heap)
    (items : items_t) (attrs : list (string * value)) :
  resolve self nm h = Ok r h ->
  nth_error h self = Some (ONode items attrs) ->
  __delitem__ self nm h
  = if mem (key_of_name r) items
    then Ok tt (update_nth self
                  (ONode (assoc_del (key_of_name r) items) attrs) h)
    else Raise KeyError.
Proof.
  intros Hr Hn. unfold __delitem__.
  rewrite (bind_ok _ _ _ _ _ Hr).
  rewrite (bind_ok _ _ _ _ _ (read_ok _ _ _ Hn)).
  destruct (mem (key_of_name r) items); reflexivity.
Qed.

Lemma keys_assoc_set_present (k : key) (v : value) (m : items_t) :
  lookup k m <> None -> keys (assoc_set k v m) = keys m.
Proof.
  induction m as [|[k' v'] r IH]; simpl; intros H; [congruence|].
  destruct (key_eqb k k') eqn:E; simpl; [reflexivity|].
  f_equal. now apply IH.
Qed.

Lemma assoc_set_absent (k : key) (v : value) (m : items_t) :
  lookup k m = None -> assoc_set k v m = (m ++ [(k, v)])%list.
Proof.
  induction m as [|[k' v'] r IH]; simpl; intros H; [reflexivity|].
  destruct (key_eqb k k') eqn:E; [discriminate|].
  f_equal. now apply IH.
Qed.

(** X4.  On a store whose keys are all strings, [find_case] completes without
    changing the store; it returns the least key, in the order of strings,
    whose lower-case form is that of the argument, and the argument itself
    when no key has that lower-case form. *)
Theorem find_case_least (h : heap) (self : loc) (items : items_t)
    (attrs : list (string * value)) (nm : name) (s : string) :
  nth_error h self = Some (ONode items attrs) ->
  (forall k, In k (keys items) -> is_str k = true) ->
  nm = NKey (KStr s) \/ nm = NIg s ->
  exists r,
    find_case self nm h = Ok r h /\
    (((forall t, In (KStr t) (keys items) -> lower t <> lower s) /\ r = nm) \/
     (exists t,
        r = NKey (KStr t) /\ In (KStr t) (keys items) /\
        lower t = lower s /\
        forall t', In (KStr t') (keys items) -> lower t' = lower s ->
                   String.leb t t' = true)).
Proof. apply find_case_resolved. Qed.

(** X4, witness. *)
Lemma find_case_least_witness :
  exists r,
    find_case 0 (NKey (KStr "ab"))
      [ONode [(KStr "aB", VInt 2); (KStr "Ab", VInt 1)] []]
    = Ok r [ONode [(KStr "aB", VInt 2); (KStr "Ab", VInt 1)] []] /\
    (((forall t, In (KStr t) (keys [(KStr "aB", VInt 2); (KStr "Ab", VInt 1)])
                 -> lower t <> lower "ab") /\ r = NKey (KStr "ab")) \/
     (exists t,
        r = NKey (KStr t) /\
        In (KStr t) (keys [(KStr "aB", VInt 2); (KStr "Ab", VInt 1)]) /\
        lower t = lower "ab" /\
        forall t',
          In (KStr t') (keys [(KStr "aB", VInt 2); (KStr "Ab", VInt 1)]) ->
          lower t' = lower "ab" -> String.leb t t' = true)).
Proof.
  apply (find_case_least
           [ONode [(KStr "aB", VInt 2); (KStr "Ab", VInt 1)] []] 0
           [(KStr "aB", VInt 2); (KStr "Ab", VInt 1)] []
           (NKey (KStr "ab")) "ab" eq_refl).
  - simpl. intros k [<-|[<-|[]]]; reflexivity.
  - now left.
Defined.

(** X5.  On a store whose keys are all strings, the item operations with a
    case-insensitive key [ig(s)] that matches some key act on the least key
    [t] that matches: [in] answers true, reading returns the value of [t],
    assigning a value that is not a mapping overwrites the value of [t]
    without adding a key, and deleting removes [t]. *)
Theorem ig_key_matches (f : nat) (h : heap) (self : loc) (items : items_t)
    (attrs : list (string * value)) (s t0 : string) (v : value) :
  nth_error h self = Some (ONode items attrs) ->
  (forall k, In k (keys items) -> is_str k = true) ->
  In (KStr t0) (keys items) -> lower t0 = lower s ->
  allocated h v -> ~ mapping_at h v ->
  exists t w,
    In (KStr t) (keys items) /\ lower t = lower s /\
    (forall t', In (KStr t') (keys items) -> lower t' = lower s ->
                String.leb t t' = true) /\
    lookup (KStr t) items = Some w /\
    __contains__ self (NIg s) h = Ok true h /\
    __getitem__ (S f) self (NIg s) h = Ok w h /\
    __setitem__ f self (NIg s) v h
    = Ok tt (update_nth self (ONode (assoc_set (KStr t) v items) attrs) h) /\
    keys (assoc_set (KStr t) v items) = keys items /\
    __delitem__ self (NIg s) h
    = Ok tt (update_nth self (ONode (assoc_del (KStr t) items) attrs) h).
Proof.
  intros Hn Hall Hin0 Hlow0 Ha Hm.
  destruct (find_case_resolved h self items attrs (NIg s) s Hn Hall
              (or_intror eq_refl)) as (r & Hfc & [[Hnone _]|Hsome]).
  { exfalso. exact (Hnone t0 Hin0 Hlow0). }
  destruct Hsome as (t & -> & Hin & Hlow & Hleast).
  assert (Hr : resolve self (NIg s) h = Ok (NKey (KStr t)) h) by exact Hfc.
  pose proof (proj1 (lookup_In_keys _ _) Hin) as Hl.
  destruct (lookup (KStr t) items) as [w|] eqn:El; [|congruence].
  assert (Hmem : mem (KStr t) items = true) by (unfold mem; now rewrite El).
  exists t, w. repeat (split; [assumption|]).
  split.
  { rewrite (contains_resolved _ _ _ _ _ _ Hr Hn). cbn [key_of_name].
    now rewrite Hmem. }
  split; [eapply getitem_resolved; eauto|].
  split; [exact (setitem_resolved f _ _ _ _ _ _ _ Hr Hn Ha Hm)|].
  split; [apply keys_assoc_set_present; congruence|].
  rewrite (delitem_resolved _ _ _ _ _ _ Hr Hn). cbn [key_of_name].
  now rewrite Hmem.
Qed.

(** X5, witness. *)
Lemma ig_key_matches_witness :
  exists t w,
    In (KStr t) (keys [(KStr "System", VInt 7)]) /\
    lower t = lower "SYSTEM" /\
    (forall t', In (KStr t') (keys [(KStr "System", VInt 7)]) ->
                lower t' = lower "SYSTEM" -> String.leb t t' = true) /\
    lookup (KStr t) [(KStr "System", VInt 7)] = Some w /\
    __contains__ 0 (NIg "SYSTEM") [ONode [(KStr "System", VInt 7)] []]
    = Ok true [ONode [(KStr "System", VInt 7)] []] /\
    __getitem__ 1 0 (NIg "SYSTEM") [ONode [(KStr "System", VInt 7)] []]
    = Ok w [ONode [(KStr "System", VInt 7)] []] /\
    __setitem__ 0 0 (NIg "SYSTEM") (VInt 2)
      [ONode [(KStr "System", VInt 7)] []]
    = Ok tt (update_nth 0
               (ONode (assoc_set (KStr t) (VInt 2) [(KStr "System", VInt 7)])
                  [])
               [ONode [(KStr "System", VInt 7)] []]) /\
    keys (assoc_set (KStr t) (VInt 2) [(KStr "System", VInt 7)])
    = keys [(KStr "System", VInt 7)] /\
    __delitem__ 0 (NIg "SYSTEM") [ONode [(KStr "System", VInt 7)] []]
    = Ok tt (update_nth 0
               (ONode (assoc_del (KStr t) [(KStr "System", VInt 7)]) [])
               [ONode [(KStr "System", VInt 7)] []]).
Proof.
  apply (ig_key_matches 0 [ONode [(KStr "System", VInt 7)] []] 0
           [(KStr "System", VInt 7)] [] "SYSTEM" "System" (VInt 2) eq_refl).
  - simpl. intros k [<-|[]]. reflexivity.
  - simpl. now left.
  - reflexivity.
  - exact I.
  - intros (l & o & E & _). discriminate.
Defined.



(** ** Chained construction: [set_nested] and [get_nested] *)

Lemma set_nested_cons (fuel : nat) (self c : loc) (i : name)
    (path : list name) (v : value) (h h' : heap) :
  path <> [] ->
  subscript fuel (VRef self) i h = Ok (VRef c) h' ->
  set_nested fuel self (i :: path) v h = set_nested fuel c path v h'.
Proof.
  intros Hne Hsub. unfold set_nested.
  destruct path as [|j r]; [congruence|].
  change (removelast (i :: j :: r)) with (i :: removelast (j :: r)).
  cbn [get_nested_from].
  unfold bind at 1. unfold bind at 1. rewrite Hsub.
  change (rev (i :: j :: r)) with (rev (j :: r) ++ [i])%list.
  destruct (rev (j :: r)) as [|x r'] eqn:E.
  - apply (f_equal (@rev name)) in E. rewrite rev_involutive in E.
    discriminate.
  - reflexivity.
Qed.

Lemma subscript_node (fuel : nat) (l : loc) (i : name) (h : heap)
    (items : items_t) (attrs : list (string * value)) :
  nth_error h l = Some (ONode items attrs) ->
  subscript fuel (VRef l) i h = __getitem__ fuel l i h.
Proof.
  intros Hn. unfold subscript.
  now rewrite (bind_ok _ _ _ _ _ (read_ok _ _ _ Hn)).
Qed.

Lemma leaf_stays (h h' : heap) (self : loc) (items : items_t)
    (attrs : list (string * value)) (v : value) :
  nth_error h self = Some (ONode items attrs) ->
  (Datatypes.length h <= Datatypes.length h')%nat ->
  (forall l, (l < Datatypes.length h)%nat -> l <> self ->
             nth_error h' l = nth_error h l) ->
  allocated h v -> ~ mapping_at h v ->
  allocated h' v /\ ~ mapping_at h' v.
Proof.
  intros Hn Hlen Hfr Ha Hm. destruct v as [| |s|b]; simpl in *;
    try (split; [exact I|intros (l & o & E & _); discriminate]).
  split; [lia|].
  intros (l & o & E & Hl & Ho). injection E as <-.
  apply Hm. exists b, o. split; [reflexivity|]. split; [|exact Ho].
  destruct (Nat.eq_dec b self) as [->|Hne].
  - exfalso. apply Hm. eexists _, _.
    split; [reflexivity|]. split; [exact Hn|exact I].
  - now rewrite <- (Hfr b Ha Hne).
Qed.

Lemma nested_set_get (f f' : nat) (v : value) (ks : list key) :
  forall (h : heap) (self : loc) (items : items_t)
         (attrs : list (string * value)) (k : key),
    nth_error h self = Some (ONode items attrs) ->
    lookup k items = None ->
    allocated h v -> ~ mapping_at h v ->
    exists h1 items',
      set_nested (S (S f)) self (map NKey (k :: ks)) v h = Ok tt h1 /\
      get_nested (S f') self (map NKey (k :: ks)) h1 = Ok v h1 /\
      nth_error h1 self = Some (ONode items' attrs) /\
      (forall k', k' <> k -> lookup k' items' = lookup k' items) /\
      (Datatypes.length h <= Datatypes.length h1)%nat /\
      (forall l, (l < Datatypes.length h)%nat -> l <> self ->
                 nth_error h1 l = nth_error h l).
Proof.
  induction ks as [|k2 rest IH]; intros h self items attrs k Hn Hk Ha Hm.
  - exists (update_nth self (ONode (assoc_set k v items) attrs) h),
           (assoc_set k v items).
    assert (Hs' : nth_error
                    (update_nth self (ONode (assoc_set k v items) attrs) h)
                    self
                  = Some (ONode (assoc_set k v items) attrs)).
    { apply nth_error_update_nth_same. eapply nth_error_lt; eauto. }
    split.
    { unfold set_nested. cbn [map removelast get_nested_from rev app].
      unfold bind at 1, ret at 1. unfold store_subscript.
      rewrite (bind_ok _ _ _ _ _ (read_ok _ _ _ Hn)).
      now apply setitem_leaf_ok. }
    split.
    { unfold get_nested. cbn [map get_nested_from].
      rewrite (bind_ok _ _ _ _ _
                 (eq_trans (subscript_node _ _ _ _ _ _ Hs')
                    (getitem_present _ _ _ _ _ _ _ Hs'
                       (lookup_assoc_set_same _ _ _)))).
      reflexivity. }
    split; [exact Hs'|].
    split; [intros k' Hk'; now apply lookup_assoc_set_other|].
    split; [rewrite length_update_nth; lia|].
    intros l _ Hl. now apply nth_error_update_nth_other.
  - pose proof (vivified_spec h self items attrs k Hn Hk) as Hv.
    cbn zeta in Hv.
    set (h' := vivified h self items attrs k) in *.
    set (c := S (Datatypes.length h)) in *.
    destruct Hv as (Hlen & Hself & Hc & _ & Hfr & _).
    assert (Hslt : (self < Datatypes.length h)%nat)
      by (eapply nth_error_lt; eauto).
    assert (Hsub : subscript (S (S f)) (VRef self) (NKey k) h
                   = Ok (VRef c) h').
    { rewrite (subscript_node _ _ _ _ _ _ Hn).
      now apply getitem_missing. }
    destruct (leaf_stays h h' self items attrs v Hn ltac:(lia) Hfr Ha Hm)
      as [Ha' Hm'].
    destruct (IH h' c [] [] k2 Hc eq_refl Ha' Hm')
      as (h1 & citems & Hset & Hget & Hc1 & _ & Hlen1 & Hfr1).
    assert (Hself1 : nth_error h1 self
                     = Some (ONode (assoc_set k (VRef c) items) attrs)).
    { rewrite Hfr1; [exact Hself|lia|unfold c; lia]. }
    exists h1, (assoc_set k (VRef c) items).
    split.
    { change (map NKey (k :: k2 :: rest))
        with (NKey k :: map NKey (k2 :: rest)).
      rewrite (set_nested_cons (S (S f)) self c (NKey k)
                 (map NKey (k2 :: rest)) v h h'
                 ltac:(simpl; discriminate) Hsub).
      exact Hset. }
    split.
    { unfold get_nested in *.
      change (map NKey (k :: k2 :: rest))
        with (NKey k :: map NKey (k2 :: rest)).
      cbn [get_nested_from].
      rewrite (bind_ok _ _ _ _ _
                 (eq_trans (subscript_node _ _ _ _ _ _ Hself1)
                    (getitem_present _ _ _ _ _ _ _ Hself1
                       (lookup_assoc_set_same _ _ _)))).
      exact Hget. }
    split; [exact Hself1|].
    split; [intros k' Hk'; now apply lookup_assoc_set_other|].
    split; [lia|].
    intros l Hl Hne. rewrite Hfr1; [now apply Hfr|lia|unfold c; lia].
Qed.

(** X7.  Chained construction, as in [s.a.b.c = v]: on a node that does not hold
    the first key of a path of one or more keys, [set_nested] succeeds for
    a value that is not a mapping, creating the intermediate nodes, and
    [get_nested] along the same path then returns that value without
    changing the store; the other keys of the receiver and all other
    objects are left as they were. *)
Theorem set_nested_then_get_nested (f f' : nat) (v : value) (k : key)
    (ks : list key) (h : heap) (self : loc) (items : items_t)
    (attrs : list (string * value)) :
  nth_error h self = Some (ONode items attrs) ->
  lookup k items = None ->
  allocated h v -> ~ mapping_at h v ->
  exists h1 items',
    set_nested (S (S f)) self (map NKey (k :: ks)) v h = Ok tt h1 /\
    get_nested (S f') self (map NKey (k :: ks)) h1 = Ok v h1 /\
    nth_error h1 self = Some (ONode items' attrs) /\
    (forall k', k' <> k -> lookup k' items' = lookup k' items) /\
    (forall l, (l < Datatypes.length h)%nat -> l <> self ->
               nth_error h1 l = nth_error h l).
Proof.
  intros Hn Hk Ha Hm.
  destruct (nested_set_get f f' v ks h self items attrs k Hn Hk Ha Hm)
    as (h1 & items' & H1 & H2 & H3 & H4 & _ & H5).
  exists h1, items'. auto.
Qed.

(** X7, witness. *)
Lemma set_nested_then_get_nested_witness :
  exists h1 items',
    set_nested 2 0 (map NKey [KStr "a"; KStr "b"; KStr "c"]) (VInt 5)
      [ONode [] []] = Ok tt h1 /\
    get_nested 1 0 (map NKey [KStr "a"; KStr "b"; KStr "c"]) h1
    = Ok (VInt 5) h1 /\
    nth_error h1 0 = Some (ONode items' []) /\
    (forall k', k' <> KStr "a" -> lookup k' items' = lookup k' []) /\
    (forall l, (l < Datatypes.length [ONode [] []])%nat -> l <> 0%nat ->
               nth_error h1 l = nth_error [ONode [] []] l).
Proof.
  apply (set_nested_then_get_nested 0 0 (VInt 5) (KStr "a")
           [KStr "b"; KStr "c"] [ONode [] []] 0 [] [] eq_refl eq_refl I).
  intros (l & o & E & _). discriminate.
Defined.

(** ** [soft_update] writes only the nodes reached from its receiver *)

Lemma soft_update_step_footprint (rec : loc -> value -> M value) (f : nat)
    (s : loc) (other : value) (name : key) (g : heap) (u : unit) (g' : heap)
    (sitems : items_t) sattrs :
  (forall l ov h r h', node_at h (VRef l) -> rec l ov h = Ok r h' ->
     edges_kept h h' /\ writes_within h h' l) ->
  nth_error g s = Some (ONode sitems sattrs) ->
  present other name g ->
  soft_update_step rec f s other name g = Ok u g' ->
  edges_kept g g' /\ writes_within g g' s.
Proof.
  intros IH Hs Hp Hb. unfold soft_update_step in Hb.
  apply bind_inv in Hb as (v & g1 & Hsub & Hb).
  pose proof (subscript_present_pure _ _ _ _ _ _ Hp Hsub) as ->.
  apply bind_inv in Hb as (b & g2 & Hnode & Hb).
  apply is_node_inv in Hnode as (-> & Hnode).
  assert (Hset : forall w gx,
             __setitem__ f s (NKey name) w g = Ok u gx ->
             edges_kept g gx /\ writes_within g gx s).
  { intros w gx Hw.
    destruct (setitem_edges_kept _ _ _ _ _ _ _ _ _ Hs Hw) as [He Hfr].
    split; auto. intros X _ HXs b0 Hb0 HXb. apply Hfr; auto.
    intros ->. contradiction. }
  assert (Hnil : edges_kept g g /\ writes_within g g s).
  { split; [apply edges_kept_refl|]. intros X _ _ b0 _ _. reflexivity. }
  destruct b.
  - apply bind_inv in Hb as (c & g2 & Hc & Hb).
    apply contains_inv in Hc as (-> & items & attrs & Hn & ->).
    rewrite Hs in Hn. injection Hn as <- <-.
    unfold mem in Hb.
    destruct (lookup name sitems) as [sv0|] eqn:Hl; cbn [negb] in Hb.
    + apply bind_inv in Hb as (sv & g3 & Hg & Hb).
      destruct (getitem_key_present_inv _ _ _ _ _ _ _ _ _ Hs Hl Hg)
        as [-> ->].
      apply bind_inv in Hb as (bs & g4 & Hn & Hb).
      apply is_node_inv in Hn as (-> & Hn).
      destruct bs.
      * destruct (proj1 Hn eq_refl) as (l & its & ats & -> & Hln).
        apply bind_inv in Hb as (sv1 & g3 & Hg1 & Hb).
        destruct (getitem_key_present_inv _ _ _ _ _ _ _ _ _ Hs Hl Hg1)
          as [-> ->].
        apply bind_inv in Hb as (ov & g4 & Hsub1 & Hb).
        pose proof (subscript_present_pure _ _ _ _ _ _ Hp Hsub1) as ->.
        apply bind_inv in Hb as (rv & g5 & Hrec & Hb).
        apply ret_inv in Hb as [_ <-].
        cbn [method] in Hrec.
        assert (Hlnode : node_at g (VRef l)) by (exists l, its, ats; auto).
        destruct (IH _ _ _ _ _ Hlnode Hrec) as [He Hw].
        split; auto.
        intros X Hcl HXs. apply Hw; auto.
        eapply Hcl; eauto.
      * apply ret_inv in Hb as [_ <-]. exact Hnil.
    + apply bind_inv in Hb as (v1 & g3 & Hsub1 & Hb).
      pose proof (subscript_present_pure _ _ _ _ _ _ Hp Hsub1) as ->.
      apply bind_inv in Hb as (n & g4 & Hcopy & Hb).
      destruct v1 as [| | |l]; try discriminate. cbn [method] in Hcopy.
      pose proof (copy_frame _ _ _ _ _ Hcopy) as (-> & Hfc & _).
      destruct (copy_fresh _ _ _ _ _ _ _ (frame_refl (Datatypes.length g) g)
                  (le_n _) Hcopy) as [Hfe _].
      assert (Hs4 : nth_error g4 s = Some (ONode sitems sattrs)).
      { eapply frame_nth; eauto. eapply nth_error_lt; eauto. }
      destruct (setitem_edges_kept _ _ _ _ _ _ _ _ _ Hs4 Hb) as [He Hfr].
      split.
      * eapply edges_kept_trans; [apply frame_grow; eauto| |exact He].
        now apply edges_kept_fresh.
      * intros X _ HXs b0 Hb0 HXb.
        rewrite Hfr; [|intros ->; contradiction|destruct Hfc; lia].
        destruct Hfc as [_ Hfc]. now apply Hfc.
  - apply bind_inv in Hb as (c & g2 & Hc & Hb).
    apply contains_inv in Hc as (-> & items & attrs & Hn & ->).
    rewrite Hs in Hn. injection Hn as <- <-.
    destruct (negb (mem name sitems)).
    + apply bind_inv in Hb as (v1 & g2 & Hsub1 & Hb).
      pose proof (subscript_present_pure _ _ _ _ _ _ Hp Hsub1) as ->.
      eapply Hset; eauto.
    + apply ret_inv in Hb as [_ <-]. exact Hnil.
Qed.

Lemma soft_update_footprint (f : nat) :
  forall (s : loc) (other : value) (g : heap) (r : value) (g' : heap),
    node_at g (VRef s) ->
    soft_update f s other g = Ok r g' ->
    edges_kept g g' /\ writes_within g g' s.
Proof.
  induction f as [|f IH]; intros s other g r g' Hs H; [discriminate|].
  destruct Hs as (s' & sitems & sattrs & E & Hs). injection E as <-.
  cbn [soft_update] in H.
  apply bind_inv in H as (names & g0 & Hit & H).
  pose proof (iterate_pure _ _ _ _ Hit) as ->.
  destruct (iterate_present _ _ _ Hit) as [Hal Hpres].
  apply bind_inv in H as (u & g1 & Hloop & H).
  apply ret_inv in H as [_ <-].
  assert (Hend : grow g g1 /\ edges_kept g g1 /\ writes_within g g1 s).
  { revert Hloop.
    apply (forM_invariant
             (fun gi => grow g gi /\ edges_kept g gi /\
                        writes_within g gi s)).
    - intros name gi u0 gi' Hin (Hg & He & Hw) Hb.
      destruct (grow_node _ _ _ _ _ Hg Hs) as (sitems' & Hsi & _).
      assert (Hp : present other name gi).
      { eapply present_grow; eauto. }
      assert (Hgi : grow gi gi').
      { apply mono_grow.
        eapply (soft_update_step_mono (soft_update f)); [|exact Hb].
        intros l ov h2 r2 h3 Hrec.
        now apply soft_update_mono in Hrec. }
      destruct (soft_update_step_footprint _ _ _ _ _ _ _ _ _ _
                  (fun l ov h r h' Hl Hrec => IH l ov h r h' Hl Hrec)
                  Hsi Hp Hb) as [Hei Hwi].
      split; [eapply grow_trans; eauto|].
      split; [eapply edges_kept_trans; eauto|].
      intros X Hcl HXs b Hb0 HXb.
      rewrite <- (Hw X Hcl HXs b Hb0 HXb).
      apply (Hwi (fun a => ((a < Datatypes.length g)%nat /\ X a) \/
                           (Datatypes.length g <= a)%nat)).
      + intros a items attrs k c Ha Hna Hl Hc.
        destruct (Nat.lt_ge_cases c (Datatypes.length g)) as [Hlt|Hge];
          [|now right].
        left. split; auto.
        pose proof (grow_node_at_back _ _ _ Hg Hlt Hc) as Hcg.
        destruct (He a items attrs k c Hna Hl Hcg)
          as (items0 & attrs0 & Hn0 & Hl0).
        destruct Ha as [[_ HXa]|Hge].
        * eapply Hcl; eauto.
        * apply nth_error_lt in Hn0. lia.
      + destruct (Nat.lt_ge_cases s (Datatypes.length g)); [left|right]; auto.
      + destruct Hg. lia.
      + intros [[_ HX]|Hge]; [contradiction | lia].
    - split; [apply grow_refl|]. split; [apply edges_kept_refl|].
      intros X _ _ b _ _. reflexivity. }
  destruct Hend as (_ & He & Hw). auto.
Qed.

(** ** [merge] *)

Lemma iterate_frame (other : value) (h h1 : heap) (names : list key) :
  frame (Datatypes.length h) h h1 ->
  iterate other h = Ok names h ->
  iterate other h1 = Ok names h1.
Proof.
  intros [_ Hf] H. unfold iterate in *.
  destruct other as [| | |o]; try discriminate.
  apply bind_inv in H as (ob & g & Hr & H).
  apply read_inv in Hr as [-> Hr].
  assert (Hr1 : nth_error h1 o = Some ob).
  { rewrite Hf; auto. eapply nth_error_lt; eauto. }
  rewrite (bind_ok _ _ _ _ _ (read_ok _ _ _ Hr1)).
  destruct ob as [items attrs|items|elems]; try discriminate.
  - apply __iter___pure in H as (_ & _ & Hsame). apply Hsame. congruence.
  - apply ret_inv in H as [<- _]. reflexivity.
Qed.



(** * The content of a store *)

(** ** [all_some] and [tree_of] *)

Lemma all_some_mono {A B : Type} (f g : A -> option B) (l : list A)
    (bs : list B) :
  (forall a b, In a l -> f a = Some b -> g a = Some b) ->
  all_some f l = Some bs -> all_some g l = Some bs.
Proof.
  revert bs. induction l as [|a r IH]; simpl; intros bs Hfg H; auto.
  destruct (f a) as [b|] eqn:Ea; [|discriminate].
  destruct (all_some f r) as [bs'|] eqn:Er; [|discriminate].
  rewrite (Hfg a b (or_introl eq_refl) Ea).
  rewrite (IH bs'); auto.
Qed.

Lemma all_some_app {A B : Type} (f : A -> option B) (l1 l2 : list A)
    (b1 b2 : list B) :
  all_some f l1 = Some b1 -> all_some f l2 = Some b2 ->
  all_some f (l1 ++ l2) = Some (b1 ++ b2).
Proof.
  revert b1. induction l1 as [|a r IH]; simpl; intros b1 H1 H2.
  - injection H1 as <-. exact H2.
  - destruct (f a) as [b|]; [|discriminate].
    destruct (all_some f r) as [bs|]; [|discriminate].
    injection H1 as <-. now rewrite (IH bs eq_refl H2).
Qed.

Lemma all_some_In {A B : Type} (f : A -> option B) (l : list A)
    (bs : list B) (a : A) :
  all_some f l = Some bs -> In a l -> exists b, f a = Some b.
Proof.
  revert bs. induction l as [|x r IH]; simpl; intros bs H Hin; [easy|].
  destruct (f x) as [b|] eqn:Ex; [|discriminate].
  destruct (all_some f r) as [bs'|] eqn:Er; [|discriminate].
  destruct Hin as [<-|Hin]; eauto.
Qed.

Lemma tree_entry_mono (f g : value -> option tree) (kv : key * value)
    (e : key * tree) :
  (forall t, f (snd kv) = Some t -> g (snd kv) = Some t) ->
  tree_entry f kv = Some e -> tree_entry g kv = Some e.
Proof.
  unfold tree_entry. intros Hfg H.
  destruct (f (snd kv)) as [t|] eqn:E; [|discriminate].
  now rewrite (Hfg t eq_refl).
Qed.

(** The content of a value depends only on the objects that are reached
    from it. *)
Lemma tree_of_agree (P : loc -> Prop) (h g : heap) :
  (forall l o, P l -> nth_error h l = Some o -> nth_error g l = Some o) ->
  (forall l o c, P l -> nth_error h l = Some o -> In (VRef c) (vals o) ->
                 P c) ->
  forall n v t,
    (forall l, v = VRef l -> P l) ->
    tree_of n h v = Some t -> tree_of n g v = Some t.
Proof.
  intros Hsame Hcl. induction n as [|n IH]; intros v t Hv H; [discriminate|].
  destruct v as [| | |l]; auto.
  cbn [tree_of] in *.
  pose proof (Hv l eq_refl) as Hl.
  destruct (nth_error h l) as [o|] eqn:Ho; [|discriminate].
  rewrite (Hsame l o Hl Ho).
  assert (Hkid : forall x t0, In x (vals o) ->
                   tree_of n h x = Some t0 -> tree_of n g x = Some t0).
  { intros x t0 Hx Hx0. apply IH; auto.
    intros c ->. eapply Hcl; eauto. }
  destruct o as [items attrs|items|elems]; simpl in Hkid.
  - destruct (all_some (tree_entry (tree_of n h)) items) as [ts|] eqn:E;
      [|discriminate].
    erewrite all_some_mono; [exact H| |exact E].
    intros kv e Hin. apply tree_entry_mono. intros t0.
    apply Hkid. now apply in_map.
  - destruct (all_some (tree_entry (tree_of n h)) items) as [ts|] eqn:E;
      [|discriminate].
    erewrite all_some_mono; [exact H| |exact E].
    intros kv e Hin. apply tree_entry_mono. intros t0.
    apply Hkid. now apply in_map.
  - destruct (all_some (tree_of n h) elems) as [ts|] eqn:E; [|discriminate].
    erewrite all_some_mono; [exact H| |exact E].
    intros x t0 Hin. now apply Hkid.
Qed.

(** Objects that are added do not change the content of a value. *)
Lemma tree_of_frame (m : nat) (h g : heap) (n : nat) (v : value) (t : tree) :
  frame m h g -> (Datatypes.length h <= m)%nat ->
  tree_of n h v = Some t -> tree_of n g v = Some t.
Proof.
  intros [_ Hf] Hm.
  apply (tree_of_agree (fun _ => True)); auto.
  intros l o _ Hl. rewrite Hf; auto.
  apply nth_error_lt in Hl. lia.
Qed.

(** Writing an object to which nothing refers does not change the content
    of the other values. *)
Lemma tree_of_write (r : loc) (h g : heap) (n : nat) (v : value) (t : tree) :
  (forall l, l <> r -> nth_error g l = nth_error h l) ->
  ~ held h r -> v <> VRef r ->
  tree_of n h v = Some t -> tree_of n g v = Some t.
Proof.
  intros Hsame Hr Hv.
  apply (tree_of_agree (fun l => l <> r)).
  - intros l o Hl Ho. now rewrite Hsame.
  - intros l o c _ Ho Hin ->. apply Hr. now exists l, o.
  - intros l -> ->. now apply Hv.
Qed.

(** ** References held in the heap *)

Lemma no_dangling_held (h : heap) :
  no_dangling h <-> forall c, held h c -> (c < Datatypes.length h)%nat.
Proof.
  unfold no_dangling. rewrite Forall_forall. split.
  - intros H c (l & o & Hn & Hin).
    apply nth_error_In in Hn. specialize (H o Hn).
    rewrite Forall_forall in H. exact (H _ Hin).
  - intros H o Ho. apply Forall_forall. intros v Hv.
    destruct v as [| | |c]; simpl; auto.
    apply In_nth_error in Ho as [l Hl]. apply H. now exists l, o.
Qed.

Lemma held_le_refl (h : heap) : held_le h h.
Proof. intros c Hc. now left. Qed.

Lemma held_le_trans (h1 h2 h3 : heap) :
  (Datatypes.length h1 <= Datatypes.length h2)%nat ->
  (Datatypes.length h2 <= Datatypes.length h3)%nat ->
  held_le h1 h2 -> held_le h2 h3 -> held_le h1 h3.
Proof.
  intros L12 L23 H12 H23 c Hc.
  destruct (H23 c Hc) as [H2|[Ha Hb]]; [|right; lia].
  destruct (H12 c H2) as [H1|[Ha Hb]]; [now left|right; lia].
Qed.

Lemma held_le_no_dangling (h g : heap) :
  (Datatypes.length h <= Datatypes.length g)%nat ->
  no_dangling h -> held_le h g -> no_dangling g.
Proof.
  intros Hlen Hnd Hle. apply no_dangling_held. intros c Hc.
  destruct (Hle c Hc) as [Hh|[_ Hlt]]; auto.
  apply (proj1 (no_dangling_held h) Hnd) in Hh. lia.
Qed.

Lemma held_le_unheld (h g : heap) (r : loc) :
  (r < Datatypes.length h)%nat -> held_le h g -> ~ held h r -> ~ held g r.
Proof.
  intros Hr Hle Hn Hg. destruct (Hle r Hg) as [Hh|[Ha _]]; [auto|lia].
Qed.

Lemma known_mono (h g g' : heap) (c : loc) :
  (Datatypes.length g <= Datatypes.length g')%nat ->
  known h g c -> known h g' c.
Proof. intros Hl [H|[Ha Hb]]; [now left|right; lia]. Qed.

Lemma known_trans (h g g' : heap) (c : loc) :
  (Datatypes.length h <= Datatypes.length g)%nat ->
  (Datatypes.length g <= Datatypes.length g')%nat ->
  held_le h g -> known g g' c -> known h g' c.
Proof.
  intros L1 L2 Hle [H|[Ha Hb]]; [|right; lia].
  destruct (Hle c H) as [Hh|[Ha Hb]]; [now left|right; lia].
Qed.

(** Allocating or writing an object whose values are known. *)
Lemma held_le_alloc (h0 g : heap) (o : obj) :
  held_le h0 g ->
  (forall c, In (VRef c) (vals o) -> known h0 g c) ->
  held_le h0 (g ++ [o]).
Proof.
  intros Hle Ho c (l & o' & Hn & Hin).
  apply (known_mono h0 g); [rewrite length_app; lia|].
  destruct (Nat.lt_ge_cases l (Datatypes.length g)) as [Hl|Hl].
  - rewrite nth_error_snoc_old in Hn by exact Hl. apply Hle. now exists l, o'.
  - assert (l = Datatypes.length g) as ->.
    { apply nth_error_lt in Hn. rewrite length_app in Hn. simpl in Hn. lia. }
    rewrite nth_error_snoc_new in Hn. injection Hn as <-. auto.
Qed.

Lemma held_le_write (h0 g : heap) (r : loc) (o : obj) :
  held_le h0 g ->
  (forall c, In (VRef c) (vals o) -> known h0 g c) ->
  held_le h0 (update_nth r o g).
Proof.
  intros Hle Ho c (l & o' & Hn & Hin).
  apply (known_mono h0 g); [rewrite length_update_nth; lia|].
  destruct (Nat.eq_dec l r) as [->|Hne].
  - assert (Hr : (r < Datatypes.length g)%nat).
    { apply nth_error_lt in Hn. now rewrite length_update_nth in Hn. }
    rewrite nth_error_update_nth_same in Hn by exact Hr.
    injection Hn as <-. auto.
  - rewrite nth_error_update_nth_other in Hn by exact Hne.
    apply Hle. now exists l, o'.
Qed.

Lemma vals_assoc_set (k : key) (v : value) (m : items_t) (x : value) :
  In x (map snd (assoc_set k v m)) -> x = v \/ In x (map snd m).
Proof.
  induction m as [|[k' v'] r IH]; simpl.
  - intros [<-|[]]. now left.
  - destruct (key_eqb k k'); simpl.
    + intros [<-|H]; auto.
    + intros [<-|H]; auto. destruct (IH H); auto.
Qed.

(** What a constructor call does to the references held in the heap. *)
Lemma setitem_with_held (ctor : value -> M loc) (h0 g : heap) (self : loc)
    (nm : name) (v : value) (u : unit) (g' : heap) :
  (forall w h1 r h2, ctor w h1 = Ok r h2 ->
     r = Datatypes.length h1 /\ (r < Datatypes.length h2)%nat /\
     held_le h1 h2) ->
  (Datatypes.length h0 <= Datatypes.length g)%nat ->
  held_le h0 g ->
  (forall c, v = VRef c -> known h0 g c) ->
  __setitem__with ctor self nm v g = Ok u g' ->
  held_le h0 g' /\ (Datatypes.length g <= Datatypes.length g')%nat.
Proof.
  intros Hctor Hlen Hle Hv H.
  apply setitem_with_inv in H
    as (nm' & v' & h1 & items & attrs & _ & Hcase & Hself & ->).
  rewrite length_update_nth.
  assert (H1 : held_le h0 h1 /\
               (Datatypes.length g <= Datatypes.length h1)%nat /\
               forall c, v' = VRef c -> known h0 h1 c).
  { destruct Hcase as [(_ & -> & ->)|(_ & n & Hc & ->)].
    - auto.
    - destruct (Hctor _ _ _ _ Hc) as (-> & Hlt & Hle1).
      split; [eapply held_le_trans; [| |exact Hle|exact Hle1]; lia|].
      split; [lia|].
      intros c E. injection E as <-. right. lia. }
  destruct H1 as (Hle1 & Hlen1 & Hv').
  split; [|exact Hlen1].
  apply held_le_write; auto.
  intros c Hin. simpl in Hin.
  apply vals_assoc_set in Hin as [E|Hin].
  - now apply Hv'.
  - apply Hle1. exists self, (ONode items attrs). auto.
Qed.

(** The list comprehension of [__init__]. *)
Lemma init_elems_held (ctor : value -> M loc) (elems : list value) :
  (forall w h1 r h2, ctor w h1 = Ok r h2 ->
     r = Datatypes.length h1 /\ (r < Datatypes.length h2)%nat /\
     held_le h1 h2) ->
  forall (g : heap) (elems' : list value) (g' : heap),
    mapM (fun i => di <- is_dict i ;;
                   if di then n <- ctor i ;; ret (VRef n) else ret i)
         elems g = Ok elems' g' ->
    held_le g g' /\ (Datatypes.length g <= Datatypes.length g')%nat /\
    forall c, In (VRef c) elems' ->
              In (VRef c) elems \/
              ((Datatypes.length g <= c)%nat /\
               (c < Datatypes.length g')%nat).
Proof.
  intros Hctor. induction elems as [|e es IH]; intros g elems' g' H.
  - simpl in H. apply ret_inv in H as [<- <-].
    split; [apply held_le_refl|]. split; [lia|]. intros c [].
  - simpl in H.
    apply bind_inv in H as (e' & g1 & He & H).
    apply bind_inv in H as (es' & g2 & Hes & H).
    apply ret_inv in H as [<- <-].
    apply bind_inv in He as (di & g3 & Hdi & He).
    apply is_dict_inv in Hdi as (-> & _).
    destruct (IH _ _ _ Hes) as (Hle2 & Hlen2 & Hin2).
    assert (H1 : held_le g g1 /\
                 (Datatypes.length g <= Datatypes.length g1)%nat /\
                 (e' = e \/
                  exists c, e' = VRef c /\ (Datatypes.length g <= c)%nat /\
                            (c < Datatypes.length g1)%nat)).
    { destruct di.
      - apply bind_inv in He as (n & g4 & Hi & He).
        apply ret_inv in He as [<- <-].
        destruct (Hctor _ _ _ _ Hi) as (-> & Hlt & Hle1).
        split; [exact Hle1|]. split; [lia|]. right. eexists. split; eauto.
      - apply ret_inv in He as [<- <-].
        split; [apply held_le_refl|]. split; [lia|]. now left. }
    destruct H1 as (Hle1 & Hlen1 & He1).
    split; [eapply held_le_trans; [| |exact Hle1|exact Hle2]; lia|].
    split; [lia|].
    intros c [E|Hin].
    + destruct He1 as [->|(c' & -> & Ha & Hb)].
      * left. now left.
      * injection E as <-. right. lia.
    + destruct (Hin2 c Hin) as [Hi|[Ha Hb]]; [left; now right|right; lia].
Qed.

(** [Settings(src)] stores no reference that was not held before, except
    references to the objects it creates. *)
Lemma init_held (f : nat) :
  forall (src : option value) (h : heap) (r : loc) (h' : heap),
    __init__ f src h = Ok r h' -> held_le h h'.
Proof.
  induction f as [|f IH]; intros src h r h' H; [discriminate|].
  assert (Hctor : forall w h1 r1 h2,
             __init__ f (Some w) h1 = Ok r1 h2 ->
             r1 = Datatypes.length h1 /\ (r1 < Datatypes.length h2)%nat /\
             held_le h1 h2).
  { intros w h1 r1 h2 Hw.
    pose proof (init_frame _ _ _ _ _ Hw) as [-> _].
    destruct (init_node _ _ _ _ _ Hw) as [its Hn].
    split; auto. split; [eapply nth_error_lt; eauto|]. eapply IH; eauto. }
  cbn [__init__] in H.
  apply bind_inv in H as (items & h0 & Hsrc & H).
  assert (Hitems : h0 = h /\
            forall c, In (VRef c) (map snd items) -> held h c).
  { destruct src as [v|].
    - unfold mapping_items in Hsrc. destruct v as [| | |m]; try discriminate.
      apply bind_inv in Hsrc as (o & h2 & Hr & Hsrc).
      apply read_inv in Hr as [-> Hr].
      destruct o as [its ats|its|es]; try discriminate;
        apply ret_inv in Hsrc as [<- <-]; (split; [reflexivity|]);
        intros c Hc; eexists m, _; (split; [exact Hr|exact Hc]).
    - apply ret_inv in Hsrc as [<- <-]. split; [reflexivity|].
      intros c []. }
  destruct Hitems as [-> Hitems].
  apply bind_inv in H as (self & h1 & Ha & H).
  apply alloc_inv in Ha as [-> ->].
  apply bind_inv in H as (u & h2 & Hloop & H).
  apply ret_inv in H as [_ <-].
  assert (Hend : held_le h h2 /\
                 (Datatypes.length h <= Datatypes.length h2)%nat).
  { revert Hloop.
    apply (forM_invariant
             (fun g => held_le h g /\
                       (Datatypes.length h <= Datatypes.length g)%nat)).
    - intros [k v] g u0 g' Hin [Hle Hlen] Hb. cbn [fst snd] in Hb.
      apply bind_inv in Hb as (d & g1 & Hd & Hb).
      apply is_dict_inv in Hd as (-> & _).
      apply bind_inv in Hb as (u1 & g1 & Hb1 & Hb).
      assert (H1 : held_le h g1 /\
                   (Datatypes.length g <= Datatypes.length g1)%nat).
      { destruct d.
        - apply bind_inv in Hb1 as (n & g2 & Hi & Hb1).
          destruct (Hctor _ _ _ _ Hi) as (-> & Hlt & Hle2).
          assert (Hle' : held_le h g2)
            by (eapply held_le_trans; [| |exact Hle|exact Hle2]; lia).
          assert (Hn : forall c, VRef (Datatypes.length g) = VRef c ->
                                 known h g2 c).
          { intros c E. injection E as <-. right. lia. }
          destruct (setitem_with_held _ h g2 _ _ _ _ _ Hctor
                      ltac:(lia) Hle' Hn Hb1) as [Hle3 Hlen3].
          split; [exact Hle3|lia].
        - apply ret_inv in Hb1 as [_ <-]. auto. }
      clear Hb1. destruct H1 as [Hle1 Hlen1].
      apply bind_inv in Hb as (l & g2 & Hl & Hb).
      apply is_list_inv in Hl as (-> & _).
      destruct l.
      + apply bind_inv in Hb as (elems & g2 & He & Hb).
        assert (Hel : g2 = g1 /\
                  forall c, In (VRef c) elems -> held g1 c).
        { destruct v as [| | |m]; try discriminate. simpl in He.
          apply bind_inv in He as (o & g3 & Hr & He).
          apply read_inv in Hr as [-> Hr].
          destruct o as [| |es]; try discriminate.
          apply ret_inv in He as [<- <-]. split; [reflexivity|].
          intros c Hc. exists m, (OList es). auto. }
        destruct Hel as [-> Hel].
        apply bind_inv in Hb as (elems' & g2 & Hm & Hb).
        destruct (init_elems_held _ _ Hctor _ _ _ Hm)
          as (Hle2 & Hlen2 & Hin2).
        apply bind_inv in Hb as (nl & g3 & Ha & Hb).
        apply alloc_inv in Ha as [-> ->].
        assert (Hle12 : held_le h g2)
          by (eapply held_le_trans; [| |exact Hle1|exact Hle2]; lia).
        assert (Hle3 : held_le h (g2 ++ [OList elems'])).
        { apply held_le_alloc; auto.
          intros c Hc. simpl in Hc.
          destruct (Hin2 c Hc) as [Hi|[Ha Hb']]; [|right; lia].
          apply (known_mono h g1); [lia|]. apply Hle1. now apply Hel. }
        assert (Hn : forall c, VRef (Datatypes.length g2) = VRef c ->
                               known h (g2 ++ [OList elems']) c).
        { intros c E. injection E as <-. right.
          rewrite length_app. simpl. lia. }
        assert (Hlen3 : (Datatypes.length h
                         <= Datatypes.length (g2 ++ [OList elems']))%nat)
          by (rewrite length_app; simpl; lia).
        destruct (setitem_with_held _ h _ _ _ _ _ _ Hctor Hlen3 Hle3 Hn Hb)
          as [Hle4 Hlen4].
        split; [exact Hle4|].
        rewrite length_app in Hlen4. simpl in Hlen4. lia.
      + apply ret_inv in Hb as [_ <-]. split; [exact Hle1|lia].
    - split; [|rewrite length_app; simpl; lia].
      apply held_le_alloc; [apply held_le_refl|].
      intros c Hc. left. now apply Hitems. }
  exact (proj1 Hend).
Qed.

(** ** Keys stay unique *)

Lemma keys_assoc_set (k : key) (v : value) (m : items_t) :
  keys (assoc_set k v m)
  = if mem k m then keys m else (keys m ++ [k])%list.
Proof.
  unfold mem. induction m as [|[k' v'] r IH]; simpl; auto.
  destruct (key_eqb k k') eqn:E; simpl.
  - reflexivity.
  - rewrite IH. destruct (lookup k r); reflexivity.
Qed.

Lemma nodup_assoc_set (k : key) (v : value) (m : items_t) :
  NoDup (keys m) -> NoDup (keys (assoc_set k v m)).
Proof.
  intros N. rewrite keys_assoc_set.
  destruct (mem k m) eqn:E; auto.
  apply NoDup_app; auto.
  - repeat constructor. intros [].
  - intros x Hx [<-|[]].
    apply mem_false_lookup in E. apply lookup_In_keys in Hx. congruence.
Qed.

Lemma unique_keys_nth (h : heap) (l : loc) (o : obj) :
  unique_keys h -> nth_error h l = Some o ->
  match o with
  | ONode items _ => NoDup (keys items)
  | ODict items => NoDup (keys items)
  | OList _ => True
  end.
Proof.
  intros U Hn. unfold unique_keys in U. rewrite Forall_forall in U.
  apply (U o). eapply nth_error_In; eauto.
Qed.

Lemma unique_keys_alloc (h : heap) (o : obj) :
  unique_keys h ->
  match o with
  | ONode items _ => NoDup (keys items)
  | ODict items => NoDup (keys items)
  | OList _ => True
  end ->
  unique_keys (h ++ [o]).
Proof.
  intros U Ho. apply Forall_app. split; auto.
Qed.

Lemma Forall_update_nth {A : Type} (P : A -> Prop) (n : nat) (x : A)
    (l : list A) :
  Forall P l -> P x -> Forall P (update_nth n x l).
Proof.
  intros H Hx. revert n. induction H as [|y r Hy Hr IH]; intros [|n]; simpl;
    constructor; auto.
Qed.

Lemma unique_keys_write (h : heap) (r : loc) (o : obj) :
  unique_keys h ->
  match o with
  | ONode items _ => NoDup (keys items)
  | ODict items => NoDup (keys items)
  | OList _ => True
  end ->
  unique_keys (update_nth r o h).
Proof. intros U Ho. now apply Forall_update_nth. Qed.

Lemma setitem_with_unique (ctor : value -> M loc) (self : loc) (nm : name)
    (v : value) (g : heap) (u : unit) (g' : heap) :
  (forall w h1 r h2, ctor w h1 = Ok r h2 ->
                     unique_keys h1 -> unique_keys h2) ->
  unique_keys g ->
  __setitem__with ctor self nm v g = Ok u g' ->
  unique_keys g'.
Proof.
  intros Hctor U H.
  apply setitem_with_inv in H
    as (nm' & v' & h1 & items & attrs & _ & Hcase & Hself & ->).
  assert (U1 : unique_keys h1).
  { destruct Hcase as [(_ & _ & ->)|(_ & n & Hc & _)]; eauto. }
  apply unique_keys_write; auto.
  apply nodup_assoc_set.
  exact (unique_keys_nth _ _ _ U1 Hself).
Qed.

(** [Settings(src)] creates no mapping that holds a key twice. *)
Lemma init_unique (f : nat) :
  forall (src : option value) (h : heap) (r : loc) (h' : heap),
    __init__ f src h = Ok r h' -> unique_keys h -> unique_keys h'.
Proof.
  induction f as [|f IH]; intros src h r h' H U; [discriminate|].
  assert (Hctor : forall w h1 r1 h2,
             __init__ f (Some w) h1 = Ok r1 h2 ->
             unique_keys h1 -> unique_keys h2).
  { intros w h1 r1 h2 Hw. eapply IH; eauto. }
  cbn [__init__] in H.
  apply bind_inv in H as (items & h0 & Hsrc & H).
  assert (Hitems : h0 = h /\ NoDup (keys items)).
  { destruct src as [v|].
    - unfold mapping_items in Hsrc. destruct v as [| | |m]; try discriminate.
      apply bind_inv in Hsrc as (o & h2 & Hr & Hsrc).
      apply read_inv in Hr as [-> Hr].
      pose proof (unique_keys_nth _ _ _ U Hr) as Ho.
      destruct o as [its ats|its|es]; try discriminate;
        apply ret_inv in Hsrc as [<- <-]; auto.
    - apply ret_inv in Hsrc as [<- <-]. split; [reflexivity|constructor]. }
  destruct Hitems as [-> Hitems].
  apply bind_inv in H as (self & h1 & Ha & H).
  apply alloc_inv in Ha as [-> ->].
  apply bind_inv in H as (u & h2 & Hloop & H).
  apply ret_inv in H as [_ <-].
  revert Hloop.
  apply (forM_invariant unique_keys).
  - intros [k v] g u0 g' Hin Ug Hb. cbn [fst snd] in Hb.
    apply bind_inv in Hb as (d & g1 & Hd & Hb).
    apply is_dict_inv in Hd as (-> & _).
    apply bind_inv in Hb as (u1 & g1 & Hb1 & Hb).
    assert (U1 : unique_keys g1).
    { destruct d.
      - apply bind_inv in Hb1 as (n & g2 & Hi & Hb1).
        eapply setitem_with_unique; [exact Hctor| |exact Hb1]. eauto.
      - now apply ret_inv in Hb1 as [_ <-]. }
    clear Hb1.
    apply bind_inv in Hb as (l & g2 & Hl & Hb).
    apply is_list_inv in Hl as (-> & _).
    destruct l.
    + apply bind_inv in Hb as (elems & g2 & He & Hb).
      assert (g2 = g1) as ->.
      { destruct v; try discriminate. simpl in He.
        apply bind_inv in He as (o & g3 & Hr & He).
        apply read_inv in Hr as [-> _].
        destruct o; try discriminate. now apply ret_inv in He as [_ <-]. }
      apply bind_inv in Hb as (elems' & g2 & Hm & Hb).
      assert (U2 : unique_keys g2).
      { revert Hm. apply (mapM_invariant unique_keys); auto.
        intros i g3 b g4 _ U3 Hi.
        apply bind_inv in Hi as (di & g5 & Hdi & Hi).
        apply is_dict_inv in Hdi as (-> & _).
        destruct di.
        - apply bind_inv in Hi as (n & g5 & Hi & Hr).
          apply ret_inv in Hr as [_ <-]. eauto.
        - now apply ret_inv in Hi as [_ <-]. }
      apply bind_inv in Hb as (nl & g3 & Ha & Hb).
      apply alloc_inv in Ha as [-> ->].
      eapply setitem_with_unique; [exact Hctor| |exact Hb].
      now apply unique_keys_alloc.
    + now apply ret_inv in Hb as [_ <-].
  - now apply unique_keys_alloc.
Qed.

(** [Settings(src)] keeps the heap well formed. *)
Lemma init_well_formed (f : nat) (src : option value) (h : heap) (r : loc)
    (h' : heap) :
  __init__ f src h = Ok r h' -> well_formed h -> well_formed h'.
Proof.
  intros H [Hd Hu]. split.
  - eapply held_le_no_dangling; [|exact Hd|eapply init_held; eauto].
    apply init_frame in H as [_ [Hl _]]. exact Hl.
  - eapply init_unique; eauto.
Qed.

(** ** Evaluating the type tests *)

Lemma tree_of_allocated (n : nat) (g : heap) (v : value) (t : tree) :
  tree_of n g v = Some t -> allocated g v.
Proof.
  destruct n as [|n]; [discriminate|]. destruct v as [| | |l]; simpl; auto.
  destruct (nth_error g l) eqn:E; [|discriminate].
  intros _. eapply nth_error_lt; eauto.
Qed.

Lemma is_dict_ok (g : heap) (v : value) :
  allocated g v ->
  exists b, is_dict v g = Ok b g /\ (b = true <-> mapping_at g v).
Proof.
  intros Ha. destruct v as [| | |l];
    try (exists false; split; [reflexivity|];
         split; [discriminate|intros (? & ? & ? & _); discriminate]).
  simpl in Ha. apply nth_error_Some in Ha.
  destruct (nth_error g l) as [o|] eqn:E; [|congruence].
  unfold is_dict. rewrite (bind_ok _ _ _ _ _ (read_ok _ _ _ E)).
  eexists. split; [reflexivity|].
  destruct o; (split; [intros H|intros (l' & o' & E' & Hn & Ho)]);
    try discriminate; try reflexivity;
    try (eexists l, _; split; [reflexivity|split; [exact E|exact I]]).
  injection E' as <-. rewrite E in Hn. injection Hn as <-. destruct Ho.
Qed.

Lemma is_list_ok (g : heap) (v : value) :
  allocated g v ->
  exists b, is_list v g = Ok b g /\ (b = true <-> list_at g v).
Proof.
  intros Ha. destruct v as [| | |l];
    try (exists false; split; [reflexivity|];
         split; [discriminate|intros (? & ? & ? & _); discriminate]).
  simpl in Ha. apply nth_error_Some in Ha.
  destruct (nth_error g l) as [o|] eqn:E; [|congruence].
  unfold is_list. rewrite (bind_ok _ _ _ _ _ (read_ok _ _ _ E)).
  eexists. split; [reflexivity|].
  destruct o; (split; [intros H|intros (l' & es & E' & Hn)]);
    try discriminate; try reflexivity;
    try (eexists l, _; split; [reflexivity|exact E]);
    injection E' as <-; rewrite E in Hn; discriminate.
Qed.

Lemma is_node_ok (g : heap) (v : value) :
  allocated g v ->
  exists b, is_node v g = Ok b g /\ (b = true <-> node_at g v).
Proof.
  intros Ha. destruct v as [| | |l];
    try (exists false; split; [reflexivity|];
         split; [discriminate|intros (? & ? & ? & ? & _); discriminate]).
  simpl in Ha. apply nth_error_Some in Ha.
  destruct (nth_error g l) as [o|] eqn:E; [|congruence].
  unfold is_node. rewrite (bind_ok _ _ _ _ _ (read_ok _ _ _ E)).
  eexists. split; [reflexivity|].
  destruct o; (split; [intros H|intros (l' & its & ats & E' & Hn)]);
    try discriminate; try reflexivity;
    try (eexists l, _, _; split; [reflexivity|exact E]);
    injection E' as <-; rewrite E in Hn; discriminate.
Qed.

(** ** Writing an entry of a node to which nothing refers *)

Lemma no_dangling_nth (g : heap) (l : loc) (o : obj) (c : loc) :
  no_dangling g -> nth_error g l = Some o -> In (VRef c) (vals o) ->
  (c < Datatypes.length g)%nat.
Proof.
  intros Hd Hn Hin. apply (proj1 (no_dangling_held g) Hd). now exists l, o.
Qed.

Lemma no_dangling_write (g : heap) (r : loc) (o : obj) :
  no_dangling g ->
  (forall c, In (VRef c) (vals o) -> (c < Datatypes.length g)%nat) ->
  no_dangling (update_nth r o g).
Proof.
  intros Hd Ho. apply no_dangling_held. intros c (l & o' & Hn & Hin).
  rewrite length_update_nth.
  destruct (Nat.eq_dec l r) as [->|Hne].
  - assert (Hr : (r < Datatypes.length g)%nat).
    { apply nth_error_lt in Hn. now rewrite length_update_nth in Hn. }
    rewrite nth_error_update_nth_same in Hn by exact Hr.
    injection Hn as <-. auto.
  - rewrite nth_error_update_nth_other in Hn by exact Hne.
    eapply no_dangling_nth; eauto.
Qed.

Lemma no_dangling_alloc (g : heap) (o : obj) :
  no_dangling g ->
  (forall c, In (VRef c) (vals o) -> (c < Datatypes.length g)%nat) ->
  no_dangling (g ++ [o]).
Proof.
  intros Hd Ho. apply no_dangling_held. intros c (l & o' & Hn & Hin).
  rewrite length_app. simpl.
  destruct (Nat.lt_ge_cases l (Datatypes.length g)) as [Hl|Hl].
  - rewrite nth_error_snoc_old in Hn by exact Hl.
    pose proof (no_dangling_nth _ _ _ _ Hd Hn Hin). lia.
  - assert (l = Datatypes.length g) as ->.
    { apply nth_error_lt in Hn. rewrite length_app in Hn. simpl in Hn. lia. }
    rewrite nth_error_snoc_new in Hn. injection Hn as <-.
    specialize (Ho c Hin). lia.
Qed.

Lemma unheld_write (g : heap) (r r0 : loc) (o : obj) :
  ~ held g r -> ~ In (VRef r) (vals o) -> ~ held (update_nth r0 o g) r.
Proof.
  intros Hr Ho (l & o' & Hn & Hin).
  destruct (Nat.eq_dec l r0) as [->|Hne].
  - assert (Hlt : (r0 < Datatypes.length g)%nat).
    { apply nth_error_lt in Hn. now rewrite length_update_nth in Hn. }
    rewrite nth_error_update_nth_same in Hn by exact Hlt.
    injection Hn as <-. contradiction.
  - rewrite nth_error_update_nth_other in Hn by exact Hne.
    apply Hr. now exists l, o'.
Qed.

Lemma unheld_alloc (g : heap) (r : loc) (o : obj) :
  ~ held g r -> ~ In (VRef r) (vals o) -> ~ held (g ++ [o]) r.
Proof.
  intros Hr Ho (l & o' & Hn & Hin).
  destruct (Nat.lt_ge_cases l (Datatypes.length g)) as [Hl|Hl].
  - rewrite nth_error_snoc_old in Hn by exact Hl. apply Hr. now exists l, o'.
  - assert (l = Datatypes.length g) as ->.
    { apply nth_error_lt in Hn. rewrite length_app in Hn. simpl in Hn. lia. }
    rewrite nth_error_snoc_new in Hn. injection Hn as <-. contradiction.
Qed.

(** The heap after [dict.__setitem__(r, k, w)], when nothing refers to the
    node [r]: the content of [w] is what it was. *)
Lemma write_entry (j : nat) (g : heap) (r : loc) (cur : items_t)
    (attrs : list (string * value)) (k : key) (w : value) (tw : tree) :
  well_formed g -> ~ held g r ->
  nth_error g r = Some (ONode cur attrs) ->
  w <> VRef r -> tree_of j g w = Some tw ->
  let g' := update_nth r (ONode (assoc_set k w cur) attrs) g in
  nth_error g' r = Some (ONode (assoc_set k w cur) attrs) /\
  (forall l, l <> r -> nth_error g' l = nth_error g l) /\
  tree_of j g' w = Some tw /\ ~ held g' r /\ well_formed g'.
Proof.
  intros [Hd Hu] Hr Hn Hw Ht g'.
  assert (Hlt : (r < Datatypes.length g)%nat) by (eapply nth_error_lt; eauto).
  assert (Hsame : forall l, l <> r -> nth_error g' l = nth_error g l).
  { intros l Hl. now apply nth_error_update_nth_other. }
  split; [now apply nth_error_update_nth_same|].
  split; [exact Hsame|].
  split; [eapply tree_of_write; eauto|].
  split.
  - apply unheld_write; auto. simpl. intros Hin.
    apply vals_assoc_set in Hin as [E|Hin]; [congruence|].
    apply Hr. exists r, (ONode cur attrs). auto.
  - split.
    + apply no_dangling_write; auto. simpl. intros c Hin.
      apply vals_assoc_set in Hin as [E|Hin].
      * subst w. exact (tree_of_allocated _ _ _ _ Ht).
      * eapply no_dangling_nth; eauto.
    + apply unique_keys_write; auto. apply nodup_assoc_set.
      exact (unique_keys_nth _ _ _ Hu Hn).
Qed.

Lemma assoc_set_middle (k : key) (v w : value) (done rest : items_t) :
  ~ In k (keys done) ->
  assoc_set k w (done ++ (k, v) :: rest) = (done ++ (k, w) :: rest)%list.
Proof.
  induction done as [|[k' v'] d IH]; simpl; intros Hk.
  - now rewrite key_eqb_refl.
  - destruct (key_eqb k k') eqn:E.
    + apply key_eqb_eq in E. subst. exfalso. apply Hk. now left.
    + f_equal. apply IH. intros Hin. apply Hk. now right.
Qed.

(** Objects other than [r] are kept, and nothing refers to [r]: the content
    of the values that are not [r] is kept. *)
Lemma tree_of_other (r : loc) (g g' : heap) (n : nat) (v : value) (t : tree) :
  (forall l o, l <> r -> nth_error g l = Some o -> nth_error g' l = Some o) ->
  ~ held g r -> v <> VRef r ->
  tree_of n g v = Some t -> tree_of n g' v = Some t.
Proof.
  intros Hsame Hr Hv.
  apply (tree_of_agree (fun l => l <> r)).
  - intros l o Hl Ho. now apply Hsame.
  - intros l o c _ Ho Hin ->. apply Hr. now exists l, o.
  - intros l -> ->. now apply Hv.
Qed.

Lemma trees_other (r : loc) (g g' : heap) (n : nat) (items : items_t)
    (ts : list (key * tree)) :
  (forall l o, l <> r -> nth_error g l = Some o -> nth_error g' l = Some o) ->
  ~ held g r -> ~ In (VRef r) (map snd items) ->
  all_some (tree_entry (tree_of n g)) items = Some ts ->
  all_some (tree_entry (tree_of n g')) items = Some ts.
Proof.
  intros Hsame Hr Hin. apply all_some_mono.
  intros kv e Hkv. apply tree_entry_mono. intros t.
  apply (tree_of_other r); auto.
  intros E. apply Hin. rewrite <- E. now apply in_map.
Qed.

Lemma trees_frame (m : nat) (h g : heap) (n : nat) (items : items_t)
    (ts : list (key * tree)) :
  frame m h g -> (Datatypes.length h <= m)%nat ->
  all_some (tree_entry (tree_of n h)) items = Some ts ->
  all_some (tree_entry (tree_of n g)) items = Some ts.
Proof.
  intros Hf Hm. apply all_some_mono.
  intros kv e _. apply tree_entry_mono. intros t.
  now apply (tree_of_frame m).
Qed.

Lemma elems_frame (m : nat) (h g : heap) (n : nat) (elems : list value)
    (ts : list tree) :
  frame m h g -> (Datatypes.length h <= m)%nat ->
  all_some (tree_of n h) elems = Some ts ->
  all_some (tree_of n g) elems = Some ts.
Proof.
  intros Hf Hm. apply all_some_mono.
  intros v t _. now apply (tree_of_frame m).
Qed.

Lemma all_some_cons_inv {A B : Type} (f : A -> option B) (a : A)
    (r : list A) (bs : list B) :
  all_some f (a :: r) = Some bs ->
  exists b bs', f a = Some b /\ all_some f r = Some bs' /\ bs = b :: bs'.
Proof.
  simpl. destruct (f a) as [b|]; [|discriminate].
  destruct (all_some f r) as [bs'|]; [|discriminate].
  intros E. injection E as <-. eauto.
Qed.

Lemma tree_entry_inv (f : value -> option tree) (k : key) (v : value)
    (e : key * tree) :
  tree_entry f (k, v) = Some e -> exists t, f v = Some t /\ e = (k, t).
Proof.
  unfold tree_entry. simpl. destruct (f v) as [t|]; [|discriminate].
  intros E. injection E as <-. eauto.
Qed.

Lemma tree_of_mapping (n : nat) (h : heap) (x : value) (t : tree) :
  mapping_at h x -> tree_of (S n) h x = Some t ->
  exists m o items ts,
    x = VRef m /\ nth_error h m = Some o /\ items_of o = Some items /\
    all_some (tree_entry (tree_of n h)) items = Some ts /\ t = TMap ts.
Proof.
  intros (m & o & -> & Hn & Ho) H. cbn [tree_of] in H. rewrite Hn in H.
  destruct o as [items attrs|items|elems]; try contradiction;
    (destruct (all_some (tree_entry (tree_of n h)) items) as [ts|] eqn:E;
     [|discriminate]);
    injection H as <-; exists m; eexists _, items, ts;
    (split; [reflexivity|]); (split; [exact Hn|]);
    (split; [reflexivity|]); (split; [exact E|reflexivity]).
Qed.

Lemma tree_of_map_node (n : nat) (h : heap) (r : loc) (items : items_t)
    (attrs : list (string * value)) (ts : list (key * tree)) :
  nth_error h r = Some (ONode items attrs) ->
  all_some (tree_entry (tree_of n h)) items = Some ts ->
  tree_of (S n) h (VRef r) = Some (TMap ts).
Proof. intros Hn E. cbn [tree_of]. now rewrite Hn, E. Qed.

Lemma tree_of_list (n : nat) (h : heap) (v : value) (t : tree) :
  list_at h v -> tree_of n h v = Some t ->
  exists n0 l elems tls,
    n = S n0 /\ v = VRef l /\ nth_error h l = Some (OList elems) /\
    all_some (tree_of n0 h) elems = Some tls /\ t = TList tls.
Proof.
  intros (l & elems & -> & Hn) H. destruct n as [|n0]; [discriminate|].
  cbn [tree_of] in H. rewrite Hn in H.
  destruct (all_some (tree_of n0 h) elems) as [tls|] eqn:E; [|discriminate].
  injection H as <-. exists n0, l, elems, tls. auto.
Qed.

Lemma tree_of_list_node (n : nat) (h : heap) (l : loc) (elems : list value)
    (tls : list tree) :
  nth_error h l = Some (OList elems) ->
  all_some (tree_of n h) elems = Some tls ->
  tree_of (S n) h (VRef l) = Some (TList tls).
Proof. intros Hn E. cbn [tree_of]. now rewrite Hn, E. Qed.

Lemma all_some_allocated (n : nat) (h : heap) (elems : list value)
    (tls : list tree) (c : loc) :
  all_some (tree_of n h) elems = Some tls -> In (VRef c) elems ->
  (c < Datatypes.length h)%nat.
Proof.
  intros H Hin. destruct (all_some_In _ _ _ _ H Hin) as [t Ht].
  exact (tree_of_allocated _ _ _ _ Ht).
Qed.

(** ** The content of [Settings(src)] *)

Section InitContent.

Variables f n : nat.

(** The constructor calls that [__init__] and [__setitem__] make, on sources
    of depth at most [n]. *)
Hypothesis ctor_content :
  forall (j : nat) (x : value) (t : tree) (h : heap),
    (j <= n)%nat -> well_formed h -> mapping_at h x ->
    tree_of j h x = Some t ->
    exists r h',
      __init__ f (Some x) h = Ok r h' /\ tree_of j h' (VRef r) = Some t.

Lemma ctor_eval (j : nat) (x : value) (t : tree) (h : heap) :
  (j <= n)%nat -> well_formed h -> mapping_at h x ->
  tree_of j h x = Some t ->
  exists h',
    __init__ f (Some x) h = Ok (Datatypes.length h) h' /\
    tree_of j h' (VRef (Datatypes.length h)) = Some t /\
    frame (Datatypes.length h) h h' /\
    (Datatypes.length h < Datatypes.length h')%nat /\
    held_le h h' /\ well_formed h'.
Proof.
  intros Hj Hw Hm Ht.
  destruct (ctor_content j x t h Hj Hw Hm Ht) as (r & h' & Hi & Ht').
  pose proof (init_frame _ _ _ _ _ Hi) as [-> Hf].
  destruct (init_node _ _ _ _ _ Hi) as [its Hn].
  exists h'. split; [exact Hi|]. split; [exact Ht'|]. split; [exact Hf|].
  split; [eapply nth_error_lt; eauto|].
  split; [eapply init_held; eauto|eapply init_well_formed; eauto].
Qed.

(** [self[k] = v] on a node [r] to which nothing refers: the entry that is
    stored has the content of [v]. *)
Lemma setitem_eval (j : nat) (r : loc) (k : key) (v : value) (tv : tree)
    (g : heap) (cur : items_t) (attrs : list (string * value)) :
  (j <= n)%nat -> well_formed g -> ~ held g r ->
  nth_error g r = Some (ONode cur attrs) ->
  v <> VRef r -> tree_of j g v = Some tv ->
  exists w g',
    __setitem__ f r (NKey k) v g = Ok tt g' /\
    nth_error g' r = Some (ONode (assoc_set k w cur) attrs) /\
    (forall l o, l <> r -> nth_error g l = Some o ->
                 nth_error g' l = Some o) /\
    tree_of j g' w = Some tv /\ w <> VRef r /\
    ~ held g' r /\ well_formed g'.
Proof.
  intros Hj Hw Hr Hn Hv Ht.
  assert (Hrlt : (r < Datatypes.length g)%nat)
    by (eapply nth_error_lt; eauto).
  destruct (is_dict_ok g v (tree_of_allocated _ _ _ _ Ht)) as (b & Hd & Hb).
  unfold __setitem__, __setitem__with.
  unfold bind at 1. unfold resolve. cbn [is_ig]. unfold ret at 1.
  rewrite (bind_ok _ _ _ _ _ Hd). cbn [key_of_name].
  destruct b.
  - destruct (ctor_eval j v tv g Hj Hw (proj1 Hb eq_refl) Ht)
      as (g1 & Hi & Ht1 & Hf & Hlt & Hle & Hw1).
    assert (Hv' : (n0 <- __init__ f (Some v) ;; ret (VRef n0)) g
                  = Ok (VRef (Datatypes.length g)) g1)
      by (unfold bind; rewrite Hi; reflexivity).
    cbv beta iota. rewrite (bind_ok _ _ _ _ _ Hv').
    assert (Hn1 : nth_error g1 r = Some (ONode cur attrs))
      by (exact (frame_nth _ _ _ _ _ Hf Hrlt Hn)).
    assert (Hr1 : ~ held g1 r) by (eapply held_le_unheld; eauto).
    assert (Hne : VRef (Datatypes.length g) <> VRef r).
    { intros E. injection E as E. lia. }
    destruct (write_entry j g1 r cur attrs k _ tv Hw1 Hr1 Hn1 Hne Ht1)
      as (Hn' & Hsame & Ht' & Hr' & Hw').
    eexists _, _. split; [exact (dict_set_ok _ _ _ _ _ _ Hn1)|].
    split; [exact Hn'|]. split.
    { intros l o Hl Ho. rewrite Hsame by exact Hl.
      destruct Hf as [_ Hf]. rewrite Hf; auto.
      eapply nth_error_lt; eauto. }
    auto.
  - cbv beta iota. unfold bind at 1, ret at 1.
    destruct (write_entry j g r cur attrs k v tv Hw Hr Hn Hv Ht)
      as (Hn' & Hsame & Ht' & Hr' & Hw').
    eexists _, _. split; [exact (dict_set_ok _ _ _ _ _ _ Hn)|].
    split; [exact Hn'|]. split.
    { intros l o Hl Ho. now rewrite Hsame. }
    auto.
Qed.

(** The list comprehension of [__init__]: the new elements have the content
    of the old ones. *)
Lemma init_elems_content (j : nat) :
  (j <= n)%nat ->
  forall (elems : list value) (tls : list tree) (g : heap),
    well_formed g ->
    all_some (tree_of j g) elems = Some tls ->
    exists elems' g',
      mapM (fun i => di <- is_dict i ;;
                     if di then n0 <- __init__ f (Some i) ;; ret (VRef n0)
                     else ret i) elems g = Ok elems' g' /\
      all_some (tree_of j g') elems' = Some tls /\
      frame (Datatypes.length g) g g' /\ well_formed g'.
Proof.
  intros Hj. induction elems as [|e es IH]; intros tls g Hw Hall.
  - simpl in Hall. injection Hall as <-.
    exists [], g. split; [reflexivity|]. split; [reflexivity|].
    split; [apply frame_refl|exact Hw].
  - apply all_some_cons_inv in Hall as (te & tls' & He & Hes & ->).
    destruct (is_dict_ok g e (tree_of_allocated _ _ _ _ He))
      as (b & Hd & Hb).
    assert (Hel : exists e' g1,
               (di <- is_dict e ;;
                if di then n0 <- __init__ f (Some e) ;; ret (VRef n0)
                else ret e) g = Ok e' g1 /\
               tree_of j g1 e' = Some te /\
               frame (Datatypes.length g) g g1 /\ well_formed g1).
    { rewrite (bind_ok _ _ _ _ _ Hd). destruct b.
      - destruct (ctor_eval j e te g Hj Hw (proj1 Hb eq_refl) He)
          as (g1 & Hi & Ht1 & Hf & Hlt & Hle & Hw1).
        rewrite (bind_ok _ _ _ _ _ Hi).
        eexists _, _. split; [reflexivity|]. auto.
      - eexists _, _. split; [reflexivity|].
        split; [exact He|]. split; [apply frame_refl|exact Hw]. }
    destruct Hel as (e' & g1 & He' & Ht1 & Hf & Hw1).
    destruct (IH tls' g1 Hw1 (elems_frame _ _ _ _ _ _ Hf (le_n _) Hes))
      as (es' & g' & Hm & Hts & Hf' & Hw').
    exists (e' :: es'), g'. split.
    { cbn [mapM]. rewrite (bind_ok _ _ _ _ _ He').
      rewrite (bind_ok _ _ _ _ _ Hm). reflexivity. }
    split.
    { cbn [all_some].
      rewrite (tree_of_frame _ _ _ _ _ _ Hf' (le_n _) Ht1), Hts.
      reflexivity. }
    split; [|exact Hw'].
    eapply frame_trans; [exact Hf|].
    eapply frame_weaken; [|exact Hf']. destruct Hf. lia.
Qed.

Local Abbreviation init_body self :=
  (fun kv : key * value =>
     d <- is_dict (snd kv) ;;
     (if d then
        n0 <- __init__ f (Some (snd kv)) ;;
        __setitem__with (fun w => __init__ f (Some w)) self (NKey (fst kv))
          (VRef n0)
      else ret tt) ;;;
     l <- is_list (snd kv) ;;
     (if l then
        elems <- method (fun l0 => o <- read l0 ;;
                           match o with
                           | OList es => ret es
                           | _ => raise TypeError
                           end) (snd kv) ;;
        elems' <- mapM (fun i =>
                    di <- is_dict i ;;
                    if di then n0 <- __init__ f (Some i) ;; ret (VRef n0)
                    else ret i) elems ;;
        nl <- alloc (OList elems') ;;
        __setitem__with (fun w => __init__ f (Some w)) self (NKey (fst kv))
          (VRef nl)
      else ret tt))%py.

Lemma init_unfold (src : option value) :
  __init__ (S f) src
  = (items <- match src with
              | None => ret []
              | Some v => mapping_items v
              end ;;
     self <- alloc (ONode items []) ;;
     forM items (init_body self) ;;;
     ret self)%py.
Proof. reflexivity. Qed.

(** One iteration of the loop of [__init__], on the node [r] under
    construction, to which nothing refers yet. *)
Lemma init_step_content (r : loc) (k : key) (v : value) (tv : tree)
    (done rest : items_t) (g : heap) :
  well_formed g -> ~ held g r ->
  nth_error g r = Some (ONode (done ++ (k, v) :: rest) []) ->
  tree_of n g v = Some tv ->
  exists w g',
    init_body r (k, v) g = Ok tt g' /\
    nth_error g' r = Some (ONode (done ++ (k, w) :: rest) []) /\
    (forall l o, l <> r -> nth_error g l = Some o ->
                 nth_error g' l = Some o) /\
    tree_of n g' w = Some tv /\ w <> VRef r /\
    ~ held g' r /\ well_formed g'.
Proof.
  intros Hw Hr Hn Ht.
  assert (Hrlt : (r < Datatypes.length g)%nat)
    by (eapply nth_error_lt; eauto).
  assert (Hv : v <> VRef r).
  { intros ->. apply Hr. eexists r, _. split; [exact Hn|].
    simpl. rewrite map_app. apply in_or_app. right. now left. }
  assert (Hk : ~ In k (keys done)).
  { pose proof (unique_keys_nth _ _ _ (proj2 Hw) Hn) as N. simpl in N.
    unfold keys in N. rewrite map_app in N. simpl in N.
    apply NoDup_remove_2 in N. intros Hin. apply N.
    apply in_or_app. now left. }
  pose proof (tree_of_allocated _ _ _ _ Ht) as Hal.
  destruct (is_dict_ok g v Hal) as (b & Hd & Hb).
  (* the first statement of the body *)
  assert (H1 : exists w1 g1,
             (if b then
                n0 <- __init__ f (Some v) ;;
                __setitem__with (fun w => __init__ f (Some w)) r (NKey k)
                  (VRef n0)
              else ret tt) g = Ok tt g1 /\
             nth_error g1 r = Some (ONode (done ++ (k, w1) :: rest) []) /\
             (forall l o, l <> r -> nth_error g l = Some o ->
                          nth_error g1 l = Some o) /\
             tree_of n g1 w1 = Some tv /\ w1 <> VRef r /\
             ~ held g1 r /\ well_formed g1 /\
             (b = true \/ (w1 = v /\ g1 = g))).
  { destruct b.
    - destruct (ctor_eval n v tv g (le_n _) Hw (proj1 Hb eq_refl) Ht)
        as (g1 & Hi & Ht1 & Hf & Hlt & Hle & Hw1).
      rewrite (bind_ok _ _ _ _ _ Hi).
      assert (Hn1 : nth_error g1 r
                    = Some (ONode (done ++ (k, v) :: rest) []))
        by (exact (frame_nth _ _ _ _ _ Hf Hrlt Hn)).
      assert (Hr1 : ~ held g1 r) by (eapply held_le_unheld; eauto).
      assert (Hne : VRef (Datatypes.length g) <> VRef r).
      { intros E. injection E as E. lia. }
      destruct (setitem_eval n r k _ tv g1 _ _ (le_n _) Hw1 Hr1 Hn1 Hne Ht1)
        as (w & g2 & Hs & Hn2 & Hsame & Ht2 & Hw2 & Hr2 & Hwf2).
      rewrite (assoc_set_middle _ _ _ _ _ Hk) in Hn2.
      exists w, g2. split; [exact Hs|]. split; [exact Hn2|].
      split.
      { intros l o Hl Ho. apply Hsame; auto.
        destruct Hf as [_ Hf]. rewrite Hf; auto.
        eapply nth_error_lt; eauto. }
      repeat (split; [assumption|]). now left.
    - exists v, g. split; [reflexivity|]. split; [exact Hn|].
      split; [auto|]. repeat (split; [assumption|]). right. auto. }
  destruct H1 as (w1 & g1 & He1 & Hn1 & Hsame1 & Ht1 & Hw1 & Hr1 & Hwf1 & Hb1).
  assert (Hal1 : allocated g1 v).
  { destruct v as [| | |l]; simpl in *; auto.
    apply nth_error_Some in Hal.
    destruct (nth_error g l) as [o|] eqn:E; [|congruence].
    assert (l <> r) by congruence.
    eapply nth_error_lt. eapply Hsame1; eauto. }
  destruct (is_list_ok g1 v Hal1) as (b' & Hl & Hb').
  cbv beta. cbn [fst snd].
  rewrite (bind_ok _ _ _ _ _ Hd).
  rewrite (bind_ok _ _ _ _ _ He1).
  rewrite (bind_ok _ _ _ _ _ Hl).
  destruct b'.
  - (* the value is a list: it is not a mapping, nothing was done yet *)
    destruct (proj1 Hb' eq_refl) as (l & elems & -> & Hnl).
    assert (Hnm : b = false).
    { destruct b; auto. exfalso.
      destruct (proj1 Hb eq_refl) as (l' & o & E & Hno & Ho).
      injection E as <-.
      assert (l <> r) by congruence.
      rewrite (Hsame1 _ _ H Hno) in Hnl. injection Hnl as ->. exact Ho. }
    destruct Hb1 as [Hb1|[-> ->]]; [congruence|].
    destruct (tree_of_list n g (VRef l) tv) as
      (n0 & l' & elems0 & tls & En & E & Hnl' & Hall & ->);
      [now exists l, elems|exact Ht|].
    injection E as <-. rewrite Hnl in Hnl'. injection Hnl' as <-.
    destruct (init_elems_content n0 ltac:(lia) elems tls g Hw Hall)
      as (elems' & g5 & Hm & Hts & Hf5 & Hw5).
    assert (Hctor : forall w h1 r1 h2,
               __init__ f (Some w) h1 = Ok r1 h2 ->
               r1 = Datatypes.length h1 /\ (r1 < Datatypes.length h2)%nat /\
               held_le h1 h2).
    { intros w h1 r1 h2 Hi.
      pose proof (init_frame _ _ _ _ _ Hi) as [-> _].
      destruct (init_node _ _ _ _ _ Hi) as [its Hni].
      split; auto. split; [eapply nth_error_lt; eauto|].
      eapply init_held; eauto. }
    destruct (init_elems_held _ _ Hctor _ _ _ Hm) as (Hle5 & Hlen5 & Hin5).
    set (g6 := (g5 ++ [OList elems'])%list).
    assert (Hf6 : frame (Datatypes.length g5) g5 g6) by apply frame_alloc.
    assert (Hnl6 : nth_error g6 (Datatypes.length g5) = Some (OList elems'))
      by apply nth_error_snoc_new.
    assert (Ht6 : tree_of n g6 (VRef (Datatypes.length g5))
                  = Some (TList tls)).
    { rewrite En. apply (tree_of_list_node _ _ _ elems'); auto.
      exact (elems_frame _ _ _ _ _ _ Hf6 (le_n _) Hts). }
    assert (Hr5 : ~ held g5 r) by (eapply held_le_unheld; eauto).
    assert (Hr6 : ~ held g6 r).
    { apply unheld_alloc; auto. simpl. intros Hin.
      destruct (Hin5 r Hin) as [Hi|[Ha _]]; [|lia].
      apply Hr. exists l, (OList elems). auto. }
    assert (Hw6 : well_formed g6).
    { destruct Hw5 as [Hd5 Hu5]. split.
      - apply no_dangling_alloc; auto. simpl. intros c Hc.
        eapply all_some_allocated; eauto.
      - apply unique_keys_alloc; auto. }
    assert (Hn6 : nth_error g6 r
                  = Some (ONode (done ++ (k, VRef l) :: rest) [])).
    { unfold g6. rewrite nth_error_snoc_old by (destruct Hf5; lia).
      exact (frame_nth _ _ _ _ _ Hf5 Hrlt Hn). }
    assert (Hne : VRef (Datatypes.length g5) <> VRef r).
    { intros E. injection E as E. destruct Hf5. lia. }
    destruct (setitem_eval n r k _ _ g6 _ _ (le_n _) Hw6 Hr6 Hn6 Hne Ht6)
      as (w & g7 & Hs & Hn7 & Hsame7 & Ht7 & Hw7 & Hr7 & Hwf7).
    rewrite (assoc_set_middle _ _ _ _ _ Hk) in Hn7.
    exists w, g7. split.
    { assert (Hrd : method (fun l0 => o <- read l0 ;;
                                 match o with
                                 | OList es => ret es
                                 | _ => raise TypeError
                                 end) (VRef l) g = Ok elems g).
      { cbn [method]. now rewrite (bind_ok _ _ _ _ _ (read_ok _ _ _ Hnl)). }
      rewrite (bind_ok _ _ _ _ _ Hrd).
      rewrite (bind_ok _ _ _ _ _ Hm).
      unfold bind at 1, alloc at 1. exact Hs. }
    split; [exact Hn7|]. split.
    { intros l0 o Hl0 Ho. apply Hsame7; auto.
      unfold g6. rewrite nth_error_snoc_old
        by (apply nth_error_lt in Ho; destruct Hf5; lia).
      destruct Hf5 as [_ Hf5]. rewrite Hf5; auto.
      eapply nth_error_lt; eauto. }
    auto.
  - exists w1, g1. split; [reflexivity|]. auto 10.
Qed.

(** The loop of [__init__]: the entries that were visited have the content
    of the entries of the source. *)
Lemma init_loop_content (r : loc) :
  forall (rest done : items_t) (ts_done ts_rest : list (key * tree))
         (g : heap),
    well_formed g -> ~ held g r ->
    nth_error g r = Some (ONode (done ++ rest) []) ->
    all_some (tree_entry (tree_of n g)) done = Some ts_done ->
    all_some (tree_entry (tree_of n g)) rest = Some ts_rest ->
    exists g' done',
      forM rest (init_body r) g = Ok tt g' /\
      nth_error g' r = Some (ONode done' []) /\
      all_some (tree_entry (tree_of n g')) done'
      = Some (ts_done ++ ts_rest)%list.
Proof.
  induction rest as [|[k v] rest IH];
    intros done ts_done ts_rest g Hw Hr Hn Hd Hrest.
  - simpl in Hrest. injection Hrest as <-.
    rewrite app_nil_r in *. exists g, done. auto.
  - apply all_some_cons_inv in Hrest as (e & ts' & He & Hrest & ->).
    apply tree_entry_inv in He as (tv & Ht & ->).
    destruct (init_step_content r k v tv done rest g Hw Hr Hn Ht)
      as (w & g1 & Hs & Hn1 & Hsame & Ht1 & Hw1 & Hr1 & Hwf1).
    assert (Hvals : forall x, In x (map snd (done ++ (k, v) :: rest)) ->
                              x <> VRef r).
    { intros x Hx ->. apply Hr. eexists r, _. split; [exact Hn|exact Hx]. }
    assert (Hd1 : all_some (tree_entry (tree_of n g1)) (done ++ [(k, w)])
                  = Some (ts_done ++ [(k, tv)])%list).
    { apply all_some_app.
      - apply (trees_other r g); auto.
        intros Hin. apply (Hvals (VRef r)); auto.
        rewrite map_app. apply in_or_app. now left.
      - cbn [all_some]. unfold tree_entry. cbn [fst snd]. now rewrite Ht1. }
    assert (Hrest1 : all_some (tree_entry (tree_of n g1)) rest = Some ts').
    { apply (trees_other r g); auto.
      intros Hin. apply (Hvals (VRef r)); auto.
      rewrite map_app. apply in_or_app. right. now right. }
    rewrite (app_assoc done [(k, w)] rest : (done ++ (k, w) :: rest
               = (done ++ [(k, w)]) ++ rest)%list) in Hn1.
    destruct (IH _ _ _ g1 Hwf1 Hr1 Hn1 Hd1 Hrest1)
      as (g' & done' & Hloop & Hn' & Hts).
    exists g', done'. split.
    { cbn [forM]. rewrite (bind_ok _ _ _ _ _ Hs). exact Hloop. }
    split; [exact Hn'|].
    rewrite Hts. now rewrite <- app_assoc.
Qed.

(** One level of [Settings(src)], for a source of depth [S n]. *)
Lemma init_level (x : value) (t : tree) (h : heap) :
  well_formed h -> mapping_at h x ->
  tree_of (S n) h x = Some t ->
  exists r h',
    __init__ (S f) (Some x) h = Ok r h' /\
    tree_of (S n) h' (VRef r) = Some t.
Proof.
  intros Hw Hm Ht.
  destruct (tree_of_mapping _ _ _ _ Hm Ht)
    as (m & o & items & ts & -> & Hn & Hio & Hts & ->).
  assert (Hmi : mapping_items (VRef m) h = Ok items h).
  { unfold mapping_items. rewrite (bind_ok _ _ _ _ _ (read_ok _ _ _ Hn)).
    destruct o; simpl in Hio; try discriminate;
      injection Hio as ->; reflexivity. }
  assert (Hvals : vals o = map snd items)
    by (destruct o; simpl in Hio; try discriminate;
        injection Hio as ->; reflexivity).
  assert (Hnd : NoDup (keys items)).
  { pose proof (unique_keys_nth _ _ _ (proj2 Hw) Hn) as N.
    destruct o; simpl in Hio; try discriminate;
      injection Hio as ->; exact N. }
  set (r := Datatypes.length h).
  set (h1 := (h ++ [ONode items []])%list).
  assert (Hf1 : frame r h h1) by apply frame_alloc.
  assert (Hr : ~ held h r).
  { intros Hh. apply (proj1 (no_dangling_held h) (proj1 Hw)) in Hh.
    unfold r in Hh. lia. }
  assert (Hw1 : well_formed h1).
  { destruct Hw as [Hd Hu]. split.
    - apply no_dangling_alloc; auto. simpl. intros c Hc.
      eapply no_dangling_nth; eauto. now rewrite Hvals.
    - apply unique_keys_alloc; auto. }
  assert (Hr1 : ~ held h1 r).
  { apply unheld_alloc; auto. simpl. intros Hin.
    apply Hr. exists m, o. rewrite Hvals. auto. }
  assert (Hn1 : nth_error h1 r = Some (ONode ([] ++ items) []))
    by apply nth_error_snoc_new.
  destruct (init_loop_content r items [] [] ts h1 Hw1 Hr1 Hn1 eq_refl
              (trees_frame _ _ _ _ _ _ Hf1 (le_n _) Hts))
    as (g' & done' & Hloop & Hn' & Hts').
  exists r, g'. split.
  - rewrite init_unfold.
    rewrite (bind_ok _ _ _ _ _ Hmi).
    unfold bind at 1, alloc at 1. fold r. fold h1.
    rewrite (bind_ok _ _ _ _ _ Hloop). reflexivity.
  - eapply tree_of_map_node; eauto.
Qed.

End InitContent.

Lemma init_content_bounded (m : nat) :
  forall (n f : nat) (x : value) (t : tree) (h : heap),
    (n <= m)%nat -> (n <= f)%nat ->
    well_formed h -> mapping_at h x -> tree_of n h x = Some t ->
    exists r h',
      __init__ f (Some x) h = Ok r h' /\ tree_of n h' (VRef r) = Some t.
Proof.
  induction m as [|m IH]; intros n f x t h Hm Hf Hw Hx Ht.
  - assert (n = 0)%nat as -> by lia. discriminate.
  - destruct n as [|n]; [discriminate|].
    destruct f as [|f]; [lia|].
    apply init_level; auto.
    intros j x0 t0 h0 Hj Hw0 Hx0 Ht0.
    apply (IH j f); auto; lia.
Qed.

(** [Settings(src)] on a source of finite depth, with enough fuel. *)
Lemma init_content_ok (n f : nat) (x : value) (t : tree) (h : heap) :
  (n <= f)%nat -> well_formed h -> mapping_at h x ->
  tree_of n h x = Some t ->
  exists h',
    __init__ f (Some x) h = Ok (Datatypes.length h) h' /\
    frame (Datatypes.length h) h h' /\
    (Datatypes.length h < Datatypes.length h')%nat /\
    (exists items, nth_error h' (Datatypes.length h) = Some (ONode items [])) /\
    tree_of n h' (VRef (Datatypes.length h)) = Some t /\
    tree_of n h' x = Some t /\
    held_le h h' /\ well_formed h'.
Proof.
  intros Hf Hw Hx Ht.
  destruct (init_content_bounded n n f x t h (le_n _) Hf Hw Hx Ht)
    as (r & h' & Hi & Ht').
  pose proof (init_frame _ _ _ _ _ Hi) as [-> Hfr].
  destruct (init_node _ _ _ _ _ Hi) as [its Hn].
  exists h'. split; [exact Hi|]. split; [exact Hfr|].
  split; [eapply nth_error_lt; eauto|].
  split; [eauto|]. split; [exact Ht'|].
  split; [exact (tree_of_frame _ _ _ _ _ _ Hfr (le_n _) Ht)|].
  split; [eapply init_held; eauto|eapply init_well_formed; eauto].
Qed.





(** * [as_dict] *)

Lemma plain_mono (g g' : heap) (o : obj) :
  (forall c, node_at g' (VRef c) -> node_at g (VRef c)) ->
  plain g o -> plain g' o.
Proof.
  intros Hn Hp. destruct o as [items attrs|items|elems]; simpl in *; auto;
    intros c Hc Hnode; exact (Hp c Hc (Hn c Hnode)).
Qed.

Lemma node_at_frame_back (m : nat) (g g' : heap) (c : loc) :
  frame m g g' -> (c < m)%nat ->
  node_at g' (VRef c) -> node_at g (VRef c).
Proof.
  intros [_ Hf] Hc (l & items & attrs & E & Hn). injection E as <-.
  rewrite Hf in Hn by exact Hc. exists c, items, attrs. auto.
Qed.

Lemma node_at_write_back (g : heap) (d : loc) (o : obj) (c : loc) :
  match o with ONode _ _ => False | _ => True end ->
  node_at (update_nth d o g) (VRef c) -> node_at g (VRef c).
Proof.
  intros Ho (l & items & attrs & E & Hn). injection E as <-.
  destruct (Nat.eq_dec c d) as [->|Hne].
  - assert (Hlt : (d < Datatypes.length g)%nat).
    { apply nth_error_lt in Hn. now rewrite length_update_nth in Hn. }
    rewrite nth_error_update_nth_same in Hn by exact Hlt.
    injection Hn as ->. destruct Ho.
  - rewrite nth_error_update_nth_other in Hn by exact Hne.
    exists c, items, attrs. auto.
Qed.

Lemma node_at_alloc_back (g : heap) (o : obj) (c : loc) :
  match o with ONode _ _ => False | _ => True end ->
  node_at (g ++ [o]) (VRef c) -> node_at g (VRef c).
Proof.
  intros Ho (l & items & attrs & E & Hn). injection E as <-.
  destruct (Nat.lt_ge_cases c (Datatypes.length g)) as [Hl|Hl].
  - rewrite nth_error_snoc_old in Hn by exact Hl.
    exists c, items, attrs. auto.
  - assert (c = Datatypes.length g) as ->.
    { apply nth_error_lt in Hn. rewrite length_app in Hn. simpl in Hn. lia. }
    rewrite nth_error_snoc_new in Hn. injection Hn as ->. destruct Ho.
Qed.

(** [d[k] = w] on the plain dictionary [d] under construction, to which
    nothing refers, for a key that [d] does not hold. *)
Lemma store_entry (f j : nat) (g : heap) (d : loc) (done : items_t)
    (k : key) (w : value) (tw : tree) :
  well_formed g -> ~ held g d ->
  nth_error g d = Some (ODict done) ->
  ~ In k (keys done) ->
  w <> VRef d -> tree_of j g w = Some tw ->
  let g' := update_nth d (ODict (done ++ [(k, w)])) g in
  store_subscript f (VRef d) (NKey k) w g = Ok tt g' /\
  nth_error g' d = Some (ODict (done ++ [(k, w)])) /\
  (forall l, l <> d -> nth_error g' l = nth_error g l) /\
  tree_of j g' w = Some tw /\ ~ held g' d /\ well_formed g'.
Proof.
  intros [Hd Hu] Hr Hn Hk Hw Ht g'.
  assert (Hlt : (d < Datatypes.length g)%nat) by (eapply nth_error_lt; eauto).
  assert (Hsame : forall l, l <> d -> nth_error g' l = nth_error g l).
  { intros l Hl. now apply nth_error_update_nth_other. }
  assert (Hl : lookup k done = None).
  { destruct (lookup k done) eqn:E; auto.
    exfalso. apply Hk. apply lookup_In_keys. congruence. }
  split.
  { unfold store_subscript.
    rewrite (bind_ok _ _ _ _ _ (read_ok _ _ _ Hn)). cbn [key_of_name].
    unfold write. now rewrite (assoc_set_absent _ _ _ Hl). }
  split; [now apply nth_error_update_nth_same|].
  split; [exact Hsame|].
  split; [eapply tree_of_write; eauto|].
  split.
  - apply unheld_write; auto. simpl. rewrite map_app. intros Hin.
    apply in_app_or in Hin as [Hin|[E|[]]].
    + apply Hr. exists d, (ODict done). auto.
    + simpl in E. congruence.
  - split.
    + apply no_dangling_write; auto. simpl. rewrite map_app. intros c Hin.
      apply in_app_or in Hin as [Hin|[E|[]]].
      * eapply no_dangling_nth; eauto.
      * simpl in E. subst w. exact (tree_of_allocated _ _ _ _ Ht).
    + apply unique_keys_write; auto.
      unfold keys. rewrite map_app. simpl.
      apply NoDup_app.
      * exact (unique_keys_nth _ _ _ Hu Hn).
      * repeat constructor. intros [].
      * intros x Hx [<-|[]]. contradiction.
Qed.

Lemma plain_since_refl (g : heap) :
  (forall a o, (Datatypes.length g <= a)%nat -> nth_error g a = Some o ->
               plain g o).
Proof. intros a o Ha Hn. apply nth_error_lt in Hn. lia. Qed.

Lemma plain_since_trans (g g1 g2 : heap) :
  frame (Datatypes.length g1) g1 g2 ->
  (Datatypes.length g <= Datatypes.length g1)%nat ->
  plain_since g g1 -> plain_since g1 g2 -> plain_since g g2.
Proof.
  intros Hf Hlen [N1 P1] [N2 P2]. split; [auto|].
  intros a o Ha Hn.
  destruct (Nat.lt_ge_cases a (Datatypes.length g1)) as [Hl|Hl].
  - apply (plain_mono g1); auto. apply (P1 a); auto.
    destruct Hf as [_ Hf]. now rewrite <- Hf.
  - now apply (P2 a).
Qed.

Section AsDictContent.

Variables f n : nat.

(** The recursive calls of [as_dict], on nodes of depth at most [n]. *)
Hypothesis rec_content :
  forall (j : nat) (s : loc) (t : tree) (h : heap),
    (j <= n)%nat -> well_formed h -> node_at h (VRef s) ->
    tree_of j h (VRef s) = Some t ->
    exists h',
      as_dict f s h = Ok (Datatypes.length h) h' /\
      frame (Datatypes.length h) h h' /\
      (Datatypes.length h < Datatypes.length h')%nat /\
      held_le h h' /\ well_formed h' /\
      tree_of j h' (VRef (Datatypes.length h)) = Some t /\
      plain_since h h'.

(** The list comprehension of [as_dict]. *)
Lemma as_dict_elems_content (j : nat) :
  (j <= n)%nat ->
  forall (elems : list value) (tls : list tree) (g : heap),
    well_formed g ->
    all_some (tree_of j g) elems = Some tls ->
    exists elems' g',
      mapM (fun i => bi <- is_node i ;;
                     if bi then c <- method (as_dict f) i ;; ret (VRef c)
                     else ret i) elems g = Ok elems' g' /\
      all_some (tree_of j g') elems' = Some tls /\
      frame (Datatypes.length g) g g' /\ held_le g g' /\
      well_formed g' /\ plain_since g g' /\
      (forall c, In (VRef c) elems' ->
                 ~ node_at g' (VRef c) /\
                 (In (VRef c) elems \/
                  ((Datatypes.length g <= c)%nat /\
                   (c < Datatypes.length g')%nat))).
Proof.
  intros Hj. induction elems as [|e es IH]; intros tls g Hw Hall.
  - simpl in Hall. injection Hall as <-.
    exists [], g. split; [reflexivity|]. split; [reflexivity|].
    split; [apply frame_refl|]. split; [apply held_le_refl|].
    split; [exact Hw|]. split; [split; [auto|exact (plain_since_refl g)]|].
    intros c [].
  - apply all_some_cons_inv in Hall as (te & tls' & He & Hes & ->).
    destruct (is_node_ok g e (tree_of_allocated _ _ _ _ He))
      as (b & Hd & Hb).
    assert (Hel : exists e' g1,
               (bi <- is_node e ;;
                if bi then c <- method (as_dict f) e ;; ret (VRef c)
                else ret e) g = Ok e' g1 /\
               tree_of j g1 e' = Some te /\
               frame (Datatypes.length g) g g1 /\ held_le g g1 /\
               well_formed g1 /\ plain_since g g1 /\
               (forall c, e' = VRef c ->
                          ~ node_at g1 (VRef c) /\
                          (e = VRef c \/
                           ((Datatypes.length g <= c)%nat /\
                            (c < Datatypes.length g1)%nat)))).
    { rewrite (bind_ok _ _ _ _ _ Hd). destruct b.
      - destruct (proj1 Hb eq_refl) as (s & its & ats & -> & Hs).
        destruct (rec_content j s te g Hj Hw (proj1 Hb eq_refl) He)
          as (g1 & Hi & Hf & Hlt & Hle & Hw1 & Ht1 & Hp).
        cbn [method]. rewrite (bind_ok _ _ _ _ _ Hi).
        eexists _, _. split; [reflexivity|].
        repeat (split; [assumption|]).
        intros c E. injection E as <-. split; [|right; lia].
        intros Hn. apply (proj1 Hp) in Hn. apply node_at_lt in Hn. lia.
      - eexists _, _. split; [reflexivity|].
        split; [exact He|]. split; [apply frame_refl|].
        split; [apply held_le_refl|]. split; [exact Hw|].
        split; [split; [auto|exact (plain_since_refl g)]|].
        intros c ->. split; [|now left].
        intros Hn. apply Hb in Hn. discriminate. }
    destruct Hel as (e' & g1 & He' & Ht1 & Hf & Hle & Hw1 & Hp & Hc1).
    destruct (IH tls' g1 Hw1 (elems_frame _ _ _ _ _ _ Hf (le_n _) Hes))
      as (es' & g' & Hm & Hts & Hf' & Hle' & Hw' & Hp' & Hc').
    exists (e' :: es'), g'. split.
    { cbn [mapM]. rewrite (bind_ok _ _ _ _ _ He').
      rewrite (bind_ok _ _ _ _ _ Hm). reflexivity. }
    split.
    { cbn [all_some].
      rewrite (tree_of_frame _ _ _ _ _ _ Hf' (le_n _) Ht1), Hts.
      reflexivity. }
    assert (L1 : (Datatypes.length g <= Datatypes.length g1)%nat)
      by (destruct Hf; auto).
    assert (L2 : (Datatypes.length g1 <= Datatypes.length g')%nat)
      by (destruct Hf'; auto).
    split.
    { eapply frame_trans; [exact Hf|].
      eapply frame_weaken; [|exact Hf']. lia. }
    split; [eapply held_le_trans; [| |exact Hle|exact Hle']; lia|].
    split; [exact Hw'|].
    split; [eapply plain_since_trans; eauto|].
    intros c [E|Hin].
    + destruct (Hc1 c E) as [Hn1 Ho]. split.
      * intros Hn. apply Hn1. now apply (proj1 Hp').
      * destruct Ho as [->|[Ha Hb']]; [left; now left|right; lia].
    + destruct (Hc' c Hin) as [Hn1 Ho]. split; [exact Hn1|].
      destruct Ho as [Hi|[Ha Hb']]; [left; now right|right; lia].
Qed.

Local Abbreviation as_body d :=
  (fun kv : key * value =>
     b <- is_node (snd kv) ;;
     if b then
       c <- method (as_dict f) (snd kv) ;;
       store_subscript f (VRef d) (NKey (fst kv)) (VRef c)
     else
       l <- is_list (snd kv) ;;
       if l then
         elems <- method (fun l0 => o <- read l0 ;;
                            match o with
                            | OList es => ret es
                            | _ => raise TypeError
                            end) (snd kv) ;;
         elems' <- mapM (fun i =>
                     bi <- is_node i ;;
                     if bi then c <- method (as_dict f) i ;; ret (VRef c)
                     else ret i) elems ;;
         nl <- alloc (OList elems') ;;
         store_subscript f (VRef d) (NKey (fst kv)) (VRef nl)
       else store_subscript f (VRef d) (NKey (fst kv)) (snd kv))%py.

Lemma as_dict_unfold (s : loc) :
  as_dict (S f) s
  = (items <- node_items s ;;
     d <- alloc (ODict []) ;;
     forM items (as_body d) ;;;
     ret d)%py.
Proof. reflexivity. Qed.

(** The assignment [d[k] = w] that ends an iteration of [as_dict], after
    the objects that [w] stands for were created. *)
Lemma as_dict_store (d : loc) (k : key) (w : value) (tw : tree)
    (done : items_t) (g g1 : heap) :
  nth_error g d = Some (ODict done) -> ~ In k (keys done) ->
  ~ held g d ->
  frame (Datatypes.length g) g g1 -> held_le g g1 -> well_formed g1 ->
  plain_since g g1 ->
  tree_of n g1 w = Some tw ->
  (forall c, w = VRef c -> ~ node_at g1 (VRef c) /\ known g g1 c) ->
  exists g',
    store_subscript f (VRef d) (NKey k) w g1 = Ok tt g' /\
    nth_error g' d = Some (ODict (done ++ [(k, w)])) /\
    (forall l o, l <> d -> nth_error g l = Some o ->
                 nth_error g' l = Some o) /\
    tree_of n g' w = Some tw /\ ~ held g' d /\ well_formed g' /\
    (Datatypes.length g <= Datatypes.length g')%nat /\
    held_le g g' /\
    (forall c, node_at g' (VRef c) -> node_at g (VRef c)) /\
    (forall a o, (Datatypes.length g <= a)%nat -> nth_error g' a = Some o ->
                 plain g' o) /\
    (forall c, w = VRef c -> ~ node_at g' (VRef c)).
Proof.
  intros Hn Hk Hr Hf Hle Hw1 [Hnb Hpl] Ht Hwc.
  assert (Hdlt : (d < Datatypes.length g)%nat)
    by (eapply nth_error_lt; eauto).
  assert (Hlen : (Datatypes.length g <= Datatypes.length g1)%nat)
    by (destruct Hf; auto).
  assert (Hn1 : nth_error g1 d = Some (ODict done))
    by (exact (frame_nth _ _ _ _ _ Hf Hdlt Hn)).
  assert (Hr1 : ~ held g1 d) by (eapply held_le_unheld; eauto).
  assert (Hwd : w <> VRef d).
  { intros ->. destruct (Hwc d eq_refl) as [_ [Hh|[Ha _]]]; [auto|lia]. }
  destruct (store_entry f n g1 d done k w tw Hw1 Hr1 Hn1 Hk Hwd Ht)
    as (Hs & Hn' & Hsame & Ht' & Hr' & Hw').
  set (g' := update_nth d (ODict (done ++ [(k, w)])) g1) in *.
  assert (Hback : forall c, node_at g' (VRef c) -> node_at g1 (VRef c)).
  { intros c. apply node_at_write_back. exact I. }
  exists g'. split; [exact Hs|]. split; [exact Hn'|]. split.
  { intros l o Hl Ho. rewrite Hsame by exact Hl.
    destruct Hf as [_ Hf]. rewrite Hf; auto. eapply nth_error_lt; eauto. }
  split; [exact Ht'|]. split; [exact Hr'|]. split; [exact Hw'|].
  split; [unfold g'; rewrite length_update_nth; lia|].
  split.
  { apply held_le_write; auto. simpl. rewrite map_app. intros c Hin.
    apply in_app_or in Hin as [Hin|[E|[]]].
    - apply Hle. exists d, (ODict done). auto.
    - simpl in E. exact (proj2 (Hwc c E)). }
  split; [intros c Hc; apply Hnb; now apply Hback|].
  split.
  { intros a o Ha Ho.
    assert (a <> d) by lia.
    rewrite Hsame in Ho by assumption.
    apply (plain_mono g1); auto. now apply (Hpl a). }
  intros c E Hc. apply (proj1 (Hwc c E)). now apply Hback.
Qed.

(** One iteration of the loop of [as_dict]. *)
Lemma as_dict_step_content (d : loc) (k : key) (v : value) (tv : tree)
    (done : items_t) (g : heap) :
  well_formed g -> ~ held g d ->
  nth_error g d = Some (ODict done) -> ~ In k (keys done) ->
  (forall c, v = VRef c -> held g c) ->
  tree_of n g v = Some tv ->
  exists w g',
    as_body d (k, v) g = Ok tt g' /\
    nth_error g' d = Some (ODict (done ++ [(k, w)])) /\
    (forall l o, l <> d -> nth_error g l = Some o ->
                 nth_error g' l = Some o) /\
    tree_of n g' w = Some tv /\ ~ held g' d /\ well_formed g' /\
    (Datatypes.length g <= Datatypes.length g')%nat /\
    held_le g g' /\
    (forall c, node_at g' (VRef c) -> node_at g (VRef c)) /\
    (forall a o, (Datatypes.length g <= a)%nat -> nth_error g' a = Some o ->
                 plain g' o) /\
    (forall c, w = VRef c -> ~ node_at g' (VRef c)).
Proof.
  intros Hw Hr Hn Hk Hv Ht.
  pose proof (tree_of_allocated _ _ _ _ Ht) as Hal.
  destruct (is_node_ok g v Hal) as (b & Hd & Hb).
  cbv beta. cbn [fst snd]. rewrite (bind_ok _ _ _ _ _ Hd).
  destruct b.
  - (* a nested [Settings] instance *)
    destruct (proj1 Hb eq_refl) as (s & its & ats & -> & Hs).
    destruct (rec_content n s tv g (le_n _) Hw (proj1 Hb eq_refl) Ht)
      as (g1 & Hi & Hf & Hlt & Hle & Hw1 & Ht1 & Hp).
    destruct (as_dict_store d k (VRef (Datatypes.length g)) tv done g g1
                Hn Hk Hr Hf Hle Hw1 Hp Ht1) as (g' & Hst & Hrest).
    { intros c E. injection E as <-. split; [|right; lia].
      intros Hc. apply (proj1 Hp) in Hc. apply node_at_lt in Hc. lia. }
    exists (VRef (Datatypes.length g)), g'. split; [|exact Hrest].
    cbn [method]. rewrite (bind_ok _ _ _ _ _ Hi). exact Hst.
  - destruct (is_list_ok g v Hal) as (b' & Hl & Hb').
    rewrite (bind_ok _ _ _ _ _ Hl).
    destruct b'.
    + (* a list *)
      destruct (proj1 Hb' eq_refl) as (l & elems & -> & Hnl).
      destruct (tree_of_list n g (VRef l) tv) as
        (n0 & l' & elems0 & tls & En & E & Hnl' & Hall & ->);
        [now exists l, elems|exact Ht|].
      injection E as <-. rewrite Hnl in Hnl'. injection Hnl' as <-.
      destruct (as_dict_elems_content n0 ltac:(lia) elems tls g Hw Hall)
        as (elems' & g5 & Hm & Hts & Hf5 & Hle5 & Hw5 & Hp5 & Hc5).
      set (g6 := (g5 ++ [OList elems'])%list).
      assert (L5 : (Datatypes.length g <= Datatypes.length g5)%nat)
        by (destruct Hf5; auto).
      assert (Hf6 : frame (Datatypes.length g5) g5 g6) by apply frame_alloc.
      assert (Hback : forall c, node_at g6 (VRef c) -> node_at g5 (VRef c)).
      { intros c. apply node_at_alloc_back. exact I. }
      assert (Ht6 : tree_of n g6 (VRef (Datatypes.length g5))
                    = Some (TList tls)).
      { rewrite En. apply (tree_of_list_node _ _ _ elems').
        - apply nth_error_snoc_new.
        - exact (elems_frame _ _ _ _ _ _ Hf6 (le_n _) Hts). }
      assert (Hw6 : well_formed g6).
      { destruct Hw5 as [Hd5 Hu5]. split.
        - apply no_dangling_alloc; auto. simpl. intros c Hc.
          eapply all_some_allocated; eauto.
        - apply unique_keys_alloc; auto. }
      assert (Hle6 : held_le g g6).
      { apply held_le_alloc; auto. simpl. intros c Hc.
        destruct (Hc5 c Hc) as [_ [Hi|Hnew]]; [|right; exact Hnew].
        left. exists l, (OList elems). auto. }
      assert (Hp6 : plain_since g g6).
      { destruct Hp5 as [N5 P5]. split; [intros c Hc; auto|].
        intros a o Ha Ho.
        destruct (Nat.lt_ge_cases a (Datatypes.length g5)) as [Hlt|Hge].
        - unfold g6 in Ho. rewrite nth_error_snoc_old in Ho by exact Hlt.
          apply (plain_mono g5); auto. now apply (P5 a).
        - assert (a = Datatypes.length g5) as ->.
          { apply nth_error_lt in Ho. unfold g6 in Ho.
            rewrite length_app in Ho. simpl in Ho. lia. }
          unfold g6 in Ho. rewrite nth_error_snoc_new in Ho.
          injection Ho as <-. simpl. intros c Hc Hnode.
          apply (proj1 (Hc5 c Hc)). now apply Hback. }
      assert (Hf06 : frame (Datatypes.length g) g g6).
      { eapply frame_trans; [exact Hf5|].
        eapply frame_weaken; [|exact Hf6]. lia. }
      destruct (as_dict_store d k (VRef (Datatypes.length g5)) (TList tls)
                  done g g6 Hn Hk Hr Hf06 Hle6 Hw6 Hp6 Ht6)
        as (g' & Hst & Hrest).
      { intros c E. injection E as <-. split.
        - intros (c' & its & ats & E & Hc). injection E as <-.
          unfold g6 in Hc. rewrite nth_error_snoc_new in Hc. discriminate.
        - right. unfold g6. rewrite length_app. simpl. lia. }
      exists (VRef (Datatypes.length g5)), g'. split; [|exact Hrest].
      assert (Hrd : method (fun l0 => o <- read l0 ;;
                                   match o with
                                   | OList es => ret es
                                   | _ => raise TypeError
                                   end) (VRef l) g = Ok elems g).
      { cbn [method]. now rewrite (bind_ok _ _ _ _ _ (read_ok _ _ _ Hnl)). }
      rewrite (bind_ok _ _ _ _ _ Hrd).
      rewrite (bind_ok _ _ _ _ _ Hm).
      unfold bind at 1, alloc at 1. exact Hst.
    + (* any other value is stored as it is *)
      destruct (as_dict_store d k v tv done g g Hn Hk Hr
                  (frame_refl _ _) (held_le_refl _) Hw
                  (conj (fun c H => H) (plain_since_refl g)) Ht)
        as (g' & Hst & Hrest).
      { intros c ->. split.
        - intros Hc. apply Hb in Hc. discriminate.
        - left. now apply Hv. }
      exists v, g'. split; [exact Hst|exact Hrest].
Qed.

(** The loop of [as_dict]. *)
Lemma as_dict_loop_content (d s : loc) (sitems : items_t)
    (sattrs : list (string * value)) :
  d <> s ->
  forall (rest done : items_t) (ts_done ts_rest : list (key * tree))
         (g : heap),
    well_formed g -> ~ held g d ->
    nth_error g s = Some (ONode sitems sattrs) ->
    (forall x, In x (map snd rest) -> In x (map snd sitems)) ->
    nth_error g d = Some (ODict done) ->
    NoDup (keys done ++ keys rest) ->
    (forall c, In (VRef c) (map snd done) -> ~ node_at g (VRef c)) ->
    all_some (tree_entry (tree_of n g)) done = Some ts_done ->
    all_some (tree_entry (tree_of n g)) rest = Some ts_rest ->
    exists g' done',
      forM rest (as_body d) g = Ok tt g' /\
      nth_error g' d = Some (ODict done') /\
      all_some (tree_entry (tree_of n g')) done'
      = Some (ts_done ++ ts_rest)%list /\
      (forall l o, l <> d -> nth_error g l = Some o ->
                   nth_error g' l = Some o) /\
      (Datatypes.length g <= Datatypes.length g')%nat /\
      held_le g g' /\ well_formed g' /\
      (forall c, node_at g' (VRef c) -> node_at g (VRef c)) /\
      (forall a o, (Datatypes.length g <= a)%nat ->
                   nth_error g' a = Some o -> plain g' o) /\
      (forall c, In (VRef c) (map snd done') -> ~ node_at g' (VRef c)).
Proof.
  intros Hds.
  induction rest as [|[k v] rest IH];
    intros done ts_done ts_rest g Hw Hr Hs Hincl Hn Hnd Hpl Hd Hrest.
  - simpl in Hrest. injection Hrest as <-.
    rewrite app_nil_r. exists g, done.
    split; [reflexivity|]. split; [exact Hn|]. split; [exact Hd|].
    split; [auto|]. split; [lia|]. split; [apply held_le_refl|].
    split; [exact Hw|]. split; [auto|].
    split; [exact (plain_since_refl g)|exact Hpl].
  - apply all_some_cons_inv in Hrest as (e & ts' & He & Hrest & ->).
    apply tree_entry_inv in He as (tv & Ht & ->).
    assert (Hk : ~ In k (keys done)).
    { simpl in Hnd. apply NoDup_remove_2 in Hnd.
      intros Hin. apply Hnd. apply in_or_app. now left. }
    assert (Hheld : forall x c, In x (map snd ((k, v) :: rest)) ->
                                x = VRef c -> held g c).
    { intros x c Hx ->. exists s, (ONode sitems sattrs).
      split; [exact Hs|]. simpl. now apply Hincl. }
    destruct (as_dict_step_content d k v tv done g Hw Hr Hn Hk)
      as (w & g1 & Hst & Hn1 & Hsame & Ht1 & Hr1 & Hw1 & Hlen1 & Hle1 &
          Hnb1 & Hp1 & Hwn1); auto.
    { intros c E. apply (Hheld v c); auto. now left. }
    assert (Hd1 : all_some (tree_entry (tree_of n g1)) (done ++ [(k, w)])
                  = Some (ts_done ++ [(k, tv)])%list).
    { apply all_some_app.
      - apply (trees_other d g); auto.
        intros Hin. apply Hr. exists d, (ODict done). auto.
      - cbn [all_some]. unfold tree_entry. cbn [fst snd]. now rewrite Ht1. }
    assert (Hrest1 : all_some (tree_entry (tree_of n g1)) rest = Some ts').
    { apply (trees_other d g); auto.
      intros Hin. apply Hr. apply (Hheld (VRef d) d); auto. now right. }
    assert (Hnd1 : NoDup (keys (done ++ [(k, w)]) ++ keys rest)).
    { unfold keys in *. rewrite map_app. simpl. rewrite <- app_assoc.
      exact Hnd. }
    assert (Hpl1 : forall c, In (VRef c) (map snd (done ++ [(k, w)])) ->
                             ~ node_at g1 (VRef c)).
    { intros c Hin. rewrite map_app in Hin.
      apply in_app_or in Hin as [Hin|[E|[]]].
      - intros Hc. apply (Hpl c Hin). now apply Hnb1.
      - simpl in E. now apply Hwn1. }
    destruct (IH (done ++ [(k, w)]) _ _ g1 Hw1 Hr1 (Hsame _ _ (not_eq_sym Hds) Hs)
                (fun x Hx => Hincl x (or_intror Hx)) Hn1 Hnd1 Hpl1 Hd1
                Hrest1)
      as (g' & done' & Hloop & Hn' & Hts & Hsame' & Hlen' & Hle' & Hw' &
          Hnb' & Hp' & Hpl').
    exists g', done'. split.
    { cbn [forM]. rewrite (bind_ok _ _ _ _ _ Hst). exact Hloop. }
    split; [exact Hn'|].
    split; [rewrite Hts; now rewrite <- app_assoc|].
    split; [intros l o Hl Ho; apply Hsame'; auto|].
    split; [lia|].
    split; [eapply held_le_trans; [| |exact Hle1|exact Hle']; lia|].
    split; [exact Hw'|].
    split; [intros c Hc; auto|].
    split; [|exact Hpl'].
    intros a o Ha Ho.
    destruct (Nat.lt_ge_cases a (Datatypes.length g1)) as [Hlt|Hge].
    + assert (Had : a <> d).
      { apply nth_error_lt in Hn. lia. }
      destruct (nth_error g1 a) as [o1|] eqn:E1.
      * pose proof (Hsame' _ _ Had E1) as E'. rewrite Ho in E'.
        injection E' as ->.
        apply (plain_mono g1); auto. now apply (Hp1 a).
      * apply nth_error_None in E1. lia.
    + now apply (Hp' a).
Qed.

Lemma tree_of_map_dict (m : nat) (h : heap) (r : loc) (items : items_t)
    (ts : list (key * tree)) :
  nth_error h r = Some (ODict items) ->
  all_some (tree_entry (tree_of m h)) items = Some ts ->
  tree_of (S m) h (VRef r) = Some (TMap ts).
Proof. intros Hn E. cbn [tree_of]. now rewrite Hn, E. Qed.

(** One level of [as_dict], for a node of depth [S n]. *)
Lemma as_dict_level (s : loc) (t : tree) (h : heap) :
  well_formed h -> node_at h (VRef s) ->
  tree_of (S n) h (VRef s) = Some t ->
  exists h',
    as_dict (S f) s h = Ok (Datatypes.length h) h' /\
    frame (Datatypes.length h) h h' /\
    (Datatypes.length h < Datatypes.length h')%nat /\
    held_le h h' /\ well_formed h' /\
    tree_of (S n) h' (VRef (Datatypes.length h)) = Some t /\
    plain_since h h'.
Proof.
  intros Hw (s' & sitems & sattrs & E & Hs) Ht. injection E as <-.
  cbn [tree_of] in Ht. rewrite Hs in Ht.
  destruct (all_some (tree_entry (tree_of n h)) sitems) as [ts|] eqn:Hts;
    [|discriminate].
  injection Ht as <-.
  set (d := Datatypes.length h).
  set (h1 := (h ++ [ODict []])%list).
  assert (Hslt : (s < d)%nat) by (eapply nth_error_lt; eauto).
  assert (Hf1 : frame d h h1) by apply frame_alloc.
  assert (Hr : ~ held h d).
  { intros Hh. apply (proj1 (no_dangling_held h) (proj1 Hw)) in Hh.
    unfold d in Hh. lia. }
  assert (Hw1 : well_formed h1).
  { destruct Hw as [Hd Hu]. split.
    - apply no_dangling_alloc; auto. simpl. intros c [].
    - apply unique_keys_alloc; auto. simpl. constructor. }
  assert (Hr1 : ~ held h1 d).
  { apply unheld_alloc; auto. }
  assert (Hs1 : nth_error h1 s = Some (ONode sitems sattrs)).
  { unfold h1. now rewrite nth_error_snoc_old. }
  assert (Hn1 : nth_error h1 d = Some (ODict []))
    by apply nth_error_snoc_new.
  destruct (as_dict_loop_content d s sitems sattrs ltac:(lia)
              sitems [] [] ts h1 Hw1 Hr1 Hs1 (fun x H => H) Hn1)
    as (g' & done' & Hloop & Hn' & Hts' & Hsame & Hlen & Hle & Hw' &
        Hnb & Hp & Hpl).
  { simpl. exact (unique_keys_nth _ _ _ (proj2 Hw) Hs). }
  { intros c []. }
  { reflexivity. }
  { exact (trees_frame _ _ _ _ _ _ Hf1 (le_n _) Hts). }
  assert (Hlen1 : Datatypes.length h1 = S d).
  { unfold h1. rewrite length_app. simpl. unfold d. lia. }
  exists g'. split.
  { rewrite as_dict_unfold.
    rewrite (bind_ok _ _ _ _ _ (node_items_ok _ _ _ _ Hs)).
    unfold bind at 1, alloc at 1. fold d. fold h1.
    rewrite (bind_ok _ _ _ _ _ Hloop). reflexivity. }
  split.
  { split; [lia|]. intros l Hl.
    destruct (nth_error h l) as [o|] eqn:Ho.
    - apply Hsame; [lia|]. unfold h1. now rewrite nth_error_snoc_old.
    - apply nth_error_None in Ho. unfold d in Hl. lia. }
  split; [unfold d in *; lia|].
  split.
  { eapply held_le_trans; [| | |exact Hle]; try (unfold d in *; lia).
    apply held_le_alloc; [apply held_le_refl|]. intros c []. }
  split; [exact Hw'|].
  split; [eapply tree_of_map_dict; eauto|].
  split.
  - intros c Hc. apply Hnb in Hc.
    apply (node_at_alloc_back h (ODict [])); auto.
  - intros a o Ha Ho.
    destruct (Nat.eq_dec a d) as [->|Hne].
    + rewrite Hn' in Ho. injection Ho as <-. simpl. exact Hpl.
    + apply (Hp a); auto. unfold d in *. lia.
Qed.

End AsDictContent.

Lemma as_dict_content_bounded (m : nat) :
  forall (n f : nat) (s : loc) (t : tree) (h : heap),
    (n <= m)%nat -> (n <= f)%nat ->
    well_formed h -> node_at h (VRef s) -> tree_of n h (VRef s) = Some t ->
    exists h',
      as_dict f s h = Ok (Datatypes.length h) h' /\
      frame (Datatypes.length h) h h' /\
      (Datatypes.length h < Datatypes.length h')%nat /\
      held_le h h' /\ well_formed h' /\
      tree_of n h' (VRef (Datatypes.length h)) = Some t /\
      plain_since h h'.
Proof.
  induction m as [|m IH]; intros n f s t h Hm Hf Hw Hs Ht.
  - assert (n = 0)%nat as -> by lia. discriminate.
  - destruct n as [|n]; [discriminate|].
    destruct f as [|f]; [lia|].
    apply as_dict_level; auto.
    intros j s0 t0 h0 Hj Hw0 Hs0 Ht0.
    apply (IH j f); auto; lia.
Qed.

(** [as_dict] on a node of finite depth, with enough fuel. *)
Lemma as_dict_content_ok (n f : nat) (s : loc) (t : tree) (h : heap) :
  (n <= f)%nat -> well_formed h -> node_at h (VRef s) ->
  tree_of n h (VRef s) = Some t ->
  exists h',
    as_dict f s h = Ok (Datatypes.length h) h' /\
    frame (Datatypes.length h) h h' /\
    dict_at h' (VRef (Datatypes.length h)) /\
    tree_of n h' (VRef (Datatypes.length h)) = Some t /\
    tree_of n h' (VRef s) = Some t /\
    plain_since h h' /\ well_formed h'.
Proof.
  intros Hf Hw Hs Ht.
  destruct (as_dict_content_bounded n n f s t h (le_n _) Hf Hw Hs Ht)
    as (h' & Ha & Hfr & Hlt & _ & Hw' & Ht' & Hp).
  exists h'. split; [exact Ha|]. split; [exact Hfr|].
  assert (Hts : tree_of n h' (VRef s) = Some t)
    by (exact (tree_of_frame _ _ _ _ _ _ Hfr (le_n _) Ht)).
  split.
  { destruct n as [|n]; [discriminate|].
    destruct Hs as (s' & sitems & sattrs & E & Hs). injection E as <-.
    cbn [tree_of] in Ht. rewrite Hs in Ht.
    destruct (all_some (tree_entry (tree_of n h)) sitems) as [ts|];
      [|discriminate].
    injection Ht as <-.
    cbn [tree_of] in Ht'.
    destruct (nth_error h' (Datatypes.length h)) as [o|] eqn:E;
      [|discriminate].
    pose proof (proj2 Hp _ _ (le_n _) E) as Hpo.
    destruct o as [its ats|its|es].
    - destruct Hpo.
    - exists (Datatypes.length h), its. auto.
    - destruct (all_some (tree_of n h') es); discriminate. }
  auto.
Qed.

(** X11.  [as_dict] returns, and keeps the content: in a well-formed heap,
    for a node [s] whose content is a tree [t] of depth at most [n], the
    call with a recursion limit of at least [n] returns a new plain [dict]
    whose content is [t]; no existing object is changed, no [Settings]
    instance is created, and no object that is created holds a [Settings]
    instance as a value or as an element. *)
Theorem as_dict_content (n f : nat) (s : loc) (t : tree) (h : heap) :
  (n <= f)%nat -> well_formed h -> node_at h (VRef s) ->
  tree_of n h (VRef s) = Some t ->
  exists d h',
    as_dict f s h = Ok d h' /\
    d = Datatypes.length h /\
    frame (Datatypes.length h) h h' /\
    dict_at h' (VRef d) /\
    tree_of n h' (VRef d) = Some t /\
    tree_of n h' (VRef s) = Some t /\
    plain_since h h'.
Proof.
  intros Hf Hw Hs Ht.
  destruct (as_dict_content_ok n f s t h Hf Hw Hs Ht)
    as (h' & Ha & Hfr & Hd & Ht' & Hts & Hp & _).
  exists (Datatypes.length h), h'. auto 10.
Qed.

(** X11, witness: the store {'a': 1, 'x': {'y': [1, {'z': 2}]}}. *)
Lemma as_dict_content_witness :
  exists d h',
    as_dict 5 0
      [ONode [(KStr "a", VInt 1); (KStr "x", VRef 1)] [];
       ONode [(KStr "y", VRef 2)] [];
       OList [VInt 1; VRef 3];
       ONode [(KStr "z", VInt 2)] []] = Ok d h' /\
    d = 4%nat /\
    frame 4
      [ONode [(KStr "a", VInt 1); (KStr "x", VRef 1)] [];
       ONode [(KStr "y", VRef 2)] [];
       OList [VInt 1; VRef 3];
       ONode [(KStr "z", VInt 2)] []] h' /\
    dict_at h' (VRef d) /\
    tree_of 5 h' (VRef d)
    = Some (TMap [(KStr "a", TLeaf (VInt 1));
                  (KStr "x",
                   TMap [(KStr "y",
                          TList [TLeaf (VInt 1);
                                 TMap [(KStr "z", TLeaf (VInt 2))]])])]) /\
    tree_of 5 h' (VRef 0)
    = Some (TMap [(KStr "a", TLeaf (VInt 1));
                  (KStr "x",
                   TMap [(KStr "y",
                          TList [TLeaf (VInt 1);
                                 TMap [(KStr "z", TLeaf (VInt 2))]])])]) /\
    plain_since
      [ONode [(KStr "a", VInt 1); (KStr "x", VRef 1)] [];
       ONode [(KStr "y", VRef 2)] [];
       OList [VInt 1; VRef 3];
       ONode [(KStr "z", VInt 2)] []] h'.
Proof.
  apply (as_dict_content 5 5 0 _
           [ONode [(KStr "a", VInt 1); (KStr "x", VRef 1)] [];
            ONode [(KStr "y", VRef 2)] [];
            OList [VInt 1; VRef 3];
            ONode [(KStr "z", VInt 2)] []] (le_n _)).
  - split.
    + repeat constructor; simpl; lia.
    + repeat constructor; simpl; intuition discriminate.
  - eexists 0%nat, _, _. split; reflexivity.
  - reflexivity.
Defined.



(** * Nested access through a value that is not a container *)

Lemma get_nested_from_app (f : nat) (p q : list name) :
  forall (s : value) (h : heap),
    get_nested_from f s (p ++ q) h
    = (v <- get_nested_from f s p ;; get_nested_from f v q)%py h.
Proof.
  induction p as [|i p IH]; intros s h.
  - reflexivity.
  - cbn [app get_nested_from]. unfold bind.
    destruct (subscript f s i h) as [s' h1|e]; [|reflexivity].
    rewrite IH. reflexivity.
Qed.

Lemma subscript_scalar (f : nat) (v : value) (i : name) (h : heap) :
  v = VNone \/ (exists z, v = VInt z) ->
  subscript f v i h = Raise TypeError.
Proof. intros [->|[z ->]]; reflexivity. Qed.

(** X13.  Nested access through a value that cannot be indexed: when
    [get_nested] along a path [p] returns [None] or an integer, [get_nested]
    and [set_nested] along any longer path [p + (k,) + q] raise [TypeError].
    With the empty path, [get_nested] returns the receiver itself and
    [set_nested] raises [IndexError]. *)
Theorem nested_access_through_scalar (f : nat) (self : loc)
    (p q : list name) (k : name) (v w : value) (h h' : heap) :
  get_nested f self p h = Ok v h' ->
  v = VNone \/ (exists z, v = VInt z) ->
  get_nested f self (p ++ k :: q) h = Raise TypeError /\
  set_nested f self (p ++ k :: q) w h = Raise TypeError /\
  get_nested f self [] h = Ok (VRef self) h /\
  set_nested f self [] w h = Raise IndexError.
Proof.
  intros Hg Hv. unfold get_nested in *.
  assert (Hget : forall q0, get_nested_from f (VRef self) (p ++ k :: q0) h
                            = Raise TypeError).
  { intros q0. rewrite get_nested_from_app.
    rewrite (bind_ok _ _ _ _ _ Hg). cbn [get_nested_from].
    unfold bind. now rewrite (subscript_scalar _ _ _ _ Hv). }
  split; [apply Hget|]. split; [|split; reflexivity].
  unfold set_nested.
  destruct q as [|k2 q].
  - rewrite removelast_last. rewrite (bind_ok _ _ _ _ _ Hg).
    rewrite rev_app_distr. cbn [rev app].
    destruct Hv as [->|[z ->]]; reflexivity.
  - rewrite removelast_app by discriminate.
    change (removelast (k :: k2 :: q)) with (k :: removelast (k2 :: q)).
    unfold bind. now rewrite Hget.
Qed.

(** X13, witness: [s.a = 1], then [s.a.b] and [s.a.b = 2]. *)
Lemma nested_access_through_scalar_witness :
  get_nested 1 0 ([NKey (KStr "a")] ++ [NKey (KStr "b")])
    [ONode [(KStr "a", VInt 1)] []] = Raise TypeError /\
  set_nested 1 0 ([NKey (KStr "a")] ++ [NKey (KStr "b")]) (VInt 2)
    [ONode [(KStr "a", VInt 1)] []] = Raise TypeError /\
  get_nested 1 0 [] [ONode [(KStr "a", VInt 1)] []]
  = Ok (VRef 0) [ONode [(KStr "a", VInt 1)] []] /\
  set_nested 1 0 [] (VInt 2) [ONode [(KStr "a", VInt 1)] []]
  = Raise IndexError.
Proof.
  apply (nested_access_through_scalar 1 0 [NKey (KStr "a")] []
           (NKey (KStr "b")) (VInt 1) (VInt 2)
           [ONode [(KStr "a", VInt 1)] []]
           [ONode [(KStr "a", VInt 1)] []] eq_refl).
  right. now exists 1.
Defined.



(** * [copy] returns *)

Lemma trees_lookup (F : value -> option tree) (items : items_t)
    (ts : list (key * tree)) (k : key) (v : value) :
  all_some (tree_entry F) items = Some ts ->
  lookup k items = Some v -> exists tv, F v = Some tv.
Proof.
  intros Hall Hl. apply lookup_In in Hl.
  destruct (all_some_In _ _ _ _ Hall Hl) as [e He].
  apply tree_entry_inv in He as (tv & Hv & _). eauto.
Qed.

Lemma trees_assoc_set (F : value -> option tree) (items : items_t)
    (ts : list (key * tree)) (k : key) (w : value) (tw : tree) :
  all_some (tree_entry F) items = Some ts -> F w = Some tw ->
  exists ts', all_some (tree_entry F) (assoc_set k w items) = Some ts'.
Proof.
  intros Hall Hw. revert ts Hall.
  induction items as [|[k' v'] r IH]; intros ts Hall.
  - simpl. unfold tree_entry. simpl. rewrite Hw. eauto.
  - apply all_some_cons_inv in Hall as (e & ts0 & He & Hr & ->).
    simpl. destruct (key_eqb k k').
    + cbn [all_some]. unfold tree_entry at 1. cbn [fst snd].
      rewrite Hw, Hr. eauto.
    + cbn [all_some]. rewrite He.
      destruct (IH _ Hr) as [ts' E]. rewrite E. eauto.
Qed.

Section CopyReturns.

Variables f n : nat.

Hypothesis fuel_pos : (1 <= f)%nat.
Hypothesis fuel_depth : (n <= f)%nat.

(** The recursive calls of [copy], on nodes of depth at most [n]. *)
Hypothesis rec_copy :
  forall (j : nat) (l : loc) (t : tree) (g : heap),
    (j <= n)%nat -> well_formed g -> node_at g (VRef l) ->
    tree_of j g (VRef l) = Some t ->
    exists g1 t',
      copy f l g = Ok (Datatypes.length g) g1 /\
      held_le g g1 /\ well_formed g1 /\
      tree_of j g1 (VRef (Datatypes.length g)) = Some t'.

Lemma getitem_present_fuel (self : loc) (k : key) (v : value) (g : heap)
    (items : items_t) (attrs : list (string * value)) :
  nth_error g self = Some (ONode items attrs) ->
  lookup k items = Some v ->
  __getitem__ f self (NKey k) g = Ok v g.
Proof.
  intros Hn Hl. destruct f as [|f0]; [lia|].
  eapply getitem_present; eauto.
Qed.

(** One iteration of the loop of [copy]. *)
Lemma copy_step_returns (self r : loc) (name : key) (v : value) (tv : tree)
    (cur sitems : items_t) (sattrs : list (string * value))
    (ts : list (key * tree)) (g : heap) :
  well_formed g -> ~ held g r -> r <> self ->
  nth_error g self = Some (ONode sitems sattrs) ->
  lookup name sitems = Some v ->
  tree_of n g v = Some tv ->
  nth_error g r = Some (ONode cur []) ->
  all_some (tree_entry (tree_of n g)) cur = Some ts ->
  exists g',
    copy_step (copy f) f self r name g = Ok tt g' /\
    well_formed g' /\ ~ held g' r /\
    (forall l o, l <> r -> nth_error g l = Some o ->
                 nth_error g' l = Some o) /\
    (Datatypes.length g <= Datatypes.length g')%nat /\
    held_le g g' /\
    exists cur' ts',
      nth_error g' r = Some (ONode cur' []) /\
      all_some (tree_entry (tree_of n g')) cur' = Some ts'.
Proof.
  intros Hw Hr Hrs Hs Hl Ht Hn Hts.
  pose proof (getitem_present_fuel self name v g sitems sattrs Hs Hl) as Hg.
  pose proof (tree_of_allocated _ _ _ _ Ht) as Hal.
  assert (Hvh : forall c, v = VRef c -> held g c).
  { intros c ->. exists self, (ONode sitems sattrs). split; [exact Hs|].
    simpl. apply lookup_In in Hl.
    change (VRef c) with (snd (name, VRef c)). now apply in_map. }
  assert (Hvr : v <> VRef r).
  { intros E. apply Hr. now apply Hvh. }
  assert (Hctor : forall w h1 r1 h2,
             __init__ f (Some w) h1 = Ok r1 h2 ->
             r1 = Datatypes.length h1 /\ (r1 < Datatypes.length h2)%nat /\
             held_le h1 h2).
  { intros w h1 r1 h2 Hi.
    pose proof (init_frame _ _ _ _ _ Hi) as [-> _].
    destruct (init_node _ _ _ _ _ Hi) as [its Hni].
    split; auto. split; [eapply nth_error_lt; eauto|].
    eapply init_held; eauto. }
  (* the assignment [ret[name] = w] that ends the iteration *)
  assert (Hstore : forall (w : value) (tw : tree) (g1 : heap),
            held_le g g1 -> well_formed g1 ->
            (Datatypes.length g <= Datatypes.length g1)%nat ->
            (forall l o, nth_error g l = Some o -> nth_error g1 l = Some o) ->
            (forall c, w = VRef c -> known g g1 c) ->
            w <> VRef r ->
            tree_of n g1 w = Some tw ->
            exists g',
              __setitem__ f r (NKey name) w g1 = Ok tt g' /\
              well_formed g' /\ ~ held g' r /\
              (forall l o, l <> r -> nth_error g l = Some o ->
                           nth_error g' l = Some o) /\
              (Datatypes.length g <= Datatypes.length g')%nat /\
              held_le g g' /\
              exists cur' ts',
                nth_error g' r = Some (ONode cur' []) /\
                all_some (tree_entry (tree_of n g')) cur' = Some ts').
  { intros w tw g1 Hle1 Hw1 Hlen1 Hkeep Hwk Hwr Htw.
    assert (Hr1 : ~ held g1 r).
    { eapply held_le_unheld; eauto. eapply nth_error_lt; eauto. }
    pose proof (Hkeep _ _ Hn) as Hn1.
    destruct (setitem_eval f n
                (fun j x t0 h0 Hj => init_content_bounded n j f x t0 h0 Hj
                                       (Nat.le_trans _ _ _ Hj fuel_depth))
                n r name w tw g1 cur [] (le_n _) Hw1 Hr1 Hn1 Hwr Htw)
      as (w' & g' & Hset & Hn' & Hsame & Ht' & Hw' & Hr' & Hwf').
    exists g'. split; [exact Hset|]. split; [exact Hwf'|].
    split; [exact Hr'|]. split; [intros l o Hlr Ho; auto|].
    destruct (setitem_with_held _ g g1 _ _ _ _ _ Hctor Hlen1 Hle1 Hwk Hset)
      as [Hle' Hlen'].
    split; [lia|]. split; [exact Hle'|].
    assert (Hcur1 : all_some (tree_entry (tree_of n g1)) cur = Some ts).
    { revert Hts. apply all_some_mono. intros kv e _.
      apply tree_entry_mono. intros t0.
      apply (tree_of_agree (fun _ => True)); auto. }
    assert (Hcur' : all_some (tree_entry (tree_of n g')) cur = Some ts).
    { apply (trees_other r g1); auto.
      intros Hin. apply Hr1. exists r, (ONode cur []). auto. }
    destruct (trees_assoc_set _ _ _ name w' _ Hcur' Ht') as [ts' Hts'].
    eauto. }
  destruct (is_node_ok g v Hal) as (b & Hd & Hb).
  unfold copy_step.
  rewrite (bind_ok _ _ _ _ _ Hg). rewrite (bind_ok _ _ _ _ _ Hd).
  destruct b.
  - destruct (proj1 Hb eq_refl) as (l & its & ats & -> & Hln).
    destruct (rec_copy n l tv g (le_n _) Hw (proj1 Hb eq_refl) Ht)
      as (g1 & t' & Hc & Hle1 & Hw1 & Ht1).
    pose proof (copy_frame _ _ _ _ _ Hc) as (_ & Hf1 & Hlt1).
    destruct (Hstore (VRef (Datatypes.length g)) t' g1 Hle1 Hw1)
      as (g' & Hset & Hrest); auto.
    { lia. }
    { intros l0 o Ho. destruct Hf1 as [_ Hf1].
      rewrite Hf1; auto. eapply nth_error_lt; eauto. }
    { intros c E. injection E as <-. right. lia. }
    { intros E. injection E as E. apply nth_error_lt in Hn. lia. }
    exists g'. split; [|exact Hrest].
    rewrite (bind_ok _ _ _ _ _ Hg). cbn [method].
    rewrite (bind_ok _ _ _ _ _ Hc). exact Hset.
  - destruct (Hstore v tv g (held_le_refl _) Hw (le_n _))
      as (g' & Hset & Hrest); auto.
    { intros c E. left. now apply Hvh. }
    exists g'. split; [|exact Hrest].
    rewrite (bind_ok _ _ _ _ _ Hg). exact Hset.
Qed.

(** The loop of [copy]. *)
Lemma copy_loop_returns (self r : loc) (sitems : items_t)
    (sattrs : list (string * value)) :
  r <> self ->
  forall (names : list key) (cur : items_t) (ts : list (key * tree))
         (g : heap),
    (forall k, In k names -> lookup k sitems <> None) ->
    well_formed g -> ~ held g r ->
    nth_error g self = Some (ONode sitems sattrs) ->
    (forall k v, lookup k sitems = Some v ->
                 exists tv, tree_of n g v = Some tv) ->
    nth_error g r = Some (ONode cur []) ->
    all_some (tree_entry (tree_of n g)) cur = Some ts ->
    exists g',
      forM names (copy_step (copy f) f self r) g = Ok tt g' /\
      well_formed g' /\
      (Datatypes.length g <= Datatypes.length g')%nat /\
      held_le g g' /\
      exists cur' ts',
        nth_error g' r = Some (ONode cur' []) /\
        all_some (tree_entry (tree_of n g')) cur' = Some ts'.
Proof.
  intros Hrs. induction names as [|name names IH];
    intros cur ts g Hin Hw Hr Hs Htr Hn Hts.
  - exists g. split; [reflexivity|]. split; [exact Hw|]. split; [lia|].
    split; [apply held_le_refl|]. eauto.
  - destruct (lookup name sitems) as [v|] eqn:Hl;
      [|exfalso; apply (Hin name); [now left|exact Hl]].
    destruct (Htr _ _ Hl) as [tv Ht].
    destruct (copy_step_returns self r name v tv cur sitems sattrs ts g
                Hw Hr Hrs Hs Hl Ht Hn Hts)
      as (g1 & Hst & Hw1 & Hr1 & Hsame & Hlen1 & Hle1 & cur1 & ts1 &
          Hn1 & Hts1).
    destruct (IH cur1 ts1 g1) as (g' & Hloop & Hw' & Hlen' & Hle' & Hfin);
      auto.
    { intros k Hk. apply Hin. now right. }
    { intros k v0 Hk. destruct (Htr _ _ Hk) as [t0 Ht0]. exists t0.
      apply (tree_of_other r g); auto.
      intros ->. apply Hr. exists self, (ONode sitems sattrs).
      split; [exact Hs|]. simpl. apply lookup_In in Hk.
      change (VRef r) with (snd (k, VRef r)). now apply in_map. }
    exists g'. split.
    { cbn [forM]. rewrite (bind_ok _ _ _ _ _ Hst). exact Hloop. }
    split; [exact Hw'|]. split; [lia|].
    split; [eapply held_le_trans; [| |exact Hle1|exact Hle']; lia|].
    exact Hfin.
Qed.

(** One level of [copy], for a node of depth [S n]. *)
Lemma copy_level (self : loc) (t : tree) (h : heap) :
  well_formed h -> node_at h (VRef self) ->
  tree_of (S n) h (VRef self) = Some t ->
  exists h' t',
    copy (S f) self h = Ok (Datatypes.length h) h' /\
    held_le h h' /\ well_formed h' /\
    tree_of (S n) h' (VRef (Datatypes.length h)) = Some t'.
Proof.
  intros Hw (s' & sitems & sattrs & E & Hs) Ht. injection E as <-.
  cbn [tree_of] in Ht. rewrite Hs in Ht.
  destruct (all_some (tree_entry (tree_of n h)) sitems) as [ts|] eqn:Hts;
    [|discriminate].
  set (r := Datatypes.length h).
  set (h1 := (h ++ [ONode [] []])%list).
  assert (Hslt : (self < r)%nat) by (eapply nth_error_lt; eauto).
  assert (Hf1 : frame r h h1) by apply frame_alloc.
  assert (Hr : ~ held h r).
  { intros Hh. apply (proj1 (no_dangling_held h) (proj1 Hw)) in Hh.
    unfold r in Hh. lia. }
  assert (Hw1 : well_formed h1).
  { destruct Hw as [Hd Hu]. split.
    - apply no_dangling_alloc; auto. simpl. intros c [].
    - apply unique_keys_alloc; auto. simpl. constructor. }
  assert (Hr1 : ~ held h1 r) by (apply unheld_alloc; auto).
  assert (Hs1 : nth_error h1 self = Some (ONode sitems sattrs)).
  { unfold h1. now rewrite nth_error_snoc_old. }
  assert (Hn1 : nth_error h1 r = Some (ONode [] []))
    by apply nth_error_snoc_new.
  destruct (iteration_order_keys h1 self sitems sattrs Hs1)
    as (names & Hit & Hperm).
  destruct (copy_loop_returns self r sitems sattrs ltac:(lia) names [] []
              h1) as (g' & Hloop & Hw' & Hlen & Hle & cur' & ts' & Hn' &
                      Hts'); auto.
  { intros k Hk. apply lookup_In_keys.
    eapply Permutation_in; [apply Permutation_sym; exact Hperm|exact Hk]. }
  { intros k v Hl. destruct (trees_lookup _ _ _ _ _ Hts Hl) as [tv Htv].
    exists tv. exact (tree_of_frame _ _ _ _ _ _ Hf1 (le_n _) Htv). }
  exists g', (TMap ts'). split.
  { cbn [copy]. destruct f as [|f0] eqn:Ef; [lia|].
    rewrite (bind_ok _ _ _ _ _ (init_empty f0 h)). fold r. fold h1.
    rewrite (bind_ok _ _ _ _ _ Hit).
    rewrite (bind_ok _ _ _ _ _ Hloop). reflexivity. }
  split.
  { eapply held_le_trans; [| | |exact Hle].
    - unfold h1. rewrite length_app. simpl. lia.
    - exact Hlen.
    - apply held_le_alloc; [apply held_le_refl|]. intros c []. }
  split; [exact Hw'|].
  eapply tree_of_map_node; eauto.
Qed.

End CopyReturns.

Lemma copy_returns_bounded (m : nat) :
  forall (n f : nat) (self : loc) (t : tree) (h : heap),
    (n <= m)%nat -> (n < f)%nat ->
    well_formed h -> node_at h (VRef self) ->
    tree_of n h (VRef self) = Some t ->
    exists h' t',
      copy f self h = Ok (Datatypes.length h) h' /\
      held_le h h' /\ well_formed h' /\
      tree_of n h' (VRef (Datatypes.length h)) = Some t'.
Proof.
  induction m as [|m IH]; intros n f self t h Hm Hf Hw Hs Ht.
  - assert (n = 0)%nat as -> by lia. discriminate.
  - destruct n as [|n]; [discriminate|].
    destruct f as [|f]; [lia|].
    apply (copy_level f n) with (t := t); auto; try lia.
    intros j l t0 g Hj Hw0 Hl Ht0.
    apply (IH j f l t0 g); auto; lia.
Qed.


